(** * pkg/encryption/cipher.go: a shallow embedding and its properties

    The Go package [encryption] defines a [Cipher] interface, a pass-through
    [DefaultCipher], and the [Base64Cipher], [CFBCipher] and [GCMCipher]
    implementations that embed it.  The code works on Go slices (views of
    shared backing arrays), on a pointer to a string, and on the process-wide
    random source, so the embedding is a state-and-panic monad over a store
    of backing arrays, string variables and an entropy tape.

    The functions of the Go standard library that the package calls
    (crypto/aes, crypto/cipher, encoding/base64, io, crypto/rand) are
    modelled first, as executable definitions, from their documented
    behaviour (FIPS-197, NIST SP 800-38A/D, RFC 4648 and the Go manual),
    and checked against the published test vectors.

    Lengths are natural numbers: the limits of a machine (the range of
    [int], the memory) and the 64 GiB bound of the library on one GCM
    message are outside the model.  The random source is a tape of bytes;
    a read past its end is the source failing. *)

From Stdlib Require Import String.
From Stdlib Require Import ZArith List Lia Bool Arith Btauto.
From coqutil Require Import Byte Z.bitblast.
Import ListNotations.

Local Open Scope nat_scope.

(* ===================================================================== *)
(** * Bytes *)
(* ===================================================================== *)

Definition x00 : byte := Init.Byte.x00.

(** [subtle.XORBytes]: element-wise xor, as long as the shorter operand. *)
Fixpoint xorBytes (a b : list byte) : list byte :=
  match a, b with
  | x :: a', y :: b' => byte.xor x y :: xorBytes a' b'
  | _, _ => []
  end.

Definition byte_to_nat (b : byte) : nat := Z.to_nat (byte.unsigned b).

(** Two hexadecimal digits per byte; used for the published test vectors. *)
Definition hex_digit (c : byte) : Z :=
  let n := byte.unsigned c in
  if (48 <=? n)%Z && (n <=? 57)%Z then n - 48
  else if (97 <=? n)%Z && (n <=? 102)%Z then n - 87
  else 0.

Fixpoint hex_bytes (l : list byte) : list byte :=
  match l with
  | h :: l0 :: rest => byte.of_Z (16 * hex_digit h + hex_digit l0) :: hex_bytes rest
  | _ => []
  end.

Definition hex (s : string) : list byte := hex_bytes (list_byte_of_string s).

Local Open Scope string_scope.
Local Open Scope nat_scope.
Local Open Scope list_scope.

(* ===================================================================== *)
(** * crypto/aes *)
(* ===================================================================== *)

Module aes.

(** [aes.BlockSize] *)
Definition BlockSize : nat := 16.

(** ** The field GF(2^8) of FIPS-197, section 4 *)

Definition xtime (a : Z) : Z :=
  let s := Z.shiftl a 1 in
  if Z.testbit a 7 then Z.land (Z.lxor s 283) 255 else s.

Fixpoint gmul_loop (n : nat) (a b : Z) : Z :=
  match n with
  | O => 0%Z
  | S n' => Z.lxor (if Z.odd b then a else 0%Z)
                   (gmul_loop n' (xtime a) (Z.shiftr b 1))
  end.

Definition gmul (a b : Z) : Z := gmul_loop 8 a b.

(** The multiplicative inverse is the 254th power (0 maps to 0). *)
Definition ginv (a : Z) : Z :=
  let a2 := gmul a a in
  let a4 := gmul a2 a2 in
  let a8 := gmul a4 a4 in
  let a16 := gmul a8 a8 in
  let a32 := gmul a16 a16 in
  let a64 := gmul a32 a32 in
  let a128 := gmul a64 a64 in
  gmul a2 (gmul a4 (gmul a8 (gmul a16 (gmul a32 (gmul a64 a128))))).

Definition rotl8 (b : Z) (n : Z) : Z :=
  Z.land (Z.lor (Z.shiftl b n) (Z.shiftr b (8 - n))) 255.

Definition sbox_affine (a : Z) : Z :=
  let b := ginv a in
  Z.lxor b (Z.lxor (rotl8 b 1) (Z.lxor (rotl8 b 2)
    (Z.lxor (rotl8 b 3) (Z.lxor (rotl8 b 4) 99)))).

(** [sbox0], the substitution table of const.go. *)
Definition sbox0 : list byte :=
  Eval vm_compute in
    map (fun i => byte.of_Z (sbox_affine (Z.of_nat i))) (seq 0 256).

Definition sbox (b : byte) : byte := nth (byte_to_nat b) sbox0 x00.

Definition bmul (k : Z) (b : byte) : byte :=
  byte.of_Z (gmul k (byte.unsigned b)).

(** ** The round transformations on a 16-byte state (column-major) *)

Definition at_ (st : list byte) (i : nat) : byte := nth i st x00.

Definition sub_bytes (st : list byte) : list byte := map sbox st.

Definition shift_rows (st : list byte) : list byte :=
  map (fun i => at_ st (i mod 4 + 4 * ((i / 4 + i mod 4) mod 4))) (seq 0 16).

Definition mix_column (st : list byte) (c : nat) : list byte :=
  let a0 := at_ st (4 * c) in
  let a1 := at_ st (4 * c + 1) in
  let a2 := at_ st (4 * c + 2) in
  let a3 := at_ st (4 * c + 3) in
  let x := byte.xor in
  [ x (bmul 2 a0) (x (bmul 3 a1) (x a2 a3));
    x a0 (x (bmul 2 a1) (x (bmul 3 a2) a3));
    x a0 (x a1 (x (bmul 2 a2) (bmul 3 a3)));
    x (bmul 3 a0) (x a1 (x a2 (bmul 2 a3))) ].

Definition mix_columns (st : list byte) : list byte :=
  flat_map (mix_column st) (seq 0 4).

Definition add_round_key (st rk : list byte) : list byte :=
  map (fun i => byte.xor (at_ st i) (at_ rk i)) (seq 0 16).

(** ** Key expansion (FIPS-197, section 5.2), on 4-byte words *)

Fixpoint words (l : list byte) : list (list byte) :=
  match l with
  | a :: b :: c :: d :: rest => [a; b; c; d] :: words rest
  | _ => []
  end.

Definition rot_word (w : list byte) : list byte :=
  match w with
  | a :: rest => rest ++ [a]
  | [] => []
  end.

Fixpoint rcon_pow (n : nat) : Z :=
  match n with
  | O => 1%Z
  | S n' => xtime (rcon_pow n')
  end.

Definition rcon (i : nat) : list byte :=
  [byte.of_Z (rcon_pow (i - 1)); x00; x00; x00].

Fixpoint expand (fuel nk i : nat) (w : list (list byte)) : list (list byte) :=
  match fuel with
  | O => w
  | S fuel' =>
      let prev := nth (i - 1) w [] in
      let temp :=
        if i mod nk =? 0
        then xorBytes (map sbox (rot_word prev)) (rcon (i / nk))
        else if (6 <? nk) && (i mod nk =? 4) then map sbox prev
        else prev in
      expand fuel' nk (S i) (w ++ [xorBytes (nth (i - nk) w []) temp])
  end.

Definition expandKey (key : list byte) : list byte :=
  let nk := length key / 4 in
  concat (expand (4 * (nk + 7) - nk) nk nk (words key)).

(** ** The block cipher *)

(** [aesCipher]: the expanded encryption key. *)
Record Block : Type := mkBlock { enc : list byte }.

Definition round_key (xk : list byte) (r : nat) : list byte :=
  firstn 16 (skipn (16 * r) xk).

Fixpoint rounds (n r : nat) (xk st : list byte) : list byte :=
  match n with
  | O => st
  | S n' =>
      rounds n' (S r) xk
        (add_round_key (mix_columns (shift_rows (sub_bytes st)))
                       (round_key xk r))
  end.

(** [Block.Encrypt] on one block. *)
Definition Encrypt (b : Block) (src : list byte) : list byte :=
  let xk := enc b in
  let nr := length xk / 16 - 1 in
  let st := add_round_key src (round_key xk 0) in
  let st := rounds (nr - 1) 1 xk st in
  add_round_key (shift_rows (sub_bytes st)) (round_key xk nr).

End aes.

Example aes_sbox_00 : aes.sbox x00 = Init.Byte.x63.
Proof. reflexivity. Qed.

(** FIPS-197, appendix B. *)
Example aes128_fips197_B :
  aes.Encrypt (aes.mkBlock (aes.expandKey (hex "2b7e151628aed2a6abf7158809cf4f3c")))
              (hex "3243f6a8885a308d313198a2e0370734")
  = hex "3925841d02dc09fbdc118597196a0b32".
Proof. vm_compute. reflexivity. Qed.

(** FIPS-197, appendix C.1, C.2 and C.3. *)
Example aes128_fips197_C1 :
  aes.Encrypt (aes.mkBlock (aes.expandKey (hex "000102030405060708090a0b0c0d0e0f")))
              (hex "00112233445566778899aabbccddeeff")
  = hex "69c4e0d86a7b0430d8cdb78070b4c55a".
Proof. vm_compute. reflexivity. Qed.

Example aes192_fips197_C2 :
  aes.Encrypt
    (aes.mkBlock (aes.expandKey (hex "000102030405060708090a0b0c0d0e0f1011121314151617")))
    (hex "00112233445566778899aabbccddeeff")
  = hex "dda97ca4864cdfe06eaf70a0ec0d7191".
Proof. vm_compute. reflexivity. Qed.

Example aes256_fips197_C3 :
  aes.Encrypt
    (aes.mkBlock (aes.expandKey
       (hex "000102030405060708090a0b0c0d0e0f101112131415161718191a1b1c1d1e1f")))
    (hex "00112233445566778899aabbccddeeff")
  = hex "8ea2b7ca516745bfeafc49904b496089".
Proof. vm_compute. reflexivity. Qed.

(* ===================================================================== *)
(** * crypto/cipher *)
(* ===================================================================== *)

(** [copy(dst[off:], src)] on the contents of [dst]. *)
Definition copy_at (dst : list byte) (off : nat) (src : list byte) : list byte :=
  let m := Nat.min (length dst - off) (length src) in
  firstn off dst ++ firstn m src ++ skipn (off + m) dst.

Definition bytes_eqb (a b : list byte) : bool :=
  if list_eq_dec Strings.Byte.byte_eq_dec a b then true else false.

Module cipher.

(** ** CFB mode (cfb.go) *)

Record cfb : Type := mkCFB {
  cfb_b : aes.Block;
  cfb_next : list byte;
  cfb_out : list byte;
  cfb_outUsed : nat;
  cfb_decrypt : bool
}.

(** [newCFB], once the IV length has been checked. *)
Definition newCFB (block : aes.Block) (iv : list byte) (decrypt : bool) : cfb :=
  mkCFB block iv (repeat x00 aes.BlockSize) aes.BlockSize decrypt.

(** [x.b.Encrypt(x.out, x.next); x.outUsed = 0], once the key stream
    block is used up. *)
Definition refill (x : cfb) : cfb :=
  if cfb_outUsed x =? length (cfb_out x)
  then mkCFB (cfb_b x) (cfb_next x) (aes.Encrypt (cfb_b x) (cfb_next x))
             0 (cfb_decrypt x)
  else x.

(** One turn of the loop of [cfb.XORKeyStream] on a non-empty [src]: the
    bytes it writes and the stream afterwards.  The feedback register
    [next] takes the ciphertext: [src] when decrypting, the output
    otherwise. *)
Definition turn (x : cfb) (src : list byte) : list byte * cfb :=
  let x1 := refill x in
  let d := xorBytes src (skipn (cfb_outUsed x1) (cfb_out x1)) in
  let fed := if cfb_decrypt x1 then src else d in
  (d, mkCFB (cfb_b x1) (copy_at (cfb_next x1) (cfb_outUsed x1) fed)
            (cfb_out x1) (cfb_outUsed x1 + length d) (cfb_decrypt x1)).

(** [cfb.XORKeyStream]; every turn consumes at least one byte of [src],
    so [length src] turns are enough. *)
Fixpoint xorKeyStream (fuel : nat) (x : cfb) (src : list byte) : list byte * cfb :=
  match fuel with
  | O => ([], x)
  | S fuel' =>
      match src with
      | [] => ([], x)
      | _ :: _ =>
          let (d, x2) := turn x src in
          let (ds, x3) := xorKeyStream fuel' x2 (skipn (length d) src) in
          (d ++ ds, x3)
      end
  end.

(** ** GCM (gcm.go) *)

Definition gcmBlockSize : nat := 16.
Definition gcmTagSize : nat := 16.
Definition gcmStandardNonceSize : nat := 12.

(** A 16-byte block as a field element: the big-endian value of the block. *)
Definition be_to_Z (l : list byte) : Z :=
  fold_left (fun acc b => (acc * 256 + byte.unsigned b)%Z) l 0%Z.

Definition Z_to_be (n : nat) (v : Z) : list byte :=
  map (fun i => byte.of_Z (Z.shiftr v (8 * Z.of_nat (n - 1 - i)))) (seq 0 n).

Definition pad_block (l : list byte) : list byte :=
  l ++ repeat x00 (gcmBlockSize - length l).

(** Multiplication in GF(2^128) (SP 800-38D, algorithm 1). *)
Fixpoint gf_mul_loop (n : nat) (i : Z) (x v z : Z) : Z :=
  match n with
  | O => z
  | S n' =>
      let z' := if Z.testbit x (127 - i) then Z.lxor z v else z in
      let v' := if Z.testbit v 0
                then Z.lxor (Z.shiftr v 1) (Z.shiftl 225 120)
                else Z.shiftr v 1 in
      gf_mul_loop n' (i + 1) x v' z'
  end.

Definition gf_mul (x y : Z) : Z := gf_mul_loop 128 0 x y 0.

Record gcm : Type := mkGCM {
  gcm_cipher : aes.Block;
  gcm_nonceSize : nat;
  gcm_tagSize : nat;
  gcm_key : Z        (* the hash subkey, E(0^128) *)
}.

(** [gcm.update]: absorb [data] block by block, the last one padded. *)
Fixpoint update (fuel : nat) (g : gcm) (y : Z) (data : list byte) : Z :=
  match fuel with
  | O => y
  | S fuel' =>
      match data with
      | [] => y
      | _ :: _ =>
          update fuel' g
            (gf_mul (Z.lxor y (be_to_Z (pad_block (firstn gcmBlockSize data))))
                    (gcm_key g))
            (skipn gcmBlockSize data)
      end
  end.

(** [gcmInc32]: the last four bytes as a big-endian counter, wrapping. *)
Definition gcmInc32 (counter : list byte) : list byte :=
  firstn 12 counter
    ++ Z_to_be 4 ((be_to_Z (skipn 12 counter) + 1) mod 2 ^ 32).

(** [gcm.deriveCounter] for a nonce of the standard size. *)
Definition deriveCounter (nonce : list byte) : list byte :=
  nonce ++ [x00; x00; x00; Init.Byte.x01].

(** [gcm.counterCrypt] *)
Fixpoint counterCrypt (fuel : nat) (g : gcm) (inp counter : list byte) : list byte :=
  match fuel with
  | O => []
  | S fuel' =>
      match inp with
      | [] => []
      | _ :: _ =>
          xorBytes (firstn gcmBlockSize inp) (aes.Encrypt (gcm_cipher g) counter)
            ++ counterCrypt fuel' g (skipn gcmBlockSize inp) (gcmInc32 counter)
      end
  end.

(** [gcm.auth] *)
Definition auth (g : gcm) (ciphertext additionalData tagMask : list byte) : list byte :=
  let y := update (length additionalData) g 0%Z additionalData in
  let y := update (length ciphertext) g y ciphertext in
  let lens := (Z.of_nat (length additionalData) * 8 * 2 ^ 64
               + Z.of_nat (length ciphertext) * 8)%Z in
  let y := gf_mul (Z.lxor y lens) (gcm_key g) in
  xorBytes (Z_to_be 16 y) tagMask.

(** What [Seal] appends to its destination. *)
Definition seal (g : gcm) (nonce plaintext data : list byte) : list byte :=
  let counter := deriveCounter nonce in
  let tagMask := aes.Encrypt (gcm_cipher g) counter in
  let out := counterCrypt (length plaintext) g plaintext (gcmInc32 counter) in
  out ++ auth g out data tagMask.

(** The tag [Open] expects for the body of [ciphertext]. *)
Definition expectedTag (g : gcm) (nonce body data : list byte) : list byte :=
  auth g body data (aes.Encrypt (gcm_cipher g) (deriveCounter nonce)).

(** The plaintext [Open] recovers from the body. *)
Definition unseal (g : gcm) (nonce body : list byte) : list byte :=
  counterCrypt (length body) g body (gcmInc32 (deriveCounter nonce)).

End cipher.

Definition newGCM (k : list byte) : cipher.gcm :=
  let b := aes.mkBlock (aes.expandKey k) in
  cipher.mkGCM b 12 16 (cipher.be_to_Z (aes.Encrypt b (repeat x00 16))).

(** The GCM specification's test cases 1, 2, 3, 4 and 14. *)
Example gcm_test_case_1 :
  cipher.seal (newGCM (repeat x00 16)) (repeat x00 12) [] []
  = hex "58e2fccefa7e3061367f1d57a4e7455a".
Proof. vm_compute. reflexivity. Qed.

Example gcm_test_case_2 :
  cipher.seal (newGCM (repeat x00 16)) (repeat x00 12) (repeat x00 16) []
  = hex "0388dace60b6a392f328c2b971b2fe78ab6e47d42cec13bdf53a67b21257bddf".
Proof. vm_compute. reflexivity. Qed.

Example gcm_test_case_3 :
  cipher.seal (newGCM (hex "feffe9928665731c6d6a8f9467308308"))
    (hex "cafebabefacedbaddecaf888")
    (hex ("d9313225f88406e5a55909c5aff5269a86a7a9531534f7da2e4c303d8a318a72"
          ++ "1c3c0c95956809532fcf0e2449a6b525b16aedf5aa0de657ba637b391aafd255"))
    []
  = hex ("42831ec2217774244b7221b784d0d49ce3aa212f2c02a4e035c17e2329aca12e"
         ++ "21d514b25466931c7d8f6a5aac84aa051ba30b396a0aac973d58e091473f5985"
         ++ "4d5c2af327cd64a62cf35abd2ba6fab4").
Proof. vm_compute. reflexivity. Qed.

Example gcm_test_case_4 :
  cipher.seal (newGCM (hex "feffe9928665731c6d6a8f9467308308"))
    (hex "cafebabefacedbaddecaf888")
    (hex ("d9313225f88406e5a55909c5aff5269a86a7a9531534f7da2e4c303d8a318a72"
          ++ "1c3c0c95956809532fcf0e2449a6b525b16aedf5aa0de657ba637b39"))
    (hex "feedfacedeadbeeffeedfacedeadbeefabaddad2")
  = hex ("42831ec2217774244b7221b784d0d49ce3aa212f2c02a4e035c17e2329aca12e"
         ++ "21d514b25466931c7d8f6a5aac84aa051ba30b396a0aac973d58e091"
         ++ "5bc94fbc3221a5db94fae95ae7121a47").
Proof. vm_compute. reflexivity. Qed.

Example gcm_test_case_14 :
  cipher.seal (newGCM (repeat x00 32)) (repeat x00 12) (repeat x00 16) []
  = hex "cea7403d4d606b6e074ec5d3baf39d18d0d1c8a799996bf0265b98b5d48ab919".
Proof. vm_compute. reflexivity. Qed.

(** SP 800-38A, F.3.13 (CFB128-AES128), first two segments. *)
Example cfb128_aes128_encrypt :
  fst (cipher.xorKeyStream 32
         (cipher.newCFB (aes.mkBlock (aes.expandKey (hex "2b7e151628aed2a6abf7158809cf4f3c")))
                        (hex "000102030405060708090a0b0c0d0e0f") false)
         (hex "6bc1bee22e409f96e93d7e117393172aae2d8a571e03ac9c9eb76fac45af8e51"))
  = hex "3b3fd92eb72dad20333449f8e83cfb4ac8a64537a0b3a93fcde3cdad9f1ce58b".
Proof. vm_compute. reflexivity. Qed.

(* ===================================================================== *)
(** * encoding/base64 *)
(* ===================================================================== *)

Module base64.

(** [encodeStd], the alphabet of [StdEncoding]. *)
Definition encodeStd : list byte :=
  list_byte_of_string
    "ABCDEFGHIJKLMNOPQRSTUVWXYZabcdefghijklmnopqrstuvwxyz0123456789+/".

(** [StdPadding] *)
Definition padChar : byte := Init.Byte.x3d.

Definition xff : byte := Init.Byte.xff.

(** [enc.encode[v]] *)
Definition encodeChar (v : Z) : byte := nth (Z.to_nat v) encodeStd x00.

Fixpoint index_of (c : byte) (l : list byte) (i : nat) : option nat :=
  match l with
  | [] => None
  | x :: l' => if Strings.Byte.eqb x c then Some i else index_of c l' (S i)
  end.

(** [enc.decodeMap[c]]: the position of [c] in the alphabet, 0xff if none. *)
Definition decodeMap (c : byte) : byte :=
  match index_of c encodeStd 0 with
  | Some i => byte.of_Z (Z.of_nat i)
  | None => xff
  end.

(** [Encoding.Encode] for the padded standard encoding. *)
Fixpoint encode (src : list byte) : list byte :=
  match src with
  | [] => []
  | [a] =>
      let val := Z.shiftl (byte.unsigned a) 16 in
      [ encodeChar (Z.land (Z.shiftr val 18) 63);
        encodeChar (Z.land (Z.shiftr val 12) 63);
        padChar; padChar ]
  | [a; b] =>
      let val := Z.lor (Z.shiftl (byte.unsigned a) 16)
                       (Z.shiftl (byte.unsigned b) 8) in
      [ encodeChar (Z.land (Z.shiftr val 18) 63);
        encodeChar (Z.land (Z.shiftr val 12) 63);
        encodeChar (Z.land (Z.shiftr val 6) 63);
        padChar ]
  | a :: b :: c :: rest =>
      let val := Z.lor (Z.lor (Z.shiftl (byte.unsigned a) 16)
                              (Z.shiftl (byte.unsigned b) 8))
                       (byte.unsigned c) in
      encodeChar (Z.land (Z.shiftr val 18) 63)
        :: encodeChar (Z.land (Z.shiftr val 12) 63)
        :: encodeChar (Z.land (Z.shiftr val 6) 63)
        :: encodeChar (Z.land val 63)
        :: encode rest
  end.

(** [Encoding.EncodeToString] *)
Definition EncodeToString (src : list byte) : list byte := encode src.

(** [Encoding.DecodedLen] with padding. *)
Definition DecodedLen (n : nat) : nat := n / 4 * 3.

Definition is_newline (c : byte) : bool :=
  Strings.Byte.eqb c Init.Byte.x0a || Strings.Byte.eqb c Init.Byte.x0d.

Fixpoint skip_newlines (src : list byte) (si : nat) : list byte * nat :=
  match src with
  | c :: rest => if is_newline c then skip_newlines rest (S si) else (src, si)
  | [] => ([], si)
  end.

(** The end of [decodeQuantum]: four 6-bit values into [dlen - 1] bytes. *)
Definition quantum (dbuf : list byte) (dlen : nat) : list byte :=
  let d i := byte.unsigned (nth i dbuf x00) in
  let val := Z.lor (Z.lor (Z.lor (Z.shiftl (d 0) 18) (Z.shiftl (d 1) 12))
                          (Z.shiftl (d 2) 6)) (d 3) in
  firstn (dlen - 1)
    [ byte.of_Z (Z.shiftr val 16); byte.of_Z (Z.shiftr val 8); byte.of_Z val ].

(** After the padding of a final quantum: only newlines may follow. *)
Definition finish (rest : list byte) (si j : nat) (dbuf : list byte)
  : list byte * option nat :=
  let (r, si') := skip_newlines rest si in
  (quantum dbuf j, match r with [] => None | _ :: _ => Some si' end).

(** [Encoding.Decode]: the decoded bytes and, on corrupt input, the offset
    reported by [CorruptInputError].  [si] is the read position, [j] the
    number of values collected in [dbuf] for the current quantum. *)
Fixpoint decode (src : list byte) (si j : nat) (dbuf : list byte)
  : list byte * option nat :=
  match src with
  | [] =>
      match j with
      | O => ([], None)
      | _ => ([], Some (si - j))
      end
  | c :: rest =>
      let out := decodeMap c in
      if negb (Strings.Byte.eqb out xff) then
        if j =? 3 then
          let (tl, e) := decode rest (S si) 0 [] in
          (quantum (dbuf ++ [out]) 4 ++ tl, e)
        else decode rest (S si) (S j) (dbuf ++ [out])
      else if is_newline c then decode rest (S si) j dbuf
      else if negb (Strings.Byte.eqb c padChar) then ([], Some si)
      else
        match j with
        | 0 | 1 => ([], Some si)
        | 2 =>
            let (r2, si2) := skip_newlines rest (S si) in
            match r2 with
            | [] => ([], Some si2)
            | c2 :: r3 =>
                if negb (Strings.Byte.eqb c2 padChar) then ([], Some (si2 - 1))
                else finish r3 (S si2) 2 dbuf
            end
        | _ => finish rest (S si) j dbuf
        end
  end.

(** The pure part of [Encoding.DecodeString]. *)
Definition decodeString (s : list byte) : list byte * option nat :=
  decode s 0 0 [].

End base64.

Definition ascii (s : string) : list byte := list_byte_of_string s.

(** RFC 4648, section 10. *)
Example base64_rfc4648_encode :
  map base64.EncodeToString
      [ascii ""; ascii "f"; ascii "fo"; ascii "foo"; ascii "foob"; ascii "fooba";
       ascii "foobar"]
  = [ascii ""; ascii "Zg=="; ascii "Zm8="; ascii "Zm9v"; ascii "Zm9vYg==";
     ascii "Zm9vYmE="; ascii "Zm9vYmFy"].
Proof. vm_compute. reflexivity. Qed.

Example base64_rfc4648_decode :
  map base64.decodeString
      [ascii ""; ascii "Zg=="; ascii "Zm8="; ascii "Zm9v"; ascii "Zm9vYg==";
       ascii "Zm9vYmE="; ascii "Zm9vYmFy"]
  = map (fun s => (ascii s, None)) [""; "f"; "fo"; "foo"; "foob"; "fooba"; "foobar"].
Proof. vm_compute. reflexivity. Qed.

(** Inputs and offsets of the library's own corrupt-input tests. *)
Example base64_decode_corrupt :
  map (fun s => snd (base64.decodeString (ascii s)))
      ["!!!!"; "===="; "x==="; "=AAA"; "A=AA"; "AA=A"; "AA==A"; "AAA=AAAA";
       "AAAAA"; "AAAAAA"; "A="; "A=="; "AA="; "AAAAAA="; "YWJjZA====="]
  = [Some 0; Some 0; Some 1; Some 0; Some 1; Some 2; Some 4; Some 4;
     Some 4; Some 4; Some 1; Some 1; Some 3; Some 7; Some 8].
Proof. vm_compute. reflexivity. Qed.

Example base64_decode_newlines :
  map (fun l => base64.decodeString l)
      [[Init.Byte.x0a]; ascii "AAA=" ++ [Init.Byte.x0a];
       ascii "Zm9v" ++ [Init.Byte.x0d; Init.Byte.x0a] ++ ascii "YmFy"]
  = [([], None); ([x00; x00], None); (ascii "foobar", None)].
Proof. vm_compute. reflexivity. Qed.

(* ===================================================================== *)
(** * The Go run time: slices, strings, errors, panics *)
(* ===================================================================== *)

(** A slice is a window on a backing array: the array, the offset of the
    window, its length and its capacity. *)
Record slice : Type := mkSlice {
  s_arr : nat;
  s_off : nat;
  s_len : nat;
  s_cap : nat
}.

(** The nil slice: no elements, no capacity. *)
Definition nil_slice : slice := mkSlice 0 0 0 0.

(** A string is an immutable sequence of bytes. *)
Definition gostring : Type := list byte.

(** A [*string]: nil, or the address of a string variable. *)
Definition ptr : Type := option nat.

Record state : Type := mkState {
  arrays : list (list byte);     (* the backing arrays, by address *)
  strings : list gostring;       (* the addressable string variables *)
  entropy : list byte            (* what rand.Reader can still deliver *)
}.

Inductive error : Type :=
| aes_KeySizeError (k : nat)               (* crypto/aes: invalid key size k *)
| cipher_errBlockSize                      (* cipher: NewGCM requires 128-bit block cipher *)
| cipher_errOpen                           (* cipher: message authentication failed *)
| base64_CorruptInputError (offset : nat)  (* illegal base64 data at input byte offset *)
| io_EOF
| io_ErrUnexpectedEOF
| Errorf_decode (e : error)     (* "failed to base64 decode value %s" *)
| Errorf_iv (e : error)         (* "failed to create initialization vector %s" *)
| Errorf_short (want got : nat) (* "encrypted value should be at least %d bytes, but is only %d bytes" *).

Inductive panic : Type :=
| BoundsCap (high cap : nat)   (* slice bounds out of range [:high] with capacity cap *)
| BoundsLen (low high : nat)   (* slice bounds out of range [low:high] *)
| BadPointer                   (* invalid memory address or nil pointer dereference *)
| PanicMsg (msg : string).

Inductive outcome (A : Type) : Type :=
| Done (a : A) (s : state)
| Panicked (p : panic) (s : state).

Arguments Done {A} a s.
Arguments Panicked {A} p s.

(** Computations: state passing, with panics. *)
Definition M (A : Type) : Type := state -> outcome A.

Definition ret {A : Type} (a : A) : M A := fun s => Done a s.

Definition bind {A B : Type} (m : M A) (f : A -> M B) : M B :=
  fun s =>
    match m s with
    | Done a s' => f a s'
    | Panicked p s' => Panicked p s'
    end.

Definition throw {A : Type} (p : panic) : M A := fun s => Panicked p s.

Declare Scope go_scope.
Delimit Scope go_scope with go.

Notation "x <- m ;; k" := (bind m (fun x => k))
  (at level 61, m at next level, right associativity) : go_scope.
Notation "m ;;; k" := (bind m (fun _ => k))
  (at level 61, right associativity) : go_scope.
Notation "' ( x , y ) <- m ;; k" := (bind m (fun xy => let '(x, y) := xy in k))
  (at level 61, x name, y name, m at next level, right associativity) : go_scope.

Local Open Scope go_scope.

(** ** Backing arrays *)

Definition array (s : state) (a : nat) : list byte := nth a (arrays s) [].

Definition set_nth {A : Type} (l : list A) (i : nat) (v : A) : list A :=
  if i <? length l then firstn i l ++ v :: skipn (S i) l else l.

Definition set_array (s : state) (a : nat) (v : list byte) : state :=
  mkState (set_nth (arrays s) a v) (strings s) (entropy s).

(** The bytes a slice shows. *)
Definition bytes (s : state) (sl : slice) : list byte :=
  firstn (s_len sl) (skipn (s_off sl) (array s (s_arr sl))).

Definition read (sl : slice) : M (list byte) := fun s => Done (bytes s sl) s.

(** The store after [copy(sl, data)]. *)
Definition written (s : state) (sl : slice) (data : list byte) : state :=
  set_array s (s_arr sl)
    (copy_at (array s (s_arr sl)) (s_off sl) (firstn (s_len sl) data)).

(** The store with one more backing array, holding [data]. *)
Definition allocated (s : state) (data : list byte) : state :=
  mkState (arrays s ++ [data]) (strings s) (entropy s).

(** The store after [n] bytes were drawn from the random source. *)
Definition drawn (s : state) (n : nat) : state :=
  mkState (arrays s) (strings s) (skipn n (entropy s)).

(** [copy(sl, data)] *)
Definition write (sl : slice) (data : list byte) : M unit :=
  fun s => Done tt (written s sl data).

(** A new backing array holding [data], and the slice of all of it. *)
Definition alloc (data : list byte) : M slice :=
  fun s =>
    Done (mkSlice (length (arrays s)) 0 (length data) (length data))
         (allocated s data).

(** [make([]byte, n)] *)
Definition make (n : nat) : M slice := alloc (repeat x00 n).

(** [sl[:high]] *)
Definition slice_to (sl : slice) (high : nat) : M slice :=
  if s_cap sl <? high then throw (BoundsCap high (s_cap sl))
  else ret (mkSlice (s_arr sl) (s_off sl) high (s_cap sl)).

(** [sl[low:]] *)
Definition slice_from (sl : slice) (low : nat) : M slice :=
  if s_len sl <? low then throw (BoundsLen low (s_len sl))
  else ret (mkSlice (s_arr sl) (s_off sl + low) (s_len sl - low) (s_cap sl - low)).

(** [[]byte(str)] and [string(sl)]: both copy. *)
Definition bytes_of_string (str : gostring) : M slice := alloc str.
Definition string_of_bytes (sl : slice) : M gostring := read sl.

(** [*p] and [*p = v] *)
Definition load (p : nat) : M gostring :=
  fun s =>
    match nth_error (strings s) p with
    | Some v => Done v s
    | None => Panicked BadPointer s
    end.

Definition store (p : nat) (v : gostring) : M unit :=
  fun s =>
    match nth_error (strings s) p with
    | Some _ => Done tt (mkState (arrays s) (set_nth (strings s) p v) (entropy s))
    | None => Panicked BadPointer s
    end.

(** [subtle.InexactOverlap]: the two windows share memory but do not start
    at the same address. *)
Definition InexactOverlap (x y : slice) : bool :=
  if (s_len x =? 0) || (s_len y =? 0) then false
  else if (s_arr x =? s_arr y) && (s_off x =? s_off y) then false
  else (s_arr x =? s_arr y)
       && (s_off x <? s_off y + s_len y) && (s_off y <? s_off x + s_len x).

(** [sliceForAppend(in, n)]: extend [in] by [n] bytes, in place when the
    capacity allows it; the result is the whole and the new tail. *)
Definition sliceForAppend (inp : slice) (n : nat) : M (slice * slice) :=
  let total := s_len inp + n in
  head <- (if total <=? s_cap inp then slice_to inp total
           else (old <- read inp ;;
                 h <- make total ;;
                 write h old ;;;
                 ret h)) ;;
  tail <- slice_from head (s_len inp) ;;
  ret (head, tail).

(* ===================================================================== *)
(** * The library calls, on slices *)
(* ===================================================================== *)

(** A call that returns a pointer or an interface value together with an
    error returns a non-nil value exactly when the error is nil: such
    results are sums.  Calls that return a slice and an error are pairs,
    the slice being nil when the error is not. *)

(** [io.ReadFull(rand.Reader, buf)]: fills [buf], or reports that the
    source ran dry (after delivering what it had). *)
Definition ReadFull_rand (buf : slice) : M (option error) :=
  fun s =>
    let avail := entropy s in
    let n := s_len buf in
    let s' := drawn (written s buf (firstn n avail)) n in
    if n <=? length avail then Done None s'
    else Done (Some (match avail with
                     | [] => io_EOF
                     | _ :: _ => io_ErrUnexpectedEOF
                     end)) s'.

(** [aes.NewCipher(key)] *)
Definition aes_NewCipher (key : slice) : M (aes.Block + error) :=
  k <- read key ;;
  match s_len key with
  | 16 | 24 | 32 => ret (inl (aes.mkBlock (aes.expandKey k)))
  | n => ret (inr (aes_KeySizeError n))
  end.

(** [cipher.NewCFBEncrypter(block, iv)] and [cipher.NewCFBDecrypter(block, iv)] *)
Definition newCFB (block : aes.Block) (iv : slice) (decrypt : bool) : M cipher.cfb :=
  if negb (s_len iv =? aes.BlockSize)
  then throw (PanicMsg "cipher.newCFB: IV length must equal block size")
  else (v <- read iv ;; ret (cipher.newCFB block v decrypt)).

Definition NewCFBEncrypter (block : aes.Block) (iv : slice) : M cipher.cfb :=
  newCFB block iv false.
Definition NewCFBDecrypter (block : aes.Block) (iv : slice) : M cipher.cfb :=
  newCFB block iv true.

(** [stream.XORKeyStream(dst, src)] *)
Definition XORKeyStream (x : cipher.cfb) (dst src : slice) : M cipher.cfb :=
  if s_len dst <? s_len src
  then throw (PanicMsg "crypto/cipher: output smaller than input")
  else if InexactOverlap (mkSlice (s_arr dst) (s_off dst) (s_len src) (s_cap dst)) src
  then throw (PanicMsg "crypto/cipher: invalid buffer overlap")
  else (v <- read src ;;
        let r := cipher.xorKeyStream (length v) x v in
        write dst (fst r) ;;;
        ret (snd r)).

(** [cipher.NewGCM(block)] *)
Definition NewGCM (block : aes.Block) : cipher.gcm + error :=
  if negb (aes.BlockSize =? cipher.gcmBlockSize) then inr cipher_errBlockSize
  else inl (cipher.mkGCM block cipher.gcmStandardNonceSize cipher.gcmTagSize
              (cipher.be_to_Z (aes.Encrypt block (repeat x00 cipher.gcmBlockSize)))).

(** [gcm.Seal(dst, nonce, plaintext, data)] *)
Definition Seal (g : cipher.gcm) (dst nonce plaintext data : slice) : M slice :=
  if negb (s_len nonce =? cipher.gcm_nonceSize g)
  then throw (PanicMsg "crypto/cipher: incorrect nonce length given to GCM")
  else
    n <- read nonce ;;
    p <- read plaintext ;;
    d <- read data ;;
    '(head, out) <- sliceForAppend dst (s_len plaintext + cipher.gcm_tagSize g) ;;
    if InexactOverlap out plaintext
    then throw (PanicMsg "crypto/cipher: invalid buffer overlap")
    else (write out (cipher.seal g n p d) ;;; ret head).

(** [gcm.Open(dst, nonce, ciphertext, data)] *)
Definition Open (g : cipher.gcm) (dst nonce ciphertext data : slice)
  : M (slice * option error) :=
  if negb (s_len nonce =? cipher.gcm_nonceSize g)
  then throw (PanicMsg "crypto/cipher: incorrect nonce length given to GCM")
  else if s_len ciphertext <? cipher.gcm_tagSize g
  then ret (nil_slice, Some cipher_errOpen)
  else
    n <- read nonce ;;
    c <- read ciphertext ;;
    d <- read data ;;
    let body := firstn (length c - cipher.gcm_tagSize g) c in
    let tag := skipn (length c - cipher.gcm_tagSize g) c in
    '(head, out) <- sliceForAppend dst (length body) ;;
    if InexactOverlap out (mkSlice (s_arr ciphertext) (s_off ciphertext)
                             (length body) (s_cap ciphertext))
    then throw (PanicMsg "crypto/cipher: invalid buffer overlap")
    else if negb (bytes_eqb (cipher.expectedTag g n body d) tag)
    then (write out (repeat x00 (length body)) ;;; ret (nil_slice, Some cipher_errOpen))
    else (write out (cipher.unseal g n body) ;;; ret (head, None)).

(** [base64.StdEncoding.EncodeToString(src)] *)
Definition EncodeToString (src : slice) : M gostring :=
  v <- read src ;; ret (base64.EncodeToString v).

(** [base64.StdEncoding.DecodeString(str)]: decodes into a new buffer of
    [DecodedLen] bytes and returns the decoded part of it. *)
Definition DecodeString (str : gostring) : M (slice * option error) :=
  let d := fst (base64.decodeString str) in
  let e := snd (base64.decodeString str) in
  dbuf <- alloc (d ++ repeat x00 (base64.DecodedLen (length str) - length d)) ;;
  out <- slice_to dbuf (length d) ;;
  ret (out, option_map base64_CorruptInputError e).

(* ===================================================================== *)
(** * package encryption (pkg/encryption/cipher.go) *)
(* ===================================================================== *)

(** [type Cipher interface]: a value of the interface is its method table. *)
Record Cipher : Type := mkCipher {
  Encrypt : slice -> M (slice * option error);
  Decrypt : slice -> M (slice * option error);
  EncryptInto : ptr -> M (option error);
  DecryptInto : ptr -> M (option error)
}.

(** A method call on an interface value, which may be nil. *)
Definition call {A : Type} (c : option Cipher) (method : Cipher -> M A) : M A :=
  match c with
  | Some v => method v
  | None => throw BadPointer
  end.

(** [type codecFunc func([]byte) ([]byte, error)] *)
Definition codecFunc : Type := slice -> M (slice * option error).

Definition into (f : codecFunc) (s : ptr) : M (option error) :=
  match s with
  | None => ret None
  | Some p =>
      v <- load p ;;
      match v with
      | [] => ret None
      | _ :: _ =>
          b <- bytes_of_string v ;;
          '(d, err) <- f b ;;
          match err with
          | Some e => ret (Some e)
          | None =>
              str <- string_of_bytes d ;;
              store p str ;;;
              ret None
          end
      end
  end.

(** ** DefaultCipher *)

Record DefaultCipher : Type := mkDefaultCipher { }.

Definition DefaultCipher_Encrypt (c : DefaultCipher) (value : slice)
  : M (slice * option error) := ret (value, None).

Definition DefaultCipher_Decrypt (c : DefaultCipher) (ciphertext : slice)
  : M (slice * option error) := ret (ciphertext, None).

Definition DefaultCipher_EncryptInto (c : DefaultCipher) (s : ptr) : M (option error) :=
  into (DefaultCipher_Encrypt c) s.

Definition DefaultCipher_DecryptInto (c : DefaultCipher) (s : ptr) : M (option error) :=
  into (DefaultCipher_Decrypt c) s.

(** ** Base64Cipher *)

Record Base64Cipher : Type := mkBase64Cipher {
  Base64_DefaultCipher : DefaultCipher;      (* embedded *)
  Base64_Cipher : option Cipher
}.

Definition Base64Cipher_Encrypt (c : Base64Cipher) (value : slice)
  : M (slice * option error) :=
  '(encrypted, err) <- call (Base64_Cipher c) (fun i => Encrypt i value) ;;
  match err with
  | Some e => ret (nil_slice, Some e)
  | None =>
      str <- EncodeToString encrypted ;;
      out <- bytes_of_string str ;;
      ret (out, None)
  end.

Definition Base64Cipher_Decrypt (c : Base64Cipher) (ciphertext : slice)
  : M (slice * option error) :=
  str <- string_of_bytes ciphertext ;;
  '(encrypted, err) <- DecodeString str ;;
  match err with
  | Some e => ret (nil_slice, Some (Errorf_decode e))
  | None => call (Base64_Cipher c) (fun i => Decrypt i encrypted)
  end.

(** ** CFBCipher *)

Record CFBCipher : Type := mkCFBCipher {
  CFB_DefaultCipher : DefaultCipher;         (* embedded *)
  CFB_Block : aes.Block                      (* embedded cipher.Block *)
}.

Definition CFBCipher_Encrypt (c : CFBCipher) (value : slice)
  : M (slice * option error) :=
  ciphertext <- make (aes.BlockSize + s_len value) ;;
  iv <- slice_to ciphertext aes.BlockSize ;;
  err <- ReadFull_rand iv ;;
  match err with
  | Some e => ret (nil_slice, Some (Errorf_iv e))
  | None =>
      stream <- NewCFBEncrypter (CFB_Block c) iv ;;
      dst <- slice_from ciphertext aes.BlockSize ;;
      XORKeyStream stream dst value ;;;
      ret (ciphertext, None)
  end.

Definition CFBCipher_Decrypt (c : CFBCipher) (ciphertext : slice)
  : M (slice * option error) :=
  if s_len ciphertext <? aes.BlockSize
  then ret (nil_slice, Some (Errorf_short aes.BlockSize (s_len ciphertext)))
  else
    iv <- slice_to ciphertext aes.BlockSize ;;
    ciphertext <- slice_from ciphertext aes.BlockSize ;;
    stream <- NewCFBDecrypter (CFB_Block c) iv ;;
    XORKeyStream stream ciphertext ciphertext ;;;
    ret (ciphertext, None).

(** ** GCMCipher *)

Record GCMCipher : Type := mkGCMCipher {
  GCM_DefaultCipher : DefaultCipher;         (* embedded *)
  GCM_Block : aes.Block                      (* embedded cipher.Block *)
}.

Definition GCMCipher_Encrypt (c : GCMCipher) (value : slice)
  : M (slice * option error) :=
  match NewGCM (GCM_Block c) with
  | inr e => ret (nil_slice, Some e)
  | inl gcm =>
      nonce <- make (cipher.gcm_nonceSize gcm) ;;
      err <- ReadFull_rand nonce ;;
      match err with
      | Some e => ret (nil_slice, Some e)
      | None =>
          ciphertext <- Seal gcm nonce nonce value nil_slice ;;
          ret (ciphertext, None)
      end
  end.

Definition GCMCipher_Decrypt (c : GCMCipher) (ciphertext : slice)
  : M (slice * option error) :=
  match NewGCM (GCM_Block c) with
  | inr e => ret (nil_slice, Some e)
  | inl gcm =>
      let nonceSize := cipher.gcm_nonceSize gcm in
      nonce <- slice_to ciphertext nonceSize ;;
      ciphertext <- slice_from ciphertext nonceSize ;;
      '(plaintext, err) <- Open gcm nil_slice nonce ciphertext nil_slice ;;
      match err with
      | Some e => ret (nil_slice, Some e)
      | None => ret (plaintext, None)
      end
  end.

(** ** The method sets

    A method of an embedded field is promoted to the embedding struct: the
    call [c.EncryptInto(s)] on a [*CFBCipher] is [c.DefaultCipher.EncryptInto(s)],
    with the embedded [DefaultCipher] as its receiver. *)

Definition DefaultCipher_as_Cipher (c : DefaultCipher) : Cipher :=
  mkCipher (DefaultCipher_Encrypt c) (DefaultCipher_Decrypt c)
           (DefaultCipher_EncryptInto c) (DefaultCipher_DecryptInto c).

Definition Base64Cipher_as_Cipher (c : Base64Cipher) : Cipher :=
  mkCipher (Base64Cipher_Encrypt c) (Base64Cipher_Decrypt c)
           (DefaultCipher_EncryptInto (Base64_DefaultCipher c))
           (DefaultCipher_DecryptInto (Base64_DefaultCipher c)).

Definition CFBCipher_as_Cipher (c : CFBCipher) : Cipher :=
  mkCipher (CFBCipher_Encrypt c) (CFBCipher_Decrypt c)
           (DefaultCipher_EncryptInto (CFB_DefaultCipher c))
           (DefaultCipher_DecryptInto (CFB_DefaultCipher c)).

Definition GCMCipher_as_Cipher (c : GCMCipher) : Cipher :=
  mkCipher (GCMCipher_Encrypt c) (GCMCipher_Decrypt c)
           (DefaultCipher_EncryptInto (GCM_DefaultCipher c))
           (DefaultCipher_DecryptInto (GCM_DefaultCipher c)).

(** ** The constructors *)

Definition NewBase64Cipher
  (initCipher : slice -> M (option Cipher * option error)) (secret : slice)
  : M (option Cipher * option error) :=
  '(c, err) <- initCipher secret ;;
  match err with
  | Some e => ret (None, Some e)
  | None => ret (Some (Base64Cipher_as_Cipher (mkBase64Cipher mkDefaultCipher c)), None)
  end.

Definition NewCFBCipher (secret : slice) : M (option Cipher * option error) :=
  r <- aes_NewCipher secret ;;
  match r with
  | inr e => ret (None, Some e)
  | inl c => ret (Some (CFBCipher_as_Cipher (mkCFBCipher mkDefaultCipher c)), None)
  end.

Definition NewGCMCipher (secret : slice) : M (option Cipher * option error) :=
  r <- aes_NewCipher secret ;;
  match r with
  | inr e => ret (None, Some e)
  | inl c => ret (Some (GCMCipher_as_Cipher (mkGCMCipher mkDefaultCipher c)), None)
  end.

(** ** The cipher instances the package can build *)

Inductive Instance : Type :=
| Null
| Stream (block : aes.Block)
| Authenticated (block : aes.Block)
| Encoded (inner : Instance).

Fixpoint instance (i : Instance) : Cipher :=
  match i with
  | Null => DefaultCipher_as_Cipher mkDefaultCipher
  | Stream b => CFBCipher_as_Cipher (mkCFBCipher mkDefaultCipher b)
  | Authenticated b => GCMCipher_as_Cipher (mkGCMCipher mkDefaultCipher b)
  | Encoded inner =>
      Base64Cipher_as_Cipher (mkBase64Cipher mkDefaultCipher (Some (instance inner)))
  end.

(** The error classes of the package's contract. *)
Inductive ErrorKind : Type :=
| KeySetupError
| EntropyError
| MalformedCiphertextError
| AuthenticationError.

Definition kind (e : error) : ErrorKind :=
  match e with
  | aes_KeySizeError _ => KeySetupError
  | cipher_errBlockSize => KeySetupError
  | cipher_errOpen => AuthenticationError
  | base64_CorruptInputError _ => MalformedCiphertextError
  | io_EOF => EntropyError
  | io_ErrUnexpectedEOF => EntropyError
  | Errorf_decode _ => MalformedCiphertextError
  | Errorf_iv _ => EntropyError
  | Errorf_short _ _ => MalformedCiphertextError
  end.
(* ===================================================================== *)
(** * Properties of the library model *)
(* ===================================================================== *)

Arguments aes.Encrypt : simpl never.

Lemma byte_xor_involutive (x y : byte) : byte.xor (byte.xor x y) y = x.
Proof.
  apply byte.unsigned_inj. unfold byte.xor. rewrite !byte.unsigned_of_Z.
  rewrite <- (byte.wrap_unsigned x) at 2.
  rewrite <- (byte.wrap_unsigned y) at 2.
  unfold byte.wrap. Z.bitblast.
Qed.

Lemma length_xorBytes (a b : list byte) :
  length (xorBytes a b) = Nat.min (length a) (length b).
Proof.
  revert b; induction a as [|x a IH]; intros [|y b]; simpl; auto.
Qed.

Lemma xorBytes_twice (p k : list byte) :
  xorBytes (xorBytes p k) k = firstn (length k) p.
Proof.
  revert k; induction p as [|x p IH]; intros [|y k]; simpl; auto.
  rewrite byte_xor_involutive, IH. reflexivity.
Qed.

Lemma xorBytes_app_short (a t k : list byte) :
  length k <= length a -> xorBytes (a ++ t) k = xorBytes a k.
Proof.
  revert k; induction a as [|x a IH]; intros [|y k] H; simpl in *; try lia; auto.
  - destruct t; reflexivity.
  - rewrite IH by lia. reflexivity.
Qed.

Lemma length_aes_Encrypt (b : aes.Block) (src : list byte) :
  length (aes.Encrypt b src) = 16.
Proof.
  unfold aes.Encrypt, aes.add_round_key. rewrite length_map, length_seq. reflexivity.
Qed.

Lemma length_copy_at (dst : list byte) (off : nat) (src : list byte) :
  length (copy_at dst off src) = length dst.
Proof.
  unfold copy_at. rewrite !length_app, !length_firstn, length_skipn. lia.
Qed.

(** ** CFB: decrypting what was encrypted *)

Definition cfb_ok (x : cipher.cfb) : Prop :=
  length (cipher.cfb_out x) = 16 /\ length (cipher.cfb_next x) = 16
  /\ cipher.cfb_outUsed x <= 16.

(** An encrypter and a decrypter at the same point of the same stream. *)
Definition cfb_agree (xe xd : cipher.cfb) : Prop :=
  cipher.cfb_b xd = cipher.cfb_b xe /\ cipher.cfb_next xd = cipher.cfb_next xe
  /\ cipher.cfb_out xd = cipher.cfb_out xe
  /\ cipher.cfb_outUsed xd = cipher.cfb_outUsed xe
  /\ cipher.cfb_decrypt xe = false /\ cipher.cfb_decrypt xd = true.

Ltac cfb_fields :=
  cbn [fst snd cipher.cfb_b cipher.cfb_next cipher.cfb_out cipher.cfb_outUsed
       cipher.cfb_decrypt] in *.

Lemma refill_ok (x : cipher.cfb) :
  cfb_ok x -> cfb_ok (cipher.refill x) /\ cipher.cfb_outUsed (cipher.refill x) < 16.
Proof.
  intros (Ho & Hn & Hu). unfold cipher.refill.
  destruct (Nat.eqb_spec (cipher.cfb_outUsed x) (length (cipher.cfb_out x))) as [E|E];
    unfold cfb_ok; simpl.
  - rewrite ?length_aes_Encrypt. lia.
  - lia.
Qed.

Lemma refill_agree (xe xd : cipher.cfb) :
  cfb_agree xe xd -> cfb_agree (cipher.refill xe) (cipher.refill xd).
Proof.
  intros (Hb & Hn & Ho & Hu & He & Hd). unfold cipher.refill.
  rewrite Hu, Ho.
  destruct (cipher.cfb_outUsed xe =? length (cipher.cfb_out xe));
    unfold cfb_agree; simpl; repeat split; congruence.
Qed.

Lemma turn_ok (x : cipher.cfb) (src : list byte) :
  cfb_ok x -> src <> [] ->
  cfb_ok (snd (cipher.turn x src))
  /\ 1 <= length (fst (cipher.turn x src)) <= length src.
Proof.
  intros Hx Hs. destruct (refill_ok x Hx) as ((Ho & Hn & Hu) & Hlt).
  unfold cipher.turn, cfb_ok; simpl.
  rewrite length_xorBytes, length_skipn, Ho.
  rewrite length_copy_at.
  destruct src as [|c src]; [congruence|]. simpl length. lia.
Qed.

Lemma length_xorKeyStream (fuel : nat) :
  forall (x : cipher.cfb) (src : list byte),
    cfb_ok x -> length src <= fuel ->
    length (fst (cipher.xorKeyStream fuel x src)) = length src.
Proof.
  induction fuel as [|fuel IH]; intros x src Hx Hl.
  - destruct src; simpl in *; [reflexivity | lia].
  - destruct src as [|c src]; [reflexivity|].
    cbn [cipher.xorKeyStream].
    destruct (turn_ok x (c :: src) Hx ltac:(discriminate)) as (Hx2 & Hd).
    destruct (cipher.turn x (c :: src)) as [d x2] eqn:Et. simpl fst in *; simpl snd in *.
    specialize (IH x2 (skipn (length d) (c :: src)) Hx2).
    destruct (cipher.xorKeyStream fuel x2 (skipn (length d) (c :: src))) as [ds x3].
    simpl fst in *. rewrite length_app, IH; rewrite length_skipn; simpl length in *; lia.
Qed.

Lemma turn_roundtrip (xe xd : cipher.cfb) (p tail : list byte) :
  cfb_ok xe -> cfb_agree xe xd -> p <> [] ->
  (skipn (length (fst (cipher.turn xe p))) p = [] -> tail = []) ->
  fst (cipher.turn xd (fst (cipher.turn xe p) ++ tail))
    = firstn (length (fst (cipher.turn xe p))) p
  /\ cfb_agree (snd (cipher.turn xe p))
               (snd (cipher.turn xd (fst (cipher.turn xe p) ++ tail))).
Proof.
  intros Hx Ha Hp Ht.
  destruct (refill_ok xe Hx) as ((Ho & Hn & Hu) & Hlt).
  destruct (refill_agree xe xd Ha) as (Hb' & Hn' & Ho' & Hu' & He' & Hd').
  unfold cipher.turn in *. cfb_fields.
  rewrite Hb', Hn', Ho', Hu', He', Hd'.
  set (u := cipher.cfb_outUsed (cipher.refill xe)) in *.
  set (k := skipn u (cipher.cfb_out (cipher.refill xe))) in *.
  assert (Hk : length k = 16 - u) by (unfold k; rewrite length_skipn; lia).
  assert (Hd : length (xorBytes p k) = Nat.min (length p) (16 - u))
    by (rewrite length_xorBytes; lia).
  destruct (Nat.le_gt_cases (length p) (16 - u)) as [Hle|Hgt].
  - (* the input ends within this key stream block *)
    rewrite Ht by (apply skipn_all2; lia).
    rewrite app_nil_r, xorBytes_twice.
    rewrite !firstn_all2 by lia.
    split; [reflexivity|]. unfold cfb_agree; cfb_fields.
    rewrite length_xorBytes, Hk.
    replace (Nat.min (length p) (16 - u)) with (length p) by lia.
    repeat split; auto.
  - (* a whole key stream block is used *)
    rewrite xorBytes_app_short by lia.
    rewrite xorBytes_twice, Hd, Hk.
    replace (Nat.min (length p) (16 - u)) with (16 - u) by lia.
    split; [reflexivity|]. unfold cfb_agree; cfb_fields.
    rewrite length_firstn.
    repeat split; auto; try lia.
    unfold copy_at. rewrite !length_app, Hd, Hn.
    replace (Nat.min (16 - u) (Nat.min (length p) (16 - u) + length tail))
      with (16 - u) by lia.
    replace (Nat.min (16 - u) (Nat.min (length p) (16 - u))) with (16 - u) by lia.
    rewrite firstn_app, Hd.
    replace (16 - u - Nat.min (length p) (16 - u)) with 0 by lia.
    rewrite firstn_O, app_nil_r. reflexivity.
Qed.

Lemma turn_roundtrip_eq (xe xd xe2 : cipher.cfb) (p d tail : list byte) :
  cfb_ok xe -> cfb_agree xe xd -> p <> [] ->
  cipher.turn xe p = (d, xe2) ->
  (skipn (length d) p = [] -> tail = []) ->
  exists xd2,
    cipher.turn xd (d ++ tail) = (firstn (length d) p, xd2) /\ cfb_agree xe2 xd2.
Proof.
  intros Hx Ha Hp Et Ht.
  pose proof (turn_roundtrip xe xd p tail Hx Ha Hp) as H.
  rewrite Et in H. cbn [fst snd] in H.
  destruct (cipher.turn xd (d ++ tail)) as [d' xd2].
  cbn [fst snd] in H. destruct (H Ht) as [-> Ha2]. eauto.
Qed.

Lemma xorKeyStream_roundtrip (fuel : nat) :
  forall (xe xd : cipher.cfb) (p : list byte),
    cfb_ok xe -> cfb_agree xe xd -> length p <= fuel ->
    fst (cipher.xorKeyStream fuel xd (fst (cipher.xorKeyStream fuel xe p))) = p.
Proof.
  induction fuel as [|fuel IH]; intros xe xd p Hx Ha Hl.
  - destruct p; simpl in *; [reflexivity | lia].
  - destruct p as [|c p]; [reflexivity|].
    cbn [cipher.xorKeyStream].
    destruct (turn_ok xe (c :: p) Hx ltac:(discriminate)) as (Hx2 & Hd).
    destruct (cipher.turn xe (c :: p)) as [d xe2] eqn:Et. cbn [fst snd] in Hx2, Hd.
    pose proof (length_xorKeyStream fuel xe2 (skipn (length d) (c :: p)) Hx2) as Hlen.
    specialize (IH xe2).
    destruct (cipher.xorKeyStream fuel xe2 (skipn (length d) (c :: p))) as [ds xe3] eqn:Ee.
    cbn [fst snd] in *.
    assert (Hds : skipn (length d) (c :: p) = [] -> ds = []).
    { intros E. rewrite E in Hlen. simpl in Hlen.
      destruct ds; [reflexivity|]. simpl in Hlen. lia. }
    destruct (turn_roundtrip_eq xe xd xe2 (c :: p) d ds Hx Ha ltac:(discriminate) Et Hds)
      as (xd2 & Etd & Ha2).
    destruct d as [|d0 d]; [simpl in Hd; lia|].
    cbn [app] in *. rewrite Etd.
    rewrite length_firstn.
    replace (Nat.min (length (d0 :: d)) (length (c :: p))) with (length (d0 :: d)) by lia.
    change (d0 :: d ++ ds) with ((d0 :: d) ++ ds).
    rewrite skipn_app, skipn_all, Nat.sub_diag. cbn [skipn app].
    specialize (IH xd2 (skipn (length (d0 :: d)) (c :: p)) Hx2 Ha2).
    rewrite Ee in IH. cbn [fst] in IH.
    destruct (cipher.xorKeyStream fuel xd2 ds) as [ps xd3]. cbn [fst] in *.
    rewrite IH by (rewrite length_skipn; simpl length in *; lia).
    apply firstn_skipn.
Qed.

(** ** CFB decryption, block by block *)

(** CFB decryption as SP 800-38A states it: every 16-byte block of the
    ciphertext is xored with the encryption of the block before it, the IV
    standing before the first; a short last block takes the first bytes of
    its key stream block. *)
Fixpoint cfb_decrypt (fuel : nat) (b : aes.Block) (prev c : list byte) : list byte :=
  match fuel with
  | O => []
  | S fuel' =>
      match c with
      | [] => []
      | _ :: _ =>
          xorBytes (firstn 16 c) (aes.Encrypt b prev)
            ++ cfb_decrypt fuel' b (firstn 16 c) (skipn 16 c)
      end
  end.

Lemma xorBytes_firstn (c k : list byte) :
  xorBytes (firstn (length k) c) k = xorBytes c k.
Proof.
  revert k; induction c as [|x c IH]; intros [|y k]; simpl; auto.
  rewrite IH. reflexivity.
Qed.

Lemma xorKeyStream_nil (fuel : nat) (x : cipher.cfb) :
  cipher.xorKeyStream fuel x [] = ([], x).
Proof. destruct fuel; reflexivity. Qed.

Lemma cfb_decrypt_nil (fuel : nat) (b : aes.Block) (prev : list byte) :
  cfb_decrypt fuel b prev [] = [].
Proof. destruct fuel; reflexivity. Qed.

(** A decrypter at a block boundary computes [cfb_decrypt]. *)
Lemma xorKeyStream_cfb_decrypt (fuel : nat) :
  forall (x : cipher.cfb) (c : list byte),
    cipher.cfb_decrypt x = true ->
    cipher.cfb_outUsed x = 16 -> length (cipher.cfb_out x) = 16 ->
    length (cipher.cfb_next x) = 16 ->
    fst (cipher.xorKeyStream fuel x c)
    = cfb_decrypt fuel (cipher.cfb_b x) (cipher.cfb_next x) c.
Proof.
  induction fuel as [|fuel IH]; intros x c Hd Hu Ho Hn; [reflexivity|].
  destruct c as [|c0 c]; [reflexivity|].
  cbn [cipher.xorKeyStream cfb_decrypt]. unfold cipher.turn, cipher.refill.
  rewrite Hu, Ho, Nat.eqb_refl. cfb_fields. rewrite Hd, skipn_O. cbn [Nat.add].
  set (k := aes.Encrypt (cipher.cfb_b x) (cipher.cfb_next x)).
  assert (Lk : length k = 16) by apply length_aes_Encrypt.
  set (src := c0 :: c).
  assert (Ld : length (xorBytes src k) = Nat.min (length src) 16)
    by (rewrite length_xorBytes, Lk; reflexivity).
  set (x2 := cipher.mkCFB (cipher.cfb_b x) (copy_at (cipher.cfb_next x) 0 src) k
               (length (xorBytes src k)) true).
  assert (Ex : xorBytes (firstn 16 src) k = xorBytes src k)
    by (rewrite <- Lk; apply xorBytes_firstn).
  rewrite Ex.
  destruct (Nat.le_gt_cases 16 (length src)) as [Hge|Hlt].
  - specialize (IH x2 (skipn (length (xorBytes src k)) src) eq_refl).
    destruct (cipher.xorKeyStream fuel x2 (skipn (length (xorBytes src k)) src))
      as [ds x3]. cbn [fst] in *.
    rewrite IH; unfold x2; cfb_fields;
      [| lia | exact Lk | rewrite length_copy_at; exact Hn].
    rewrite Ld. replace (Nat.min (length src) 16) with 16 by lia.
    do 2 f_equal. unfold copy_at. rewrite Hn.
    replace (Nat.min (16 - 0) (length src)) with 16 by lia.
    rewrite firstn_O, (skipn_all2 (cipher.cfb_next x)) by lia.
    cbn [app]. apply app_nil_r.
  - rewrite (skipn_all2 src) by lia.
    rewrite (skipn_all2 (n := 16) src) by lia.
    rewrite xorKeyStream_nil, cfb_decrypt_nil. reflexivity.
Qed.

Lemma newCFB_decrypt (b : aes.Block) (iv c : list byte) :
  length iv = 16 ->
  fst (cipher.xorKeyStream (length c) (cipher.newCFB b iv true) c)
  = cfb_decrypt (length c) b iv c.
Proof.
  intros H. apply (xorKeyStream_cfb_decrypt (length c) (cipher.newCFB b iv true));
    auto.
Qed.

(** ** GCM: opening what was sealed *)

Arguments cipher.gf_mul : simpl never.
Arguments cipher.update : simpl never.

Lemma length_Z_to_be (n : nat) (v : Z) : length (cipher.Z_to_be n v) = n.
Proof. unfold cipher.Z_to_be. rewrite length_map, length_seq. reflexivity. Qed.

Lemma length_auth (g : cipher.gcm) (c a : list byte) (b : aes.Block) (ctr : list byte) :
  length (cipher.auth g c a (aes.Encrypt b ctr)) = 16.
Proof.
  unfold cipher.auth. rewrite length_xorBytes, length_Z_to_be, length_aes_Encrypt.
  reflexivity.
Qed.

Lemma counterCrypt_nil (fuel : nat) (g : cipher.gcm) (ctr : list byte) :
  cipher.counterCrypt fuel g [] ctr = [].
Proof. destruct fuel; reflexivity. Qed.

Lemma counterCrypt_step (fuel : nat) (g : cipher.gcm) (inp ctr : list byte) :
  cipher.counterCrypt (S fuel) g inp ctr
  = xorBytes (firstn 16 inp) (aes.Encrypt (cipher.gcm_cipher g) ctr)
      ++ cipher.counterCrypt fuel g (skipn 16 inp) (cipher.gcmInc32 ctr).
Proof.
  destruct inp as [|x inp]; [|reflexivity].
  cbn [cipher.counterCrypt firstn skipn xorBytes app].
  rewrite counterCrypt_nil. reflexivity.
Qed.

Lemma length_counterCrypt (fuel : nat) :
  forall (g : cipher.gcm) (inp ctr : list byte),
    length inp <= fuel -> length (cipher.counterCrypt fuel g inp ctr) = length inp.
Proof.
  induction fuel as [|fuel IH]; intros g inp ctr H.
  - destruct inp; simpl in *; [reflexivity | lia].
  - rewrite counterCrypt_step, length_app, length_xorBytes, length_firstn,
      length_aes_Encrypt.
    rewrite IH by (rewrite length_skipn; lia).
    rewrite length_skipn. lia.
Qed.

Lemma counterCrypt_involutive (fuel : nat) :
  forall (g : cipher.gcm) (inp ctr : list byte),
    length inp <= fuel ->
    cipher.counterCrypt fuel g (cipher.counterCrypt fuel g inp ctr) ctr = inp.
Proof.
  induction fuel as [|fuel IH]; intros g inp ctr H.
  - destruct inp; simpl in *; [reflexivity | lia].
  - rewrite (counterCrypt_step fuel g inp).
    set (mask := aes.Encrypt (cipher.gcm_cipher g) ctr).
    set (x1 := xorBytes (firstn 16 inp) mask).
    set (r1 := cipher.counterCrypt fuel g (skipn 16 inp) (cipher.gcmInc32 ctr)).
    assert (Hm : length mask = 16) by apply length_aes_Encrypt.
    assert (Hx1 : length x1 = Nat.min 16 (length inp))
      by (unfold x1; rewrite length_xorBytes, length_firstn; lia).
    assert (Hr1 : length r1 = length inp - 16).
    { unfold r1. rewrite length_counterCrypt; rewrite length_skipn; lia. }
    rewrite counterCrypt_step.
    assert (Hf : firstn 16 (x1 ++ r1) = x1).
    { rewrite firstn_app.
      destruct (Nat.le_gt_cases 16 (length inp)).
      - replace (16 - length x1) with 0 by lia.
        rewrite firstn_O, app_nil_r. apply firstn_all2. lia.
      - destruct r1; [|simpl in Hr1; lia].
        rewrite firstn_nil, app_nil_r. apply firstn_all2. lia. }
    assert (Hs : skipn 16 (x1 ++ r1) = r1).
    { rewrite skipn_app.
      destruct (Nat.le_gt_cases 16 (length inp)).
      - replace (16 - length x1) with 0 by lia.
        rewrite skipn_all2 by lia. reflexivity.
      - destruct r1; [|simpl in Hr1; lia].
        rewrite skipn_nil, app_nil_r. apply skipn_all2. lia. }
    rewrite Hf, Hs. unfold x1 at 1. fold mask.
    rewrite xorBytes_twice, Hm. unfold r1.
    rewrite IH by (rewrite length_skipn; lia).
    rewrite firstn_firstn, Nat.min_id. apply firstn_skipn.
Qed.

(** The two parts of a sealed message. *)
Definition sealed_body (g : cipher.gcm) (nonce p : list byte) : list byte :=
  cipher.counterCrypt (length p) g p (cipher.gcmInc32 (cipher.deriveCounter nonce)).

Definition sealed_tag (g : cipher.gcm) (nonce p ad : list byte) : list byte :=
  cipher.expectedTag g nonce (sealed_body g nonce p) ad.

Section OpenSeal.
Variables (g : cipher.gcm) (nonce p ad : list byte).

Lemma seal_layout :
  cipher.seal g nonce p ad = sealed_body g nonce p ++ sealed_tag g nonce p ad.
Proof. reflexivity. Qed.

Lemma length_sealed_body : length (sealed_body g nonce p) = length p.
Proof. apply length_counterCrypt. lia. Qed.

Lemma length_sealed_tag : length (sealed_tag g nonce p ad) = 16.
Proof. apply length_auth. Qed.

Lemma length_seal : length (cipher.seal g nonce p ad) = length p + 16.
Proof.
  rewrite seal_layout, length_app, length_sealed_body, length_sealed_tag.
  reflexivity.
Qed.

Lemma seal_firstn :
  firstn (length (cipher.seal g nonce p ad) - 16) (cipher.seal g nonce p ad)
  = sealed_body g nonce p.
Proof.
  rewrite length_seal, seal_layout.
  replace (length p + 16 - 16) with (length (sealed_body g nonce p) + 0)
    by (rewrite length_sealed_body; lia).
  rewrite firstn_app_2, firstn_O, app_nil_r. reflexivity.
Qed.

Lemma seal_skipn :
  skipn (length (cipher.seal g nonce p ad) - 16) (cipher.seal g nonce p ad)
  = sealed_tag g nonce p ad.
Proof.
  rewrite length_seal, seal_layout.
  replace (length p + 16 - 16) with (length (sealed_body g nonce p))
    by (rewrite length_sealed_body; lia).
  rewrite skipn_app, skipn_all, Nat.sub_diag. reflexivity.
Qed.

Lemma unseal_sealed_body : cipher.unseal g nonce (sealed_body g nonce p) = p.
Proof.
  unfold cipher.unseal. rewrite length_sealed_body.
  apply counterCrypt_involutive. lia.
Qed.
End OpenSeal.

Lemma bytes_eqb_refl (a : list byte) : bytes_eqb a a = true.
Proof. unfold bytes_eqb. destruct (list_eq_dec _ a a); congruence. Qed.

Lemma bytes_eqb_neq (a b : list byte) : a <> b -> bytes_eqb a b = false.
Proof. unfold bytes_eqb. destruct (list_eq_dec _ a b); congruence. Qed.

(** ** base64: decoding what was encoded *)

Arguments base64.quantum : simpl never.

Lemma byte_eqb_neq (x y : byte) : x <> y -> Strings.Byte.eqb x y = false.
Proof.
  intros H. destruct (Strings.Byte.eqb x y) eqn:E; [|reflexivity].
  apply Strings.Byte.byte_dec_bl in E. contradiction.
Qed.

Lemma decodeMap_encodeChar (v : Z) :
  (0 <= v < 64)%Z -> base64.decodeMap (base64.encodeChar v) = byte.of_Z v.
Proof.
  intros H.
  assert (T : forallb (fun n => Strings.Byte.eqb
                         (base64.decodeMap (base64.encodeChar (Z.of_nat n)))
                         (byte.of_Z (Z.of_nat n))) (seq 0 64) = true)
    by (vm_compute; reflexivity).
  rewrite forallb_forall in T. specialize (T (Z.to_nat v)).
  rewrite Z2Nat.id in T by lia.
  apply Strings.Byte.byte_dec_bl, T, in_seq. lia.
Qed.

Lemma sextet_not_xff (v : Z) :
  (0 <= v < 64)%Z -> Strings.Byte.eqb (byte.of_Z v) base64.xff = false.
Proof.
  intros H. apply byte_eqb_neq. intros E.
  apply (f_equal byte.unsigned) in E. rewrite byte.unsigned_of_Z in E.
  unfold byte.wrap in E. rewrite Z.mod_small in E by lia.
  change (byte.unsigned base64.xff) with 255%Z in E. lia.
Qed.

(** Reading one character of the alphabet. *)
Lemma decode_sextet (v : Z) (rest : list byte) (si j : nat) (dbuf : list byte) :
  (0 <= v < 64)%Z ->
  base64.decode (base64.encodeChar v :: rest) si j dbuf
  = if j =? 3
    then (let (tl, e) := base64.decode rest (S si) 0 [] in
          (base64.quantum (dbuf ++ [byte.of_Z v]) 4 ++ tl, e))
    else base64.decode rest (S si) (S j) (dbuf ++ [byte.of_Z v]).
Proof.
  intros H. cbn [base64.decode].
  rewrite decodeMap_encodeChar, sextet_not_xff by assumption. reflexivity.
Qed.

Lemma decode_padding_1 (si : nat) (dbuf : list byte) :
  base64.decode [base64.padChar] si 3 dbuf = (base64.quantum dbuf 3, None).
Proof. reflexivity. Qed.

Lemma decode_padding_2 (si : nat) (dbuf : list byte) :
  base64.decode [base64.padChar; base64.padChar] si 2 dbuf
  = (base64.quantum dbuf 2, None).
Proof. reflexivity. Qed.

Lemma land_63_range (x : Z) : (0 <= Z.land x 63 < 64)%Z.
Proof.
  change 63%Z with (Z.ones 6). rewrite Z.land_ones by lia.
  apply Z.mod_pos_bound. lia.
Qed.

Ltac bits :=
  Z.bitblast;
  repeat match goal with
         | |- context [Z.testbit ?x ?i] => rewrite (Z.testbit_neg_r x i) by lia
         end;
  try reflexivity; try btauto.

Section Sextets.
Local Open Scope Z_scope.

(** The value a quantum is rebuilt from, given its four 6-bit digits. *)
Definition join (s0 s1 s2 s3 : Z) : Z :=
  Z.lor (Z.lor (Z.lor (Z.shiftl s0 18) (Z.shiftl s1 12)) (Z.shiftl s2 6)) s3.

Definition pack (a b c : Z) : Z :=
  Z.lor (Z.lor (Z.shiftl (a mod 2 ^ 8) 16) (Z.shiftl (b mod 2 ^ 8) 8)) (c mod 2 ^ 8).

Lemma join_sextets (v : Z) :
  join (Z.shiftr v 18 mod 2 ^ 6) (Z.shiftr v 12 mod 2 ^ 6)
       (Z.shiftr v 6 mod 2 ^ 6) (v mod 2 ^ 6)
  = v mod 2 ^ 24.
Proof. unfold join. bits. Qed.

Lemma join_sextets_2 (v : Z) :
  Z.shiftr (join (Z.shiftr v 18 mod 2 ^ 6) (Z.shiftr v 12 mod 2 ^ 6)
                 (Z.shiftr v 6 mod 2 ^ 6) 0) 8
  = Z.shiftr (v mod 2 ^ 24) 8.
Proof. unfold join. bits. Qed.

Lemma join_sextets_1 (v : Z) :
  Z.shiftr (join (Z.shiftr v 18 mod 2 ^ 6) (Z.shiftr v 12 mod 2 ^ 6) 0 0) 16
  = Z.shiftr (v mod 2 ^ 24) 16.
Proof. unfold join. bits. Qed.

Lemma pack_hi (a b c : Z) : Z.shiftr (pack a b c mod 2 ^ 24) 16 mod 2 ^ 8 = a mod 2 ^ 8.
Proof. unfold pack. bits. Qed.

Lemma pack_mid (a b c : Z) : Z.shiftr (pack a b c mod 2 ^ 24) 8 mod 2 ^ 8 = b mod 2 ^ 8.
Proof. unfold pack. bits. Qed.

Lemma pack_lo (a b c : Z) : (pack a b c mod 2 ^ 24) mod 2 ^ 8 = c mod 2 ^ 8.
Proof. unfold pack. bits. Qed.

Lemma shiftr_shiftr_8_8 (v : Z) : Z.shiftr (Z.shiftr v 8) 8 = Z.shiftr v 16.
Proof. rewrite Z.shiftr_shiftr by lia. reflexivity. Qed.

Lemma sextet_unsigned (x : Z) :
  byte.unsigned (byte.of_Z (Z.land x 63)) = x mod 2 ^ 6.
Proof.
  rewrite byte.unsigned_of_Z. unfold byte.wrap.
  pose proof (land_63_range x) as H. rewrite Z.mod_small by lia.
  change 63 with (Z.ones 6). apply Z.land_ones. lia.
Qed.

Lemma pack_bytes (a b c : byte) :
  Z.lor (Z.lor (Z.shiftl (byte.unsigned a) 16) (Z.shiftl (byte.unsigned b) 8))
        (byte.unsigned c)
  = pack (byte.unsigned a) (byte.unsigned b) (byte.unsigned c).
Proof.
  unfold pack.
  pose proof (byte.unsigned_range a). pose proof (byte.unsigned_range b).
  pose proof (byte.unsigned_range c).
  rewrite !Z.mod_small by assumption. reflexivity.
Qed.

Lemma byte_of_mod (b : byte) : byte.of_Z (byte.unsigned b mod 2 ^ 8) = b.
Proof.
  apply byte.unsigned_inj. rewrite byte.unsigned_of_Z. unfold byte.wrap.
  rewrite Z.mod_mod by lia. apply byte.wrap_unsigned.
Qed.

Lemma byte_of_Z_mod (x : Z) : byte.of_Z x = byte.of_Z (x mod 2 ^ 8).
Proof.
  apply byte.unsigned_inj. rewrite !byte.unsigned_of_Z. unfold byte.wrap.
  rewrite Z.mod_mod by lia. reflexivity.
Qed.
End Sextets.

Lemma quantum_3 (a b c : byte) :
  let val := Z.lor (Z.lor (Z.shiftl (byte.unsigned a) 16)
                          (Z.shiftl (byte.unsigned b) 8)) (byte.unsigned c) in
  base64.quantum [ byte.of_Z (Z.land (Z.shiftr val 18) 63);
                   byte.of_Z (Z.land (Z.shiftr val 12) 63);
                   byte.of_Z (Z.land (Z.shiftr val 6) 63);
                   byte.of_Z (Z.land val 63) ] 4
  = [a; b; c].
Proof.
  intros val. unfold base64.quantum. cbn [firstn Nat.sub nth].
  rewrite !sextet_unsigned. fold (join (Z.shiftr val 18 mod 2 ^ 6)
    (Z.shiftr val 12 mod 2 ^ 6) (Z.shiftr val 6 mod 2 ^ 6) (val mod 2 ^ 6)).
  rewrite join_sextets. unfold val. rewrite pack_bytes.
  rewrite (byte_of_Z_mod (Z.shiftr _ 16)), (byte_of_Z_mod (Z.shiftr _ 8)),
    (byte_of_Z_mod (_ mod 2 ^ 24)).
  rewrite pack_hi, pack_mid, pack_lo, !byte_of_mod. reflexivity.
Qed.

Lemma quantum_2 (a b : byte) :
  let val := Z.lor (Z.shiftl (byte.unsigned a) 16) (Z.shiftl (byte.unsigned b) 8) in
  base64.quantum [ byte.of_Z (Z.land (Z.shiftr val 18) 63);
                   byte.of_Z (Z.land (Z.shiftr val 12) 63);
                   byte.of_Z (Z.land (Z.shiftr val 6) 63) ] 3
  = [a; b].
Proof.
  intros val. unfold base64.quantum. cbn [firstn Nat.sub nth].
  rewrite !sextet_unsigned. change (byte.unsigned x00) with 0%Z.
  fold (join (Z.shiftr val 18 mod 2 ^ 6) (Z.shiftr val 12 mod 2 ^ 6)
             (Z.shiftr val 6 mod 2 ^ 6) 0).
  rewrite <- shiftr_shiftr_8_8, join_sextets_2, shiftr_shiftr_8_8.
  assert (E : val = pack (byte.unsigned a) (byte.unsigned b) (byte.unsigned x00)).
  { rewrite <- pack_bytes. change (byte.unsigned x00) with 0%Z.
    rewrite Z.lor_0_r. reflexivity. }
  rewrite E.
  rewrite (byte_of_Z_mod (Z.shiftr _ 16)), (byte_of_Z_mod (Z.shiftr _ 8)).
  rewrite pack_hi, pack_mid, !byte_of_mod. reflexivity.
Qed.

Lemma quantum_1 (a : byte) :
  let val := Z.shiftl (byte.unsigned a) 16 in
  base64.quantum [ byte.of_Z (Z.land (Z.shiftr val 18) 63);
                   byte.of_Z (Z.land (Z.shiftr val 12) 63) ] 2
  = [a].
Proof.
  intros val. unfold base64.quantum. cbn [firstn Nat.sub nth].
  rewrite !sextet_unsigned. change (byte.unsigned x00) with 0%Z.
  fold (join (Z.shiftr val 18 mod 2 ^ 6) (Z.shiftr val 12 mod 2 ^ 6) 0 0).
  rewrite join_sextets_1.
  assert (E : val = pack (byte.unsigned a) (byte.unsigned x00) (byte.unsigned x00)).
  { rewrite <- pack_bytes. change (byte.unsigned x00) with 0%Z.
    rewrite Z.shiftl_0_l, !Z.lor_0_r. reflexivity. }
  rewrite E, (byte_of_Z_mod (Z.shiftr _ 16)), pack_hi, byte_of_mod. reflexivity.
Qed.

Lemma decode_encode (n : nat) :
  forall (src : list byte) (si : nat),
    length src <= n ->
    base64.decode (base64.encode src) si 0 [] = (src, None).
Proof.
  induction n as [|n IH]; intros src si H.
  - destruct src; [reflexivity | simpl in H; lia].
  - destruct src as [|a [|b [|c rest]]].
    + reflexivity.
    + cbn [base64.encode].
      rewrite !decode_sextet by apply land_63_range. cbn [Nat.eqb app].
      rewrite decode_padding_2, quantum_1. reflexivity.
    + cbn [base64.encode].
      rewrite !decode_sextet by apply land_63_range. cbn [Nat.eqb app].
      rewrite decode_padding_1, quantum_2. reflexivity.
    + cbn [base64.encode].
      rewrite !decode_sextet by apply land_63_range. cbn [Nat.eqb app].
      rewrite IH by (simpl in H; lia).
      rewrite quantum_3. reflexivity.
Qed.

Lemma decodeString_EncodeToString (src : list byte) :
  base64.decodeString (base64.EncodeToString src) = (src, None).
Proof. apply (decode_encode (length src)). lia. Qed.

(* ===================================================================== *)
(** * The store: validity of slices and what a call leaves untouched *)
(* ===================================================================== *)

(** A slice is valid when its window and capacity lie inside its array. *)
Definition valid (s : state) (sl : slice) : Prop :=
  s_len sl <= s_cap sl /\ s_off sl + s_cap sl <= length (array s (s_arr sl)).

(** [s'] extends [s]: every backing array of [s] is still there, unchanged. *)
Definition extends (s s' : state) : Prop :=
  length (arrays s) <= length (arrays s')
  /\ forall a, a < length (arrays s) -> array s' a = array s a.

Lemma array_overflow (s : state) (a : nat) :
  length (arrays s) <= a -> array s a = [].
Proof. intros H. unfold array. apply nth_overflow. exact H. Qed.

Lemma valid_nonempty (s : state) (sl : slice) :
  valid s sl -> 0 < s_cap sl -> s_arr sl < length (arrays s).
Proof.
  intros (Hl & Hc) Hp. destruct (Nat.lt_ge_cases (s_arr sl) (length (arrays s))) as [H|H];
    [exact H|].
  rewrite (array_overflow s _ H) in Hc. simpl in Hc. lia.
Qed.

Lemma length_bytes (s : state) (sl : slice) :
  valid s sl -> length (bytes s sl) = s_len sl.
Proof.
  intros (Hl & Hc). unfold bytes. rewrite length_firstn, length_skipn. lia.
Qed.

Lemma valid_nil_slice (s : state) : valid s nil_slice.
Proof. unfold valid, nil_slice; simpl. lia. Qed.

Lemma extends_refl (s : state) : extends s s.
Proof. split; auto. Qed.

Lemma extends_trans (s1 s2 s3 : state) :
  extends s1 s2 -> extends s2 s3 -> extends s1 s3.
Proof.
  intros (L1 & A1) (L2 & A2). split; [lia|].
  intros a Ha. rewrite A2, A1 by lia. reflexivity.
Qed.

Lemma extends_valid (s s' : state) (sl : slice) :
  extends s s' -> valid s sl -> valid s' sl /\ bytes s' sl = bytes s sl.
Proof.
  intros (L & A) (Hl & Hc).
  destruct (Nat.lt_ge_cases (s_arr sl) (length (arrays s))) as [H|H].
  - unfold valid, bytes. rewrite A by exact H. auto.
  - rewrite (array_overflow s _ H) in Hc. simpl in Hc.
    unfold valid, bytes. replace (s_len sl) with 0 by lia.
    split; [lia | reflexivity].
Qed.

(** ** Updating one array *)

Lemma length_set_nth {A : Type} (l : list A) (i : nat) (v : A) :
  length (set_nth l i v) = length l.
Proof.
  unfold set_nth. destruct (Nat.ltb_spec i (length l)); [|reflexivity].
  rewrite length_app, length_firstn. cbn [length]. rewrite length_skipn. lia.
Qed.

Lemma nth_set_nth_eq {A : Type} (l : list A) (i : nat) (v d : A) :
  i < length l -> nth i (set_nth l i v) d = v.
Proof.
  intros H. unfold set_nth. destruct (Nat.ltb_spec i (length l)); [|lia].
  rewrite app_nth2; rewrite length_firstn; [|lia].
  replace (i - Nat.min i (length l)) with 0 by lia. reflexivity.
Qed.

Lemma nth_set_nth_neq {A : Type} (l : list A) (i j : nat) (v d : A) :
  i <> j -> nth j (set_nth l i v) d = nth j l d.
Proof.
  intros H. unfold set_nth. destruct (Nat.ltb_spec i (length l)); [|reflexivity].
  destruct (Nat.lt_ge_cases j i).
  - rewrite app_nth1 by (rewrite length_firstn; lia).
    rewrite <- (firstn_skipn i l) at 2. rewrite app_nth1 by (rewrite length_firstn; lia).
    reflexivity.
  - rewrite app_nth2; rewrite length_firstn; [|lia].
    replace (Nat.min i (length l)) with i by lia.
    destruct (j - i) as [|k] eqn:E; [lia|]. cbn [nth].
    rewrite nth_skipn. f_equal. lia.
Qed.

Lemma set_nth_same {A : Type} (l : list A) (i : nat) (v : A) :
  nth_error l i = Some v -> set_nth l i v = l.
Proof.
  intros H. unfold set_nth.
  destruct (Nat.ltb_spec i (length l)); [|reflexivity].
  rewrite <- (firstn_skipn i l) at 3. f_equal.
  rewrite <- (firstn_skipn i l) in H.
  rewrite nth_error_app2 in H; rewrite length_firstn in *; [|lia].
  replace (i - Nat.min i (length l)) with 0 in H by lia.
  destruct (skipn i l) as [|x r] eqn:E; [discriminate|].
  cbn in H. injection H as ->.
  f_equal. replace (S i) with (1 + i) by lia.
  rewrite <- skipn_skipn, E. reflexivity.
Qed.

Lemma array_set_array_eq (s : state) (a : nat) (v : list byte) :
  a < length (arrays s) -> array (set_array s a v) a = v.
Proof. intros H. unfold array, set_array; cbn [arrays]. apply nth_set_nth_eq, H. Qed.

Lemma array_set_array_neq (s : state) (a a' : nat) (v : list byte) :
  a <> a' -> array (set_array s a v) a' = array s a'.
Proof. intros H. unfold array, set_array; cbn [arrays]. apply nth_set_nth_neq, H. Qed.

Lemma length_arrays_set_array (s : state) (a : nat) (v : list byte) :
  length (arrays (set_array s a v)) = length (arrays s).
Proof. unfold set_array; cbn [arrays]. apply length_set_nth. Qed.

(** Writing to an array that [s0] does not have keeps [s0] extended. *)
Lemma extends_set_array (s0 s : state) (a : nat) (v : list byte) :
  extends s0 s -> length (arrays s0) <= a -> extends s0 (set_array s a v).
Proof.
  intros (L & A) H. split.
  - rewrite length_arrays_set_array. exact L.
  - intros a' Ha'. rewrite array_set_array_neq by lia. apply A, Ha'.
Qed.

(** ** [copy] on the contents of an array *)

Lemma copy_at_fits (dst : list byte) (off : nat) (src : list byte) :
  off + length src <= length dst ->
  copy_at dst off src = firstn off dst ++ src ++ skipn (off + length src) dst.
Proof.
  intros H. unfold copy_at.
  replace (Nat.min (length dst - off) (length src)) with (length src) by lia.
  rewrite firstn_all. reflexivity.
Qed.

Lemma read_copy_at (dst : list byte) (off : nat) (src : list byte) :
  off + length src <= length dst ->
  firstn (length src) (skipn off (copy_at dst off src)) = src.
Proof.
  intros H. rewrite copy_at_fits by exact H.
  rewrite skipn_app, length_firstn.
  replace (Nat.min off (length dst)) with off by lia.
  rewrite skipn_all2 by (rewrite length_firstn; lia).
  rewrite Nat.sub_diag. cbn [skipn app].
  rewrite firstn_app, Nat.sub_diag, firstn_O, app_nil_r. apply firstn_all.
Qed.

Lemma copy_at_nil (dst : list byte) (off : nat) : copy_at dst off [] = dst.
Proof.
  unfold copy_at. cbn [length]. rewrite Nat.min_0_r, firstn_nil, Nat.add_0_r.
  cbn [app]. apply firstn_skipn.
Qed.

(** The second part of a buffer is written: the first part stays. *)
Lemma copy_at_app (a b d : list byte) :
  length d = length b -> copy_at (a ++ b) (length a) d = a ++ d.
Proof.
  intros H. rewrite copy_at_fits by (rewrite length_app; lia).
  rewrite firstn_app, Nat.sub_diag, firstn_O, app_nil_r, firstn_all.
  rewrite skipn_all2 by (rewrite length_app; lia).
  rewrite app_nil_r. reflexivity.
Qed.

Lemma copy_at_0_app (a b d : list byte) :
  length d = length a -> copy_at (a ++ b) 0 d = d ++ b.
Proof.
  intros H. rewrite copy_at_fits by (rewrite length_app; lia).
  cbn [firstn app Nat.add]. rewrite H, skipn_app, skipn_all, Nat.sub_diag.
  reflexivity.
Qed.

Lemma repeat_add (n m : nat) : repeat x00 (n + m) = repeat x00 n ++ repeat x00 m.
Proof. apply repeat_app. Qed.

(** ** The three ways a store changes *)

Lemma set_nth_overflow {A : Type} (l : list A) (i : nat) (v : A) :
  length l <= i -> set_nth l i v = l.
Proof. intros H. unfold set_nth. destruct (Nat.ltb_spec i (length l)); [lia | reflexivity]. Qed.

Lemma array_written_other (s : state) (sl : slice) (d : list byte) (a : nat) :
  a <> s_arr sl -> array (written s sl d) a = array s a.
Proof. intros H. unfold written. apply array_set_array_neq. auto. Qed.

Lemma array_written_same (s : state) (sl : slice) (d : list byte) :
  s_arr sl < length (arrays s) ->
  array (written s sl d) (s_arr sl)
  = copy_at (array s (s_arr sl)) (s_off sl) (firstn (s_len sl) d).
Proof. intros H. unfold written. apply array_set_array_eq, H. Qed.

Lemma array_written_empty (s : state) (sl : slice) (d : list byte) (a : nat) :
  s_len sl = 0 -> array (written s sl d) a = array s a.
Proof.
  intros H. destruct (Nat.eq_dec a (s_arr sl)) as [->|N].
  - unfold written. rewrite H, firstn_O, copy_at_nil.
    unfold array, set_array; cbn [arrays].
    destruct (Nat.lt_ge_cases (s_arr sl) (length (arrays s))).
    + apply nth_set_nth_eq. assumption.
    + rewrite set_nth_overflow by assumption. reflexivity.
  - apply array_written_other, N.
Qed.

Lemma length_arrays_written (s : state) (sl : slice) (d : list byte) :
  length (arrays (written s sl d)) = length (arrays s).
Proof. apply length_arrays_set_array. Qed.

Lemma length_array_written (s : state) (sl : slice) (d : list byte) (a : nat) :
  length (array (written s sl d) a) = length (array s a).
Proof.
  destruct (Nat.eq_dec a (s_arr sl)) as [->|N].
  - destruct (Nat.lt_ge_cases (s_arr sl) (length (arrays s))).
    + rewrite array_written_same by assumption. apply length_copy_at.
    + unfold written, set_array, array; cbn [arrays].
      rewrite set_nth_overflow by assumption. reflexivity.
  - rewrite array_written_other by exact N. reflexivity.
Qed.

Lemma valid_written (s : state) (sl : slice) (d : list byte) (sl' : slice) :
  valid s sl' -> valid (written s sl d) sl'.
Proof. unfold valid. rewrite length_array_written. auto. Qed.

Lemma bytes_written_same (s : state) (sl : slice) (d : list byte) :
  valid s sl -> length d = s_len sl -> bytes (written s sl d) sl = d.
Proof.
  intros Hv Hd. destruct (Nat.eq_dec (s_len sl) 0) as [Z|NZ].
  - unfold bytes. rewrite Z. destruct d; [reflexivity | simpl in Hd; lia].
  - pose proof Hv as (Hl & Hc).
    unfold bytes. rewrite array_written_same by (apply (valid_nonempty s sl Hv); lia).
    rewrite (@firstn_all2 _ (s_len sl) d) by lia. rewrite <- Hd. apply read_copy_at. lia.
Qed.

Lemma extends_written (s0 s : state) (sl : slice) (d : list byte) :
  extends s0 s -> length (arrays s0) <= s_arr sl -> extends s0 (written s sl d).
Proof. intros H L. unfold written. apply extends_set_array; assumption. Qed.

Lemma extends_written_empty (s0 s : state) (sl : slice) (d : list byte) :
  extends s0 s -> s_len sl = 0 -> extends s0 (written s sl d).
Proof.
  intros (L & A) Z. split.
  - rewrite length_arrays_written. exact L.
  - intros a Ha. rewrite array_written_empty by exact Z. apply A, Ha.
Qed.

Lemma array_allocated_old (s : state) (d : list byte) (a : nat) :
  a < length (arrays s) -> array (allocated s d) a = array s a.
Proof. intros H. unfold array, allocated; cbn [arrays]. apply app_nth1, H. Qed.

Lemma array_allocated_new (s : state) (d : list byte) :
  array (allocated s d) (length (arrays s)) = d.
Proof.
  unfold array, allocated; cbn [arrays].
  rewrite app_nth2, Nat.sub_diag by lia. reflexivity.
Qed.

Lemma length_arrays_allocated (s : state) (d : list byte) :
  length (arrays (allocated s d)) = S (length (arrays s)).
Proof. unfold allocated; cbn [arrays]. rewrite length_app. cbn [length]. lia. Qed.

Lemma extends_allocated (s : state) (d : list byte) : extends s (allocated s d).
Proof.
  split; [rewrite length_arrays_allocated; lia|].
  intros a Ha. apply array_allocated_old, Ha.
Qed.

Lemma extends_drawn (s0 s : state) (n : nat) : extends s0 s -> extends s0 (drawn s n).
Proof. intros H. exact H. Qed.

(** The whole of a new array. *)
Lemma valid_whole (s : state) (a n : nat) :
  length (array s a) = n -> valid s (mkSlice a 0 n n).
Proof. intros H. unfold valid; cbn [s_len s_cap s_off s_arr]. lia. Qed.

Lemma bytes_whole (s : state) (a n : nat) :
  length (array s a) = n -> bytes s (mkSlice a 0 n n) = array s a.
Proof.
  intros H. unfold bytes; cbn [s_len s_cap s_off s_arr skipn].
  apply firstn_all2. lia.
Qed.

(* ===================================================================== *)
(** * What the instances compute *)
(* ===================================================================== *)

(** The GCM transform [NewGCM] builds over a block. *)
Definition gcm_of (b : aes.Block) : cipher.gcm :=
  cipher.mkGCM b 12 16 (cipher.be_to_Z (aes.Encrypt b (repeat x00 16))).

(** The bytes an instance's [Encrypt] returns for the plaintext [p] when
    the random source delivers [ent]. *)
Fixpoint ciphertext_of (i : Instance) (p ent : list byte) : list byte :=
  match i with
  | Null => p
  | Stream b =>
      firstn 16 ent
        ++ fst (cipher.xorKeyStream (length p) (cipher.newCFB b (firstn 16 ent) false) p)
  | Authenticated b =>
      firstn 12 ent ++ cipher.seal (gcm_of b) (firstn 12 ent) p []
  | Encoded inner => base64.EncodeToString (ciphertext_of inner p ent)
  end.

(** The random bytes an instance's [Encrypt] draws. *)
Fixpoint draws (i : Instance) : nat :=
  match i with
  | Null => 0
  | Stream _ => 16
  | Authenticated _ => 12
  | Encoded inner => draws inner
  end.

(** The bytes an instance's [Decrypt] returns for the ciphertext [c], when
    it returns any. *)
Fixpoint plaintext_of (i : Instance) (c : list byte) : option (list byte) :=
  match i with
  | Null => Some c
  | Stream b =>
      if length c <? 16 then None
      else Some (fst (cipher.xorKeyStream (length c - 16)
                        (cipher.newCFB b (firstn 16 c) true) (skipn 16 c)))
  | Authenticated b =>
      if length c <? 12 + 16 then None
      else
        let nonce := firstn 12 c in
        let sealed := skipn 12 c in
        let body := firstn (length sealed - 16) sealed in
        let tag := skipn (length sealed - 16) sealed in
        if bytes_eqb (cipher.expectedTag (gcm_of b) nonce body []) tag
        then Some (cipher.unseal (gcm_of b) nonce body)
        else None
  | Encoded inner =>
      match base64.decodeString c with
      | (d, None) => plaintext_of inner d
      | (_, Some _) => None
      end
  end.

Lemma newCFB_ok (b : aes.Block) (iv : list byte) (d : bool) :
  length iv = 16 -> cfb_ok (cipher.newCFB b iv d).
Proof.
  intros H. unfold cfb_ok, cipher.newCFB; cbn [cipher.cfb_out cipher.cfb_next cipher.cfb_outUsed].
  rewrite repeat_length. unfold aes.BlockSize. auto.
Qed.

Lemma newCFB_agree (b : aes.Block) (iv : list byte) :
  cfb_agree (cipher.newCFB b iv false) (cipher.newCFB b iv true).
Proof. unfold cfb_agree; cbn. auto 10. Qed.

Lemma plaintext_of_ciphertext_of (i : Instance) (p ent : list byte) :
  draws i <= length ent -> plaintext_of i (ciphertext_of i p ent) = Some p.
Proof.
  induction i as [|b|b|inner IH]; cbn [draws ciphertext_of plaintext_of]; intros H.
  - reflexivity.
  - assert (Hiv : length (firstn 16 ent) = 16) by (rewrite length_firstn; lia).
    pose proof (length_xorKeyStream (length p) (cipher.newCFB b (firstn 16 ent) false) p
                  (newCFB_ok _ _ _ Hiv) (le_n _)) as Hl.
    rewrite length_app, Hiv, Hl.
    destruct (Nat.ltb_spec (16 + length p) 16); [lia|].
    rewrite firstn_app, Hiv, Nat.sub_diag, firstn_O, app_nil_r.
    rewrite (firstn_all2 (firstn 16 ent)) by lia.
    rewrite skipn_app, Hiv, Nat.sub_diag.
    rewrite (skipn_all2 (firstn 16 ent)) by lia. cbn [skipn app].
    replace (16 + length p - 16) with (length p) by lia.
    rewrite xorKeyStream_roundtrip; auto using newCFB_ok, newCFB_agree.
  - assert (Hn : length (firstn 12 ent) = 12) by (rewrite length_firstn; lia).
    rewrite length_app, Hn, length_seal.
    destruct (Nat.ltb_spec (12 + (length p + 16)) (12 + 16)); [lia|].
    rewrite firstn_app, Hn, Nat.sub_diag, firstn_O, app_nil_r.
    rewrite (firstn_all2 (firstn 12 ent)) by lia.
    rewrite skipn_app, Hn, Nat.sub_diag.
    rewrite (skipn_all2 (firstn 12 ent)) by lia. cbn [skipn app].
    rewrite seal_firstn, seal_skipn. unfold sealed_tag.
    rewrite bytes_eqb_refl, unseal_sealed_body. reflexivity.
  - rewrite decodeString_EncodeToString. auto.
Qed.

(* ===================================================================== *)
(** * Running the library calls *)
(* ===================================================================== *)

Arguments cipher.xorKeyStream : simpl never.
Arguments cipher.seal : simpl never.
Arguments cipher.unseal : simpl never.
Arguments cipher.expectedTag : simpl never.
Arguments base64.decodeString : simpl never.
Arguments base64.encode : simpl never.

Lemma bind_Done {A B : Type} (m : M A) (k : A -> M B) (s s' : state) (a : A) :
  m s = Done a s' -> bind m k s = k a s'.
Proof. intros H. unfold bind. rewrite H. reflexivity. Qed.

Lemma bind_Panicked {A B : Type} (m : M A) (k : A -> M B) (s s' : state) (p : panic) :
  m s = Panicked p s' -> bind m k s = Panicked p s'.
Proof. intros H. unfold bind. rewrite H. reflexivity. Qed.

Lemma bind_assoc {A B C : Type} (m : M A) (f : A -> M B) (g : B -> M C) (s : state) :
  bind (bind m f) g s = bind m (fun x => bind (f x) g) s.
Proof. unfold bind. destruct (m s); reflexivity. Qed.

Lemma bind_ret {A B : Type} (a : A) (k : A -> M B) (s : state) :
  bind (ret a) k s = k a s.
Proof. reflexivity. Qed.

(** One step of a computation whose first call is known to return. *)
Ltac step H :=
  repeat first [rewrite bind_assoc | rewrite bind_ret];
  erewrite bind_Done
    by (apply H;
        cbn [s_arr s_off s_len s_cap arrays strings entropy allocated drawn];
        first [lia | eassumption | reflexivity]);
  cbv beta iota.

Lemma make_run (n : nat) (s : state) :
  make n s = Done (mkSlice (length (arrays s)) 0 n n) (allocated s (repeat x00 n)).
Proof. unfold make, alloc. rewrite repeat_length. reflexivity. Qed.

Lemma alloc_run (d : list byte) (s : state) :
  alloc d s = Done (mkSlice (length (arrays s)) 0 (length d) (length d)) (allocated s d).
Proof. reflexivity. Qed.

Lemma read_run (sl : slice) (s : state) : read sl s = Done (bytes s sl) s.
Proof. reflexivity. Qed.

Lemma write_run (sl : slice) (d : list byte) (s : state) :
  write sl d s = Done tt (written s sl d).
Proof. reflexivity. Qed.

Lemma slice_to_run (sl : slice) (high : nat) (s : state) :
  high <= s_cap sl ->
  slice_to sl high s = Done (mkSlice (s_arr sl) (s_off sl) high (s_cap sl)) s.
Proof.
  intros H. unfold slice_to. destruct (Nat.ltb_spec (s_cap sl) high); [lia | reflexivity].
Qed.

Lemma slice_to_panic (sl : slice) (high : nat) (s : state) :
  s_cap sl < high -> slice_to sl high s = Panicked (BoundsCap high (s_cap sl)) s.
Proof.
  intros H. unfold slice_to. destruct (Nat.ltb_spec (s_cap sl) high); [reflexivity | lia].
Qed.

Lemma slice_from_run (sl : slice) (low : nat) (s : state) :
  low <= s_len sl ->
  slice_from sl low s
  = Done (mkSlice (s_arr sl) (s_off sl + low) (s_len sl - low) (s_cap sl - low)) s.
Proof.
  intros H. unfold slice_from. destruct (Nat.ltb_spec (s_len sl) low); [lia | reflexivity].
Qed.

Lemma slice_from_panic (sl : slice) (low : nat) (s : state) :
  s_len sl < low -> slice_from sl low s = Panicked (BoundsLen low (s_len sl)) s.
Proof.
  intros H. unfold slice_from. destruct (Nat.ltb_spec (s_len sl) low); [reflexivity | lia].
Qed.

Lemma ReadFull_rand_run (buf : slice) (s : state) :
  s_len buf <= length (entropy s) ->
  ReadFull_rand buf s
  = Done None (drawn (written s buf (firstn (s_len buf) (entropy s))) (s_len buf)).
Proof.
  intros H. unfold ReadFull_rand.
  destruct (Nat.leb_spec (s_len buf) (length (entropy s))); [reflexivity | lia].
Qed.

Lemma newCFB_run (b : aes.Block) (iv : slice) (d : bool) (s : state) :
  s_len iv = 16 -> newCFB b iv d s = Done (cipher.newCFB b (bytes s iv) d) s.
Proof. intros H. unfold newCFB. rewrite H. reflexivity. Qed.

Lemma InexactOverlap_empty (x y : slice) :
  s_len x = 0 \/ s_len y = 0 -> InexactOverlap x y = false.
Proof.
  intros H. unfold InexactOverlap.
  destruct (Nat.eqb_spec (s_len x) 0), (Nat.eqb_spec (s_len y) 0); try reflexivity. lia.
Qed.

Lemma InexactOverlap_other_array (x y : slice) :
  s_arr x <> s_arr y -> InexactOverlap x y = false.
Proof.
  intros H. unfold InexactOverlap.
  destruct (Nat.eqb_spec (s_arr x) (s_arr y)); [contradiction|].
  destruct ((s_len x =? 0) || (s_len y =? 0)); reflexivity.
Qed.

Lemma InexactOverlap_same_start (x y : slice) :
  s_arr x = s_arr y -> s_off x = s_off y -> InexactOverlap x y = false.
Proof.
  intros Ha Ho. unfold InexactOverlap. rewrite Ha, Ho, !Nat.eqb_refl.
  destruct ((s_len x =? 0) || (s_len y =? 0)); reflexivity.
Qed.

(** A window of a new array and a valid older slice do not overlap. *)
Lemma InexactOverlap_fresh (s : state) (x y : slice) :
  valid s y -> length (arrays s) <= s_arr x -> InexactOverlap x y = false.
Proof.
  intros Hv Hx. destruct (Nat.eq_dec (s_len y) 0) as [Z|NZ].
  - apply InexactOverlap_empty. auto.
  - apply InexactOverlap_other_array.
    pose proof (valid_nonempty s y Hv) as H. destruct Hv. lia.
Qed.

Lemma XORKeyStream_run (x : cipher.cfb) (dst src : slice) (s : state) :
  s_len src <= s_len dst ->
  InexactOverlap (mkSlice (s_arr dst) (s_off dst) (s_len src) (s_cap dst)) src = false ->
  XORKeyStream x dst src s
  = Done (snd (cipher.xorKeyStream (length (bytes s src)) x (bytes s src)))
         (written s dst (fst (cipher.xorKeyStream (length (bytes s src)) x (bytes s src)))).
Proof.
  intros Hl Ho. unfold XORKeyStream. rewrite Ho.
  destruct (Nat.ltb_spec (s_len dst) (s_len src)); [lia | reflexivity].
Qed.

Lemma NewGCM_run (b : aes.Block) : NewGCM b = inl (gcm_of b).
Proof. reflexivity. Qed.

(** ** CFBCipher *)

Lemma CFBCipher_Encrypt_run (c : CFBCipher) (value : slice) (s : state) :
  valid s value -> 16 <= length (entropy s) ->
  exists ct s',
    CFBCipher_Encrypt c value s = Done (ct, None) s'
    /\ valid s' ct
    /\ bytes s' ct = ciphertext_of (Stream (CFB_Block c)) (bytes s value) (entropy s)
    /\ extends s s' /\ strings s' = strings s
    /\ entropy s' = skipn 16 (entropy s).
Proof.
  intros Hv He.
  set (A := length (arrays s)).
  set (n := s_len value).
  set (ct := mkSlice A 0 (16 + n) (16 + n)).
  set (iv := mkSlice A 0 16 (16 + n)).
  set (dst := mkSlice A (0 + 16) (16 + n - 16) (16 + n - 16)).
  set (s1 := allocated s (repeat x00 (16 + n))).
  set (s2 := drawn (written s1 iv (firstn 16 (entropy s1))) 16).
  set (r := cipher.xorKeyStream (length (bytes s2 value))
              (cipher.newCFB (CFB_Block c) (bytes s2 iv) false) (bytes s2 value)).
  set (s3 := written s2 dst (fst r)).
  assert (Hiv : length (firstn 16 (entropy s)) = 16) by (rewrite length_firstn; lia).
  assert (E12 : extends s s2).
  { apply extends_drawn, extends_written; [apply extends_allocated | cbn; lia]. }
  destruct (extends_valid s s2 value E12 Hv) as (Hv2 & Hb2).
  assert (A2 : array s2 A = firstn 16 (entropy s) ++ repeat x00 n).
  { unfold s2. change (array (drawn ?x _) A) with (array x A).
    change A with (s_arr iv) at 1. rewrite array_written_same
      by (unfold s1; rewrite length_arrays_allocated; cbn; lia).
    cbn [s_arr s_off s_len iv]. unfold s1 at 1. unfold A. rewrite array_allocated_new.
    rewrite repeat_add, firstn_firstn, Nat.min_id.
    apply copy_at_0_app. rewrite repeat_length. exact Hiv. }
  assert (Biv : bytes s2 iv = firstn 16 (entropy s)).
  { unfold bytes. cbn [s_arr s_off s_len iv skipn]. rewrite A2, firstn_app, Hiv.
    rewrite Nat.sub_diag, firstn_O, app_nil_r. apply firstn_all2. lia. }
  assert (Lr : length (fst r) = n).
  { unfold r. rewrite length_xorKeyStream; [rewrite Hb2; apply length_bytes, Hv | | lia].
    apply newCFB_ok. rewrite Biv. exact Hiv. }
  assert (A3 : array s3 A = firstn 16 (entropy s) ++ fst r).
  { unfold s3. change A with (s_arr dst) at 1. rewrite array_written_same
      by (unfold s2, s1; change (arrays (drawn ?x _)) with (arrays x);
          rewrite length_arrays_written, length_arrays_allocated; cbn; lia).
    cbn [s_arr s_off s_len dst]. rewrite A2.
    rewrite (@firstn_all2 _ (16 + n - 16) (fst r)) by lia.
    replace (0 + 16) with (length (firstn 16 (entropy s))) by (rewrite Hiv; reflexivity).
    apply copy_at_app. rewrite repeat_length. exact Lr. }
  exists ct, s3. split; [|split; [|split; [|split; [|split]]]].
  - unfold CFBCipher_Encrypt, aes.BlockSize.
    step make_run. step slice_to_run. step ReadFull_rand_run.
    unfold NewCFBEncrypter. step newCFB_run. step slice_from_run.
    erewrite bind_Done.
    2: { apply XORKeyStream_run; cbn [s_arr s_off s_len s_cap]; [lia|].
         apply (InexactOverlap_fresh s); [exact Hv | cbn [s_arr]; unfold A; lia]. }
    reflexivity.
  - apply valid_whole. rewrite A3, length_app, Hiv, Lr. reflexivity.
  - unfold ct. rewrite bytes_whole by (rewrite A3, length_app, Hiv, Lr; reflexivity).
    rewrite A3. cbn [ciphertext_of]. unfold r. rewrite Biv, Hb2. reflexivity.
  - unfold s3. apply extends_written; [exact E12 | cbn; lia].
  - reflexivity.
  - reflexivity.
Qed.

Lemma CFBCipher_Decrypt_short (c : CFBCipher) (ct : slice) (s : state) :
  s_len ct < 16 ->
  CFBCipher_Decrypt c ct s = Done (nil_slice, Some (Errorf_short 16 (s_len ct))) s.
Proof.
  intros H. unfold CFBCipher_Decrypt, aes.BlockSize.
  destruct (Nat.ltb_spec (s_len ct) 16); [reflexivity | lia].
Qed.

(** The slice and the store [CFBCipher.Decrypt] returns: the plaintext is
    written over the ciphertext, in the caller's array. *)
Lemma CFBCipher_Decrypt_run (c : CFBCipher) (ct : slice) (s : state) :
  valid s ct -> 16 <= s_len ct ->
  let p := fst (cipher.xorKeyStream (s_len ct - 16)
                  (cipher.newCFB (CFB_Block c) (firstn 16 (bytes s ct)) true)
                  (skipn 16 (bytes s ct))) in
  let out := mkSlice (s_arr ct) (s_off ct + 16) (s_len ct - 16) (s_cap ct - 16) in
  CFBCipher_Decrypt c ct s = Done (out, None) (written s out p)
  /\ valid (written s out p) out
  /\ bytes (written s out p) out = p.
Proof.
  intros Hv Hl p out. pose proof Hv as (Hlc & Hc).
  set (iv := mkSlice (s_arr ct) (s_off ct) 16 (s_cap ct)).
  assert (Vo : valid s out) by (unfold valid, out; cbn [s_arr s_off s_len s_cap]; lia).
  assert (Biv : bytes s iv = firstn 16 (bytes s ct)).
  { unfold bytes; cbn [s_arr s_off s_len iv]. rewrite firstn_firstn. f_equal. lia. }
  assert (Bo : bytes s out = skipn 16 (bytes s ct)).
  { unfold bytes; cbn [s_arr s_off s_len out].
    rewrite skipn_firstn_comm, skipn_skipn. do 2 f_equal. lia. }
  assert (Lo : length (bytes s out) = s_len ct - 16) by (apply (length_bytes s out Vo)).
  assert (Lp : length p = s_len ct - 16).
  { unfold p. rewrite length_xorKeyStream; rewrite <- ?Bo, ?Lo; try lia.
    apply newCFB_ok. rewrite length_firstn, (length_bytes s ct Hv). lia. }
  split; [|split].
  - unfold CFBCipher_Decrypt, aes.BlockSize.
    destruct (Nat.ltb_spec (s_len ct) 16); [lia|].
    step slice_to_run. step slice_from_run. unfold NewCFBDecrypter. step newCFB_run.
    erewrite bind_Done.
    2: { apply XORKeyStream_run; [lia|]. apply InexactOverlap_same_start; reflexivity. }
    fold iv out. rewrite Biv, Lo, Bo. reflexivity.
  - apply valid_written, Vo.
  - apply bytes_written_same; [exact Vo | exact Lp].
Qed.

(** ** GCMCipher *)

(** [sliceForAppend(nil, n)]: nothing to extend, so the result is new
    (or empty). *)
Lemma sliceForAppend_nil_run (n : nat) (s : state) :
  exists out s',
    sliceForAppend nil_slice n s = Done (out, out) s'
    /\ valid s' out /\ s_len out = n
    /\ extends s s' /\ strings s' = strings s /\ entropy s' = entropy s
    /\ (n = 0 \/ length (arrays s) <= s_arr out).
Proof.
  unfold sliceForAppend. cbn [s_len s_cap nil_slice Nat.add].
  destruct n as [|n].
  - exists nil_slice, s. cbn [Nat.leb].
    step slice_to_run. step slice_from_run.
    split; [reflexivity|].
    split; [apply valid_nil_slice|].
    split; [reflexivity|].
    split; [apply extends_refl|]. auto.
  - set (h := mkSlice (length (arrays s)) 0 (S n) (S n)).
    set (s1 := written (allocated s (repeat x00 (S n))) h []).
    exists h, s1. cbn [Nat.leb].
    step read_run. step make_run. step write_run. step slice_from_run.
    change (bytes s nil_slice) with (@nil byte). fold h s1.
    assert (E : extends s s1).
    { apply extends_written; [apply extends_allocated | cbn; lia]. }
    assert (L : length (array s1 (length (arrays s))) = S n).
    { unfold s1. rewrite length_array_written, array_allocated_new.
      apply repeat_length. }
    split; [reflexivity|].
    split; [apply valid_whole, L|].
    split; [reflexivity|].
    split; [exact E|].
    split; [reflexivity|].
    split; [reflexivity|]. right. cbn [s_arr h]. lia.
Qed.

(** [Seal(dst, ...)] when [dst] has no room for the result: the result is a
    new array, [dst]'s bytes followed by the sealed message. *)
Lemma Seal_run (b : aes.Block) (dst nonce plaintext data : slice) (s : state) :
  s_len nonce = 12 -> valid s dst -> valid s plaintext ->
  s_cap dst < s_len dst + (s_len plaintext + 16) ->
  exists out s',
    Seal (gcm_of b) dst nonce plaintext data s = Done out s'
    /\ valid s' out
    /\ bytes s' out
       = bytes s dst
           ++ cipher.seal (gcm_of b) (bytes s nonce) (bytes s plaintext) (bytes s data)
    /\ extends s s' /\ strings s' = strings s /\ entropy s' = entropy s.
Proof.
  intros Hn Hd Hp Hcap.
  set (sealed := cipher.seal (gcm_of b) (bytes s nonce) (bytes s plaintext) (bytes s data)).
  set (total := s_len dst + (s_len plaintext + 16)).
  set (A := length (arrays s)).
  set (h := mkSlice A 0 total total).
  set (out := mkSlice A (0 + s_len dst) (total - s_len dst) (total - s_len dst)).
  set (s1 := written (allocated s (repeat x00 total)) h (bytes s dst)).
  set (s2 := written s1 out sealed).
  assert (Ld : length (bytes s dst) = s_len dst) by (apply length_bytes, Hd).
  assert (Ls : length sealed = s_len plaintext + 16).
  { unfold sealed. rewrite length_seal, (length_bytes s plaintext Hp). reflexivity. }
  assert (A1 : array s1 A = bytes s dst ++ repeat x00 (s_len plaintext + 16)).
  { unfold s1. change A with (s_arr h) at 1.
    rewrite array_written_same by (rewrite length_arrays_allocated; cbn; lia).
    cbn [s_arr s_off s_len h]. unfold A. rewrite array_allocated_new.
    unfold total. rewrite repeat_add.
    rewrite (@firstn_all2 _ _ (bytes s dst)) by lia.
    apply copy_at_0_app. rewrite repeat_length. exact Ld. }
  assert (A2 : array s2 A = bytes s dst ++ sealed).
  { unfold s2. change A with (s_arr out) at 1.
    rewrite array_written_same
      by (unfold s1; rewrite length_arrays_written, length_arrays_allocated; cbn; lia).
    cbn [s_arr s_off s_len out]. rewrite A1.
    rewrite (@firstn_all2 _ _ sealed) by (unfold total; lia).
    replace (0 + s_len dst) with (length (bytes s dst)) by lia.
    apply copy_at_app. rewrite repeat_length. exact Ls. }
  assert (L2 : length (array s2 A) = total).
  { rewrite A2, length_app, Ld, Ls. reflexivity. }
  exists h, s2. split; [|split; [|split; [|split; [|split]]]].
  - unfold Seal, sliceForAppend. cbn [cipher.gcm_nonceSize cipher.gcm_tagSize gcm_of].
    rewrite Hn. cbn [Nat.eqb negb].
    step read_run. step read_run. step read_run.
    fold total. destruct (Nat.leb_spec total (s_cap dst)); [unfold total in *; lia|].
    step read_run. step make_run. step write_run. step slice_from_run.
    fold A h s1. rewrite bind_ret. cbv beta iota.
    change (mkSlice (s_arr h) (s_off h + s_len dst) (s_len h - s_len dst)
                    (s_cap h - s_len dst)) with out.
    rewrite (InexactOverlap_fresh s out plaintext Hp) by (cbn [s_arr out]; unfold A; lia).
    step write_run. reflexivity.
  - apply valid_whole, L2.
  - unfold h. rewrite bytes_whole by exact L2. exact A2.
  - unfold s2, s1. apply extends_written; [|cbn; lia].
    apply extends_written; [apply extends_allocated | cbn; lia].
  - reflexivity.
  - reflexivity.
Qed.

Lemma GCMCipher_Encrypt_run (c : GCMCipher) (value : slice) (s : state) :
  valid s value -> 12 <= length (entropy s) ->
  exists ct s',
    GCMCipher_Encrypt c value s = Done (ct, None) s'
    /\ valid s' ct
    /\ bytes s' ct = ciphertext_of (Authenticated (GCM_Block c)) (bytes s value) (entropy s)
    /\ extends s s' /\ strings s' = strings s
    /\ entropy s' = skipn 12 (entropy s).
Proof.
  intros Hv He.
  set (A := length (arrays s)).
  set (nonce := mkSlice A 0 12 12).
  set (s1 := allocated s (repeat x00 12)).
  set (s2 := drawn (written s1 nonce (firstn 12 (entropy s1))) 12).
  assert (Hn : length (firstn 12 (entropy s)) = 12) by (rewrite length_firstn; lia).
  assert (E12 : extends s s2).
  { apply extends_drawn, extends_written; [apply extends_allocated | cbn; lia]. }
  destruct (extends_valid s s2 value E12 Hv) as (Hv2 & Hb2).
  assert (A2 : array s2 A = firstn 12 (entropy s)).
  { unfold s2. change (array (drawn ?x _) A) with (array x A).
    change A with (s_arr nonce) at 1. rewrite array_written_same
      by (unfold s1; rewrite length_arrays_allocated; cbn; lia).
    cbn [s_arr s_off s_len nonce]. unfold s1 at 1. unfold A. rewrite array_allocated_new.
    rewrite firstn_firstn, Nat.min_id.
    rewrite <- (app_nil_r (repeat x00 12)), copy_at_0_app, app_nil_r; auto. }
  assert (Vn : valid s2 nonce) by (apply valid_whole; rewrite A2; exact Hn).
  assert (Bn : bytes s2 nonce = firstn 12 (entropy s)).
  { unfold nonce. rewrite bytes_whole by (rewrite A2; exact Hn). exact A2. }
  destruct (Seal_run (GCM_Block c) nonce nonce value nil_slice s2 eq_refl Vn Hv2)
    as (ct & s3 & ES & Vct & Bct & E23 & S23 & R23); [cbn; lia|].
  exists ct, s3. split; [|split; [|split; [|split; [|split]]]].
  - unfold GCMCipher_Encrypt. rewrite NewGCM_run.
    cbn [cipher.gcm_nonceSize gcm_of].
    step make_run. step ReadFull_rand_run. step ES. reflexivity.
  - exact Vct.
  - rewrite Bct, Bn, Hb2. reflexivity.
  - apply (extends_trans s s2 s3); assumption.
  - rewrite S23. reflexivity.
  - rewrite R23. reflexivity.
Qed.

(** [Open(nil, ...)] on a nonce of the right size and a body long enough to
    hold a tag: the tag decides. *)
Lemma Open_run (b : aes.Block) (nonce ct : slice) (s : state) :
  s_len nonce = 12 -> valid s ct -> 16 <= s_len ct ->
  let c := bytes s ct in
  let body := firstn (length c - 16) c in
  let tag := skipn (length c - 16) c in
  exists out s',
    Open (gcm_of b) nil_slice nonce ct nil_slice s
    = Done (if bytes_eqb (cipher.expectedTag (gcm_of b) (bytes s nonce) body []) tag
            then (out, None) else (nil_slice, Some cipher_errOpen)) s'
    /\ valid s' out
    /\ (bytes_eqb (cipher.expectedTag (gcm_of b) (bytes s nonce) body []) tag = true ->
        bytes s' out = cipher.unseal (gcm_of b) (bytes s nonce) body)
    /\ extends s s' /\ strings s' = strings s /\ entropy s' = entropy s.
Proof.
  intros Hn Hv Hl c body tag.
  assert (Lc : length c = s_len ct) by (apply length_bytes, Hv).
  assert (Lb : length body = s_len ct - 16)
    by (unfold body; rewrite length_firstn; lia).
  destruct (sliceForAppend_nil_run (length body) s)
    as (out & s1 & ES & Vo & Lo & E1 & S1 & R1 & Fresh).
  set (ok := bytes_eqb (cipher.expectedTag (gcm_of b) (bytes s nonce) body []) tag).
  set (data := if ok then cipher.unseal (gcm_of b) (bytes s nonce) body
               else repeat x00 (length body)).
  assert (Ld : length data = s_len out).
  { unfold data, cipher.unseal. destruct ok.
    - rewrite length_counterCrypt; lia.
    - rewrite repeat_length. lia. }
  exists out, (written s1 out data).
  split; [|split; [|split; [|split; [|split]]]].
  - unfold Open. cbn [cipher.gcm_nonceSize cipher.gcm_tagSize gcm_of].
    rewrite Hn. cbn [Nat.eqb negb].
    destruct (Nat.ltb_spec (s_len ct) 16); [lia|].
    step read_run. step read_run. step read_run. fold c body tag.
    change (bytes s nil_slice) with (@nil byte).
    step ES.
    assert (NO : InexactOverlap out (mkSlice (s_arr ct) (s_off ct) (length body) (s_cap ct))
                 = false).
    { destruct Fresh as [Z|F].
      - apply InexactOverlap_empty. right. exact Z.
      - apply (InexactOverlap_fresh s); [|exact F].
        destruct Hv. unfold valid; cbn [s_arr s_off s_len s_cap]. lia. }
    rewrite NO. fold ok. unfold data. destruct ok; cbn [negb]; step write_run; reflexivity.
  - apply valid_written, Vo.
  - fold ok. intros ->. unfold data. apply bytes_written_same; [exact Vo|].
    unfold cipher.unseal. rewrite length_counterCrypt; lia.
  - destruct Fresh as [Z|F].
    + apply extends_written_empty; [exact E1 | lia].
    + apply extends_written; [exact E1 | exact F].
  - exact S1.
  - exact R1.
Qed.

(** [GCMCipher.Decrypt] has no length check of its own: an input shorter
    than the nonce makes one of the two slice expressions panic. *)
Lemma GCMCipher_Decrypt_short (c : GCMCipher) (ct : slice) (s : state) :
  s_len ct < 12 ->
  GCMCipher_Decrypt c ct s
  = Panicked (if s_cap ct <? 12 then BoundsCap 12 (s_cap ct)
              else BoundsLen 12 (s_len ct)) s.
Proof.
  intros H. unfold GCMCipher_Decrypt. rewrite NewGCM_run.
  cbn [cipher.gcm_nonceSize gcm_of].
  destruct (Nat.ltb_spec (s_cap ct) 12).
  - apply bind_Panicked, slice_to_panic. assumption.
  - step slice_to_run. apply bind_Panicked, slice_from_panic. assumption.
Qed.

(** Room for the nonce but not for a tag: [Open] refuses. *)
Lemma GCMCipher_Decrypt_truncated (c : GCMCipher) (ct : slice) (s : state) :
  s_len ct <= s_cap ct -> 12 <= s_len ct < 28 ->
  GCMCipher_Decrypt c ct s = Done (nil_slice, Some cipher_errOpen) s.
Proof.
  intros Hc H. unfold GCMCipher_Decrypt. rewrite NewGCM_run.
  cbn [cipher.gcm_nonceSize gcm_of].
  step slice_to_run. step slice_from_run.
  unfold Open. cbn [cipher.gcm_nonceSize cipher.gcm_tagSize gcm_of s_len Nat.eqb negb].
  destruct (Nat.ltb_spec (s_len ct - 12) 16); [|lia].
  rewrite bind_ret. reflexivity.
Qed.

Lemma GCMCipher_Decrypt_run (c : GCMCipher) (ct : slice) (s : state) :
  valid s ct -> 28 <= s_len ct ->
  let nonce := firstn 12 (bytes s ct) in
  let sealed := skipn 12 (bytes s ct) in
  let body := firstn (length sealed - 16) sealed in
  let tag := skipn (length sealed - 16) sealed in
  let ok := bytes_eqb (cipher.expectedTag (gcm_of (GCM_Block c)) nonce body []) tag in
  exists out s',
    GCMCipher_Decrypt c ct s
    = Done (if ok then (out, None) else (nil_slice, Some cipher_errOpen)) s'
    /\ valid s' out
    /\ (ok = true -> bytes s' out = cipher.unseal (gcm_of (GCM_Block c)) nonce body)
    /\ extends s s' /\ strings s' = strings s /\ entropy s' = entropy s.
Proof.
  intros Hv Hl nonce sealed body tag ok. pose proof Hv as (Hlc & Hc).
  set (ns := mkSlice (s_arr ct) (s_off ct) 12 (s_cap ct)).
  set (cs := mkSlice (s_arr ct) (s_off ct + 12) (s_len ct - 12) (s_cap ct - 12)).
  assert (Vc : valid s cs) by (unfold valid, cs; cbn [s_arr s_off s_len s_cap]; lia).
  assert (Bn : bytes s ns = nonce).
  { unfold nonce, bytes; cbn [s_arr s_off s_len ns]. rewrite firstn_firstn. f_equal. lia. }
  assert (Bc : bytes s cs = sealed).
  { unfold sealed, bytes; cbn [s_arr s_off s_len cs].
    rewrite skipn_firstn_comm, skipn_skipn. do 2 f_equal. lia. }
  destruct (Open_run (GCM_Block c) ns cs s eq_refl Vc) as (out & s' & EO & Vo & Bo & Rest);
    [cbn [s_len cs]; lia|].
  rewrite Bn, Bc in EO, Bo. fold body tag ok in EO, Bo.
  exists out, s'. split; [|split; [exact Vo | split; [exact Bo | exact Rest]]].
  unfold GCMCipher_Decrypt. rewrite NewGCM_run. cbn [cipher.gcm_nonceSize gcm_of].
  step slice_to_run. step slice_from_run. fold ns cs. step EO.
  destruct ok; reflexivity.
Qed.

(** ** Base64Cipher *)

Lemma DecodeString_run (str : gostring) (s : state) :
  let d := fst (base64.decodeString str) in
  let buf := d ++ repeat x00 (base64.DecodedLen (length str) - length d) in
  let out := mkSlice (length (arrays s)) 0 (length d) (length buf) in
  DecodeString str s
  = Done (out, option_map base64_CorruptInputError (snd (base64.decodeString str)))
         (allocated s buf)
  /\ valid (allocated s buf) out
  /\ bytes (allocated s buf) out = d.
Proof.
  intros d buf out. split; [|split].
  - unfold DecodeString. fold d buf. step alloc_run.
    erewrite bind_Done
      by (apply slice_to_run; cbn [s_cap]; unfold buf; rewrite length_app; lia).
    reflexivity.
  - unfold valid, out; cbn [s_arr s_off s_len s_cap]. rewrite array_allocated_new.
    unfold buf. rewrite length_app. lia.
  - unfold bytes, out; cbn [s_arr s_off s_len skipn]. rewrite array_allocated_new.
    unfold buf. rewrite firstn_app, Nat.sub_diag, firstn_O, app_nil_r.
    apply firstn_all.
Qed.

Lemma Base64Cipher_Encrypt_run (c : Base64Cipher) (inner : Cipher) (value : slice)
      (s : state) :
  Base64_Cipher c = Some inner ->
  Base64Cipher_Encrypt c value s
  = match Encrypt inner value s with
    | Done (encrypted, None) s1 =>
        let str := base64.EncodeToString (bytes s1 encrypted) in
        Done (mkSlice (length (arrays s1)) 0 (length str) (length str), None)
             (allocated s1 str)
    | Done (_, Some e) s1 => Done (nil_slice, Some e) s1
    | Panicked p s1 => Panicked p s1
    end.
Proof.
  intros Hc. unfold Base64Cipher_Encrypt. rewrite Hc. cbn [call].
  unfold bind at 1. destruct (Encrypt inner value s) as [[e [err|]] s1|p s1];
    reflexivity.
Qed.

Lemma Base64Cipher_Decrypt_run (c : Base64Cipher) (inner : Cipher) (ct : slice)
      (s : state) :
  Base64_Cipher c = Some inner ->
  let str := bytes s ct in
  let d := fst (base64.decodeString str) in
  let buf := d ++ repeat x00 (base64.DecodedLen (length str) - length d) in
  let encrypted := mkSlice (length (arrays s)) 0 (length d) (length buf) in
  Base64Cipher_Decrypt c ct s
  = match snd (base64.decodeString str) with
    | Some offset =>
        Done (nil_slice, Some (Errorf_decode (base64_CorruptInputError offset)))
             (allocated s buf)
    | None => Decrypt inner encrypted (allocated s buf)
    end.
Proof.
  intros Hc str d buf encrypted. unfold Base64Cipher_Decrypt. rewrite Hc.
  unfold string_of_bytes. step read_run.
  destruct (DecodeString_run str s) as (E & _). fold str. step E.
  destruct (snd (base64.decodeString str)); reflexivity.
Qed.

(** ** The in-place helper *)

Lemma load_run (a : nat) (v : gostring) (s : state) :
  nth_error (strings s) a = Some v -> load a s = Done v s.
Proof. intros H. unfold load. rewrite H. reflexivity. Qed.

Lemma into_nil (f : codecFunc) (s : state) : into f None s = Done None s.
Proof. reflexivity. Qed.

Lemma into_empty (f : codecFunc) (a : nat) (s : state) :
  nth_error (strings s) a = Some [] -> into f (Some a) s = Done None s.
Proof. intros H. unfold into. step load_run. reflexivity. Qed.

(** With the pass-through codec of [DefaultCipher], [into] copies the
    string to a new array and stores the same bytes back. *)
Lemma into_pass_through (f : codecFunc) (a : nat) (v : gostring) (s : state) :
  (forall b s1, f b s1 = Done (b, None) s1) ->
  nth_error (strings s) a = Some v -> v <> [] ->
  into f (Some a) s = Done None (allocated s v).
Proof.
  intros Hf Hs Hv. unfold into. step load_run.
  destruct v as [|x v]; [congruence|].
  unfold bytes_of_string, string_of_bytes. step alloc_run. step Hf. step read_run.
  rewrite bytes_whole by (rewrite array_allocated_new; reflexivity).
  rewrite array_allocated_new.
  unfold bind, store. cbn [strings allocated arrays entropy]. rewrite Hs.
  rewrite (set_nth_same _ _ _ Hs). reflexivity.
Qed.

(* ===================================================================== *)
(** * Encrypt and Decrypt of every instance *)
(* ===================================================================== *)

Lemma Encrypt_run (i : Instance) :
  forall (value : slice) (s : state),
    valid s value -> draws i <= length (entropy s) ->
    exists ct s',
      Encrypt (instance i) value s = Done (ct, None) s'
      /\ valid s' ct
      /\ bytes s' ct = ciphertext_of i (bytes s value) (entropy s)
      /\ extends s s' /\ strings s' = strings s
      /\ entropy s' = skipn (draws i) (entropy s).
Proof.
  induction i as [|b|b|inner IH]; intros value s Hv He.
  - exists value, s. cbn. repeat split; auto using extends_refl; apply Hv.
  - apply (CFBCipher_Encrypt_run (mkCFBCipher mkDefaultCipher b)); assumption.
  - apply (GCMCipher_Encrypt_run (mkGCMCipher mkDefaultCipher b)); assumption.
  - destruct (IH value s Hv He) as (e & s1 & EI & Ve & Be & E1 & S1 & R1).
    set (str := base64.EncodeToString (bytes s1 e)).
    exists (mkSlice (length (arrays s1)) 0 (length str) (length str)), (allocated s1 str).
    assert (L : length (array (allocated s1 str) (length (arrays s1))) = length str)
      by (rewrite array_allocated_new; reflexivity).
    split; [|split; [|split; [|split; [|split]]]].
    + cbn [instance Encrypt Base64Cipher_as_Cipher].
      rewrite (Base64Cipher_Encrypt_run _ (instance inner)) by reflexivity.
      rewrite EI. reflexivity.
    + apply valid_whole, L.
    + rewrite bytes_whole by exact L. rewrite array_allocated_new.
      unfold str. rewrite Be. reflexivity.
    + apply (extends_trans s s1); [exact E1 | apply extends_allocated].
    + exact S1.
    + exact R1.
Qed.

Lemma Decrypt_run (i : Instance) :
  forall (ct : slice) (s : state) (p : list byte),
    valid s ct -> plaintext_of i (bytes s ct) = Some p ->
    exists out s',
      Decrypt (instance i) ct s = Done (out, None) s'
      /\ valid s' out /\ bytes s' out = p
      /\ strings s' = strings s /\ entropy s' = entropy s.
Proof.
  induction i as [|b|b|inner IH]; intros ct s p Hv Hp;
    pose proof (length_bytes s ct Hv) as Lc; cbn [plaintext_of] in Hp.
  - injection Hp as <-. exists ct, s. repeat split; auto; apply Hv.
  - rewrite Lc in Hp. destruct (Nat.ltb_spec (s_len ct) 16); [discriminate|].
    injection Hp as <-.
    destruct (CFBCipher_Decrypt_run (mkCFBCipher mkDefaultCipher b) ct s Hv)
      as (E & V & B); [assumption|].
    eexists _, _. split; [exact E|]. cbn [CFB_Block] in *. auto.
  - rewrite Lc in Hp. destruct (Nat.ltb_spec (s_len ct) (12 + 16)); [discriminate|].
    destruct (GCMCipher_Decrypt_run (mkGCMCipher mkDefaultCipher b) ct s Hv)
      as (out & s' & E & V & B & _ & S & R); [lia|].
    cbn [GCM_Block] in *.
    destruct (bytes_eqb _ _); [|discriminate]. injection Hp as <-.
    exists out, s'. auto.
  - destruct (base64.decodeString (bytes s ct)) as [d [off|]] eqn:ED; [discriminate|].
    destruct (DecodeString_run (bytes s ct) s) as (_ & V & B).
    rewrite ED in V, B. cbn [fst] in V, B.
    destruct (IH _ _ p V) as (out & s' & E & Vo & Bo & S & R); [rewrite B; exact Hp|].
    exists out, s'. split; [|auto].
    cbn [instance Decrypt Base64Cipher_as_Cipher].
    rewrite (Base64Cipher_Decrypt_run _ (instance inner)) by reflexivity.
    rewrite ED. cbn [fst snd]. exact E.
Qed.

(** ** Text the decoder accepts *)

Definition in_alphabet (c : byte) : bool :=
  negb (Strings.Byte.eqb (base64.decodeMap c) base64.xff).

(** Standard base64 text (RFC 4648, section 4) without its line breaks:
    groups of four characters of the alphabet, the last group possibly
    ending in one or two padding characters.  [j] counts the characters
    read of the current group. *)
Fixpoint well_formed (j : nat) (text : list byte) : bool :=
  match text with
  | [] => j =? 0
  | c :: rest =>
      if in_alphabet c then well_formed (if j =? 3 then 0 else S j) rest
      else if Strings.Byte.eqb c base64.padChar then
        match j with
        | 0 | 1 => false
        | 2 =>
            match rest with
            | [c2] => Strings.Byte.eqb c2 base64.padChar
            | _ => false
            end
        | _ =>
            match rest with
            | [] => true
            | _ :: _ => false
            end
        end
      else false
  end.

Definition strip_newlines (text : list byte) : list byte :=
  filter (fun c => negb (base64.is_newline c)) text.

(** Valid standard base64 text, line breaks (CR, LF) being ignored. *)
Definition standard_base64 (text : list byte) : bool :=
  well_formed 0 (strip_newlines text).

Example standard_base64_examples :
  map (fun t => standard_base64 (ascii t))
      [""; "Zg=="; "Zm8="; "Zm9v"; "Zm9vYg=="; "Zg="; "Zg"; "Z==="; "Zm9v="; "Zg==Zg==";
       "Zm9*"; "Zm 9v"]
  = [true; true; true; true; true; false; false; false; false; false; false; false].
Proof. vm_compute. reflexivity. Qed.








(** ** Changing the last byte of a message *)

(** [l[len(l)-1]++] on the bytes of [l]. *)
Definition incr_last (l : list byte) : list byte :=
  removelast l ++ [byte.of_Z (byte.unsigned (last l x00) + 1)].

Lemma byte_succ_neq (x : byte) : byte.of_Z (byte.unsigned x + 1) <> x.
Proof.
  intros E. apply (f_equal byte.unsigned) in E. rewrite byte.unsigned_of_Z in E.
  unfold byte.wrap in E. pose proof (byte.unsigned_range x) as R.
  destruct (Z.eq_dec (byte.unsigned x) 255) as [F|F].
  - rewrite F in E. discriminate.
  - rewrite Z.mod_small in E by lia. lia.
Qed.

Lemma incr_last_neq (l : list byte) : l <> [] -> incr_last l <> l.
Proof.
  intros Hl E. unfold incr_last in E.
  rewrite (app_removelast_last x00 Hl) in E at 3.
  apply app_inv_head in E. injection E as E. exact (byte_succ_neq _ E).
Qed.

Lemma last_app_nonempty (a b : list byte) (d : byte) :
  b <> [] -> last (a ++ b) d = last b d.
Proof.
  intros Hb. induction a as [|x a IH]; [reflexivity|].
  cbn [app]. destruct (a ++ b) eqn:E; [|cbn [last] in *; exact IH].
  apply app_eq_nil in E. destruct E. contradiction.
Qed.

Lemma incr_last_app (a b : list byte) : b <> [] -> incr_last (a ++ b) = a ++ incr_last b.
Proof.
  intros Hb. unfold incr_last.
  rewrite removelast_app, last_app_nonempty, app_assoc by exact Hb. reflexivity.
Qed.

Lemma length_incr_last (l : list byte) : l <> [] -> length (incr_last l) = length l.
Proof.
  intros Hl. unfold incr_last. rewrite (app_removelast_last x00 Hl) at 3.
  rewrite !length_app. reflexivity.
Qed.

Lemma nonempty_length (l : list byte) : 0 < length l -> l <> [].
Proof. destruct l; simpl; [lia | discriminate]. Qed.

(** A sealed message whose last byte was changed is refused. *)
Lemma GCMCipher_Decrypt_tampered (b : aes.Block) (p ent : list byte) (ct : slice)
      (s : state) :
  12 <= length ent -> valid s ct ->
  bytes s ct = incr_last (ciphertext_of (Authenticated b) p ent) ->
  exists s', Decrypt (instance (Authenticated b)) ct s
             = Done (nil_slice, Some cipher_errOpen) s'.
Proof.
  intros He Hv Hb. cbn [ciphertext_of] in Hb.
  set (nonce := firstn 12 ent) in *.
  assert (Ln : length nonce = 12) by (unfold nonce; rewrite length_firstn; lia).
  rewrite seal_layout in Hb.
  set (body := sealed_body (gcm_of b) nonce p) in *.
  set (tag := sealed_tag (gcm_of b) nonce p []) in *.
  assert (Lt : length tag = 16) by apply length_sealed_tag.
  assert (Nt : tag <> []) by (apply nonempty_length; lia).
  rewrite !incr_last_app in Hb
    by (try exact Nt; apply nonempty_length; rewrite length_app; lia).
  assert (Lb : length body = length p) by apply length_sealed_body.
  assert (Lc : s_len ct = 12 + (length p + 16)).
  { rewrite <- (length_bytes s ct Hv), Hb, !length_app, Ln, Lb, length_incr_last, Lt
      by exact Nt. reflexivity. }
  destruct (GCMCipher_Decrypt_run (mkGCMCipher mkDefaultCipher b) ct s Hv)
    as (out & s' & E & _); [lia|].
  exists s'. cbn [instance Decrypt GCMCipher_as_Cipher]. rewrite E. clear E.
  cbn [GCM_Block]. rewrite Hb.
  rewrite firstn_app, Ln, Nat.sub_diag, firstn_O, app_nil_r, (firstn_all2 nonce) by lia.
  rewrite skipn_app, Ln, Nat.sub_diag, (skipn_all2 nonce) by lia. cbn [skipn app].
  rewrite length_app, length_incr_last, Lt by exact Nt.
  replace (length body + 16 - 16) with (length body) by lia.
  rewrite firstn_app, Nat.sub_diag, firstn_O, app_nil_r, firstn_all.
  rewrite skipn_app, Nat.sub_diag, skipn_all. cbn [skipn app].
  fold (sealed_tag (gcm_of b) nonce p []). fold tag.
  rewrite bytes_eqb_neq; [reflexivity|].
  intros F. symmetry in F. exact (incr_last_neq tag Nt F).
Qed.

(* ===================================================================== *)
(** * The properties of the package *)
(* ===================================================================== *)

(** Concrete inputs. *)
Definition zero_key (n : nat) : aes.Block := aes.mkBlock (aes.expandKey (repeat x00 n)).

Lemma EncryptInto_promoted (i : Instance) :
  EncryptInto (instance i) = DefaultCipher_EncryptInto mkDefaultCipher
  /\ DecryptInto (instance i) = DefaultCipher_DecryptInto mkDefaultCipher.
Proof. destruct i; split; reflexivity. Qed.

(** For every instance the in-place helpers run the pass-through codec of
    the embedded [DefaultCipher]: the string keeps its bytes, and nothing is
    drawn from the random source. *)
Lemma into_helpers_pass_through (i : Instance) (a : nat) (v : gostring) (s : state) :
  nth_error (strings s) a = Some v -> v <> [] ->
  EncryptInto (instance i) (Some a) s = Done None (allocated s v)
  /\ DecryptInto (instance i) (Some a) s = Done None (allocated s v).
Proof.
  intros Hs Hv. destruct (EncryptInto_promoted i) as (-> & ->).
  split; apply into_pass_through; auto.
Qed.

(** C1. For the variants that embed the base cipher, [EncryptInto] on a
    non-empty string should store that variant's [Encrypt] of the string.
    The code does not: on the string "hello" the CFB variant's [EncryptInto]
    reports success and leaves "hello" in place, while its [Encrypt] of the
    same bytes gives other bytes. *)
Theorem EncryptInto_leaves_the_plaintext :
  let c := instance (Stream (zero_key 16)) in
  let s := mkState [ascii "hello"] [ascii "hello"] (repeat x00 16) in
  (exists s', EncryptInto c (Some 0) s = Done None s'
              /\ nth_error (strings s') 0 = Some (ascii "hello")
              /\ entropy s' = entropy s)
  /\ (exists ct s', Encrypt c (mkSlice 0 0 5 5) s = Done (ct, None) s'
                    /\ bytes s' ct = repeat x00 16 ++ hex "0e8c27b880").
Proof.
  split.
  - eexists. split; [vm_compute; reflexivity|]. split; reflexivity.
  - eexists _, _. split; vm_compute; reflexivity.
Qed.

(** C2. [Decrypt] of the GCM variant on an input shorter than the nonce
    should return an error.  The code panics: on a 3-byte input the slice
    expression [ciphertext[:nonceSize]] is out of range. *)
Theorem GCMCipher_Decrypt_panics_on_short_input :
  let s := mkState [hex "010203"] [] [] in
  Decrypt (instance (Authenticated (zero_key 16))) (mkSlice 0 0 3 3) s
  = Panicked (BoundsCap 12 3) s.
Proof. vm_compute. reflexivity. Qed.

(** What [CFBCipher.Decrypt] leaves in the caller's buffer: the IV,
    followed by the plaintext where the ciphertext was. *)
Lemma CFBCipher_Decrypt_in_place (b : aes.Block) (ct : slice) (s : state) :
  valid s ct -> 16 <= s_len ct ->
  exists out s',
    Decrypt (instance (Stream b)) ct s = Done (out, None) s'
    /\ s_arr out = s_arr ct
    /\ bytes s' ct = firstn 16 (bytes s ct) ++ bytes s' out.
Proof.
  intros Hv Hl. pose proof Hv as (Hlc & Hc).
  destruct (CFBCipher_Decrypt_run (mkCFBCipher mkDefaultCipher b) ct s Hv Hl)
    as (E & V & B).
  cbn [CFB_Block] in *.
  set (p := fst (cipher.xorKeyStream (s_len ct - 16)
                   (cipher.newCFB b (firstn 16 (bytes s ct)) true)
                   (skipn 16 (bytes s ct)))) in *.
  set (out := mkSlice (s_arr ct) (s_off ct + 16) (s_len ct - 16) (s_cap ct - 16)) in *.
  assert (Lp : length p = s_len ct - 16).
  { rewrite <- B. apply (length_bytes _ out V). }
  exists out, (written s out p). split; [exact E|]. split; [reflexivity|].
  rewrite B. unfold bytes at 1.
  change (s_arr ct) with (s_arr out).
  rewrite array_written_same by (apply (valid_nonempty s ct Hv); lia).
  cbn [s_arr s_off s_len out].
  rewrite (@firstn_all2 _ (s_len ct - 16) p) by lia.
  rewrite copy_at_fits by lia.
  rewrite skipn_app, length_firstn.
  replace (s_off ct - Nat.min (s_off ct + 16) (length (array s (s_arr ct)))) with 0 by lia.
  cbn [skipn]. rewrite skipn_firstn_comm.
  replace (s_off ct + 16 - s_off ct) with 16 by lia.
  rewrite firstn_app, length_firstn, length_skipn.
  replace (Nat.min 16 (length (array s (s_arr ct)) - s_off ct)) with 16 by lia.
  rewrite (@firstn_all2 _ (s_len ct) (firstn 16 _)) by (rewrite length_firstn; lia).
  rewrite firstn_app, Lp.
  replace (s_len ct - 16 - (s_len ct - 16)) with 0 by lia.
  rewrite firstn_O, app_nil_r, (@firstn_all2 _ (s_len ct - 16) p) by lia.
  unfold bytes. rewrite firstn_firstn.
  replace (Nat.min 16 (s_len ct)) with 16 by lia. reflexivity.
Qed.

(** C3. [Encrypt] and [Decrypt] should leave the caller's bytes as they
    were.  [CFBCipher.Decrypt] does not: it decrypts in place, and the slice
    it returns is a window of the caller's array.  Here a 17-byte buffer of
    zeros ends with 0x66 after the call. *)
Theorem CFBCipher_Decrypt_overwrites_its_input :
  let s := mkState [repeat x00 17] [] [] in
  let ct := mkSlice 0 0 17 17 in
  exists out s',
    Decrypt (instance (Stream (zero_key 16))) ct s = Done (out, None) s'
    /\ s_arr out = s_arr ct
    /\ bytes s ct = repeat x00 17
    /\ bytes s' ct = repeat x00 16 ++ [Init.Byte.x66].
Proof.
  eexists _, _. split; [vm_compute; reflexivity|]. repeat split.
Qed.

(** C4. For every instance and every plaintext (the empty one included),
    whenever the random source can deliver the bytes [Encrypt] draws,
    [Encrypt] returns a ciphertext, and [Decrypt] of that ciphertext
    returns a slice holding exactly the plaintext. *)
Theorem Decrypt_Encrypt (i : Instance) (value : slice) (s : state) :
  valid s value -> draws i <= length (entropy s) ->
  exists ct s1 out s2,
    Encrypt (instance i) value s = Done (ct, None) s1
    /\ Decrypt (instance i) ct s1 = Done (out, None) s2
    /\ bytes s2 out = bytes s value.
Proof.
  intros Hv He.
  destruct (Encrypt_run i value s Hv He) as (ct & s1 & EE & Vc & Bc & _).
  destruct (Decrypt_run i ct s1 (bytes s value) Vc) as (out & s2 & ED & _ & Bo & _).
  - rewrite Bc. apply plaintext_of_ciphertext_of, He.
  - exists ct, s1, out, s2. auto.
Qed.

Lemma Decrypt_Encrypt_witness :
  let i := Encoded (Stream (zero_key 32)) in
  let s := mkState [ascii "hello world"; []] [] (repeat x00 16) in
  (valid s (mkSlice 0 0 11 11) /\ draws i <= length (entropy s))
  /\ (valid s (mkSlice 1 0 0 0) /\ draws i <= length (entropy s))
  /\ (exists ct s1 out s2,
        Encrypt (instance i) (mkSlice 0 0 11 11) s = Done (ct, None) s1
        /\ Decrypt (instance i) ct s1 = Done (out, None) s2
        /\ bytes s2 out = bytes s (mkSlice 0 0 11 11))
  /\ (exists ct s1 out s2,
        Encrypt (instance i) (mkSlice 1 0 0 0) s = Done (ct, None) s1
        /\ Decrypt (instance i) ct s1 = Done (out, None) s2
        /\ bytes s2 out = bytes s (mkSlice 1 0 0 0)).
Proof.
  intros i s.
  assert (V1 : valid s (mkSlice 0 0 11 11)) by (unfold valid; cbn; lia).
  assert (V2 : valid s (mkSlice 1 0 0 0)) by (unfold valid; cbn; lia).
  assert (D : draws i <= length (entropy s)) by (cbn; lia).
  split; [auto|]. split; [auto|]. split.
  - exact (Decrypt_Encrypt i (mkSlice 0 0 11 11) s V1 D).
  - exact (Decrypt_Encrypt i (mkSlice 1 0 0 0) s V2 D).
Defined.

(** C5. With a Secret of 32 zero bytes and the plaintext "hello world", the
    GCM variant's [Encrypt] returns 39 bytes: the 12-byte nonce it drew, an
    11-byte body and a 16-byte tag; [Decrypt] of them returns "hello world";
    and [Decrypt] of the same bytes with the last one incremented fails with
    the library's authentication error. *)
Theorem GCM_hello_world (secret value : slice) (s : state) :
  valid s secret -> bytes s secret = repeat x00 32 ->
  valid s value -> bytes s value = ascii "hello world" ->
  12 <= length (entropy s) ->
  exists c ct s1,
    NewGCMCipher secret s = Done (Some c, None) s
    /\ Encrypt c value s = Done (ct, None) s1
    /\ (exists nonce body tag,
          bytes s1 ct = nonce ++ body ++ tag
          /\ nonce = firstn 12 (entropy s)
          /\ length nonce = 12 /\ length body = 11 /\ length tag = 16)
    /\ length (bytes s1 ct) = 39
    /\ (exists out s2,
          Decrypt c ct s1 = Done (out, None) s2 /\ bytes s2 out = ascii "hello world")
    /\ (forall ct' s',
          valid s' ct' -> bytes s' ct' = incr_last (bytes s1 ct) ->
          exists s2, Decrypt c ct' s' = Done (nil_slice, Some cipher_errOpen) s2)
    /\ kind cipher_errOpen = AuthenticationError.
Proof.
  intros Vs Bs Vv Bv He.
  assert (Ls : s_len secret = 32).
  { rewrite <- (length_bytes s secret Vs), Bs. apply repeat_length. }
  set (i := Authenticated (zero_key 32)).
  destruct (Encrypt_run i value s Vv He) as (ct & s1 & EE & Vc & Bc & _).
  destruct (Decrypt_run i ct s1 (bytes s value) Vc) as (out & s2 & ED & _ & Bo & _);
    [rewrite Bc; apply plaintext_of_ciphertext_of, He|].
  assert (Ln : length (firstn 12 (entropy s)) = 12) by (rewrite length_firstn; lia).
  assert (Lp : length (bytes s value) = 11) by (rewrite Bv; reflexivity).
  cbn [ciphertext_of i] in Bc. rewrite seal_layout in Bc.
  exists (instance i), ct, s1.
  split; [|split; [exact EE | split; [|split; [|split; [|split]]]]].
  - unfold NewGCMCipher, aes_NewCipher. step read_run. rewrite Ls, Bs. reflexivity.
  - eexists _, _, _. split; [exact Bc|]. split; [reflexivity|]. split; [exact Ln|].
    split; [rewrite length_sealed_body; exact Lp | apply length_sealed_tag].
  - rewrite Bc, !length_app, Ln, length_sealed_body, length_sealed_tag, Lp. reflexivity.
  - exists out, s2. rewrite <- Bv. auto.
  - intros ct' s' Vc' Bc'.
    apply (GCMCipher_Decrypt_tampered (zero_key 32) (bytes s value) (entropy s));
      [exact He | exact Vc'|].
    rewrite Bc', Bc. cbn [ciphertext_of]. rewrite seal_layout. reflexivity.
  - reflexivity.
Qed.

Lemma GCM_hello_world_witness :
  let s := mkState [repeat x00 32; ascii "hello world"] []
             (hex "cafebabefacedbaddecaf888") in
  let secret := mkSlice 0 0 32 32 in
  let value := mkSlice 1 0 11 11 in
  (valid s secret /\ bytes s secret = repeat x00 32
   /\ valid s value /\ bytes s value = ascii "hello world"
   /\ 12 <= length (entropy s))
  /\ exists c ct s1,
       NewGCMCipher secret s = Done (Some c, None) s
       /\ Encrypt c value s = Done (ct, None) s1
       /\ (exists nonce body tag,
             bytes s1 ct = nonce ++ body ++ tag
             /\ nonce = firstn 12 (entropy s)
             /\ length nonce = 12 /\ length body = 11 /\ length tag = 16)
       /\ length (bytes s1 ct) = 39
       /\ (exists out s2,
             Decrypt c ct s1 = Done (out, None) s2
             /\ bytes s2 out = ascii "hello world")
       /\ (forall ct' s',
             valid s' ct' -> bytes s' ct' = incr_last (bytes s1 ct) ->
             exists s2, Decrypt c ct' s' = Done (nil_slice, Some cipher_errOpen) s2)
       /\ kind cipher_errOpen = AuthenticationError.
Proof.
  intros s secret value.
  assert (V1 : valid s secret) by (unfold valid; cbn; lia).
  assert (V2 : valid s value) by (unfold valid; cbn; lia).
  assert (B1 : bytes s secret = repeat x00 32) by reflexivity.
  assert (B2 : bytes s value = ascii "hello world") by reflexivity.
  assert (E : 12 <= length (entropy s)) by (cbn; lia).
  split; [auto 6|].
  exact (GCM_hello_world secret value s V1 B1 V2 B2 E).
Defined.

(** C6. [Decrypt] of the CFB variant on fewer than 16 bytes returns the
    "should be at least 16 bytes" error and touches nothing; on 16 bytes or
    more it returns no error: it takes the first 16 bytes as the IV and
    returns the rest xored with the key stream the IV regenerates, that is
    the CFB decryption of the rest. *)
Theorem CFBCipher_Decrypt_spec (b : aes.Block) (ct : slice) (s : state) :
  valid s ct ->
  let iv := firstn 16 (bytes s ct) in
  let body := skipn 16 (bytes s ct) in
  if s_len ct <? 16
  then Decrypt (instance (Stream b)) ct s
       = Done (nil_slice, Some (Errorf_short 16 (s_len ct))) s
       /\ kind (Errorf_short 16 (s_len ct)) = MalformedCiphertextError
  else exists out s',
      Decrypt (instance (Stream b)) ct s = Done (out, None) s'
      /\ bytes s' out = cfb_decrypt (length body) b iv body.
Proof.
  intros Hv iv body. destruct (Nat.ltb_spec (s_len ct) 16) as [H|H].
  - split; [|reflexivity].
    apply (CFBCipher_Decrypt_short (mkCFBCipher mkDefaultCipher b)), H.
  - destruct (CFBCipher_Decrypt_run (mkCFBCipher mkDefaultCipher b) ct s Hv H)
      as (E & _ & B).
    pose proof (length_bytes s ct Hv) as Lc.
    assert (Lb : length body = s_len ct - 16)
      by (unfold body; rewrite length_skipn; lia).
    eexists _, _. split; [exact E|]. rewrite B. cbn [CFB_Block].
    rewrite <- Lb. apply newCFB_decrypt.
    unfold iv. rewrite length_firstn. lia.
Qed.

Lemma CFBCipher_Decrypt_spec_witness :
  let b := zero_key 16 in
  let s := mkState [repeat x00 15; repeat x00 16 ++ hex "0e8c27b880"] [] [] in
  let short := mkSlice 0 0 15 15 in
  let long := mkSlice 1 0 21 21 in
  valid s short /\ valid s long
  /\ (Decrypt (instance (Stream b)) short s
      = Done (nil_slice, Some (Errorf_short 16 15)) s
      /\ kind (Errorf_short 16 15) = MalformedCiphertextError)
  /\ (exists out s',
        Decrypt (instance (Stream b)) long s = Done (out, None) s'
        /\ bytes s' out
           = cfb_decrypt (length (skipn 16 (bytes s long))) b
               (firstn 16 (bytes s long)) (skipn 16 (bytes s long))).
Proof.
  intros b s short long.
  assert (V1 : valid s short) by (unfold valid; cbn; lia).
  assert (V2 : valid s long) by (unfold valid; cbn; lia).
  split; [exact V1|]. split; [exact V2|]. split.
  - exact (CFBCipher_Decrypt_spec b short s V1).
  - exact (CFBCipher_Decrypt_spec b long s V2).
Defined.

(** The 21 bytes of the witness decrypt to "hello". *)
Example CFBCipher_Decrypt_hello :
  cfb_decrypt 5 (zero_key 16) (repeat x00 16) (hex "0e8c27b880") = ascii "hello".
Proof. vm_compute. reflexivity. Qed.


(** C8. For every instance, [EncryptInto] and [DecryptInto] on a nil pointer
    or on a pointer to the empty string return nil and leave the store,
    the string included, as it was. *)
Theorem into_helpers_skip_nil_and_empty (i : Instance) (p : ptr) (s : state) :
  (p = None \/ exists a, p = Some a /\ nth_error (strings s) a = Some []) ->
  EncryptInto (instance i) p s = Done None s
  /\ DecryptInto (instance i) p s = Done None s.
Proof.
  intros H. destruct (EncryptInto_promoted i) as (-> & ->).
  unfold DefaultCipher_EncryptInto, DefaultCipher_DecryptInto.
  destruct H as [->|(a & -> & Ha)].
  - split; apply into_nil.
  - split; apply into_empty, Ha.
Qed.

Lemma into_helpers_skip_nil_and_empty_witness :
  let i := Encoded (Authenticated (zero_key 24)) in
  let s := mkState [] [ascii "kept"; []] [] in
  ((@None nat = None \/ exists a, @None nat = Some a /\ nth_error (strings s) a = Some [])
   /\ EncryptInto (instance i) None s = Done None s
   /\ DecryptInto (instance i) None s = Done None s)
  /\ ((Some 1 = None \/ exists a, Some 1 = Some a /\ nth_error (strings s) a = Some [])
      /\ EncryptInto (instance i) (Some 1) s = Done None s
      /\ DecryptInto (instance i) (Some 1) s = Done None s).
Proof.
  intros i s.
  assert (H1 : @None nat = None
               \/ exists a, @None nat = Some a /\ nth_error (strings s) a = Some [])
    by (left; reflexivity).
  assert (H2 : Some 1 = None
               \/ exists a, Some 1 = Some a /\ nth_error (strings s) a = Some [])
    by (right; exists 1; split; reflexivity).
  split.
  - split; [exact H1 | exact (into_helpers_skip_nil_and_empty i None s H1)].
  - split; [exact H2 | exact (into_helpers_skip_nil_and_empty i (Some 1) s H2)].
Defined.

(** C9. [Encrypt] and [Decrypt] of the default cipher return their
    argument, with no error, and change nothing. *)
Theorem DefaultCipher_identity (x : slice) (s : state) :
  Encrypt (instance Null) x s = Done (x, None) s
  /\ Decrypt (instance Null) x s = Done (x, None) s
  /\ DefaultCipher_Encrypt mkDefaultCipher x s = Done (x, None) s
  /\ DefaultCipher_Decrypt mkDefaultCipher x s = Done (x, None) s.
Proof. repeat split. Qed.

(** The key lengths of AES-128, AES-192 and AES-256. *)
Definition valid_key_length (k : nat) : bool := (k =? 16) || (k =? 24) || (k =? 32).

Lemma aes_NewCipher_run (key : slice) (s : state) :
  aes_NewCipher key s
  = Done (if valid_key_length (s_len key)
          then inl (aes.mkBlock (aes.expandKey (bytes s key)))
          else inr (aes_KeySizeError (s_len key))) s.
Proof.
  unfold aes_NewCipher. step read_run.
  destruct (s_len key) as [|n]; [reflexivity|].
  do 32 (destruct n as [|n]; [reflexivity|]). reflexivity.
Qed.

(** Wrapping either constructor: the same check, and the wrapped instance. *)
Lemma NewBase64Cipher_run (secret : slice) (s : state) :
  let block := aes.mkBlock (aes.expandKey (bytes s secret)) in
  NewBase64Cipher NewCFBCipher secret s
  = (if valid_key_length (s_len secret)
     then Done (Some (instance (Encoded (Stream block))), None) s
     else Done (None, Some (aes_KeySizeError (s_len secret))) s)
  /\ NewBase64Cipher NewGCMCipher secret s
     = (if valid_key_length (s_len secret)
        then Done (Some (instance (Encoded (Authenticated block))), None) s
        else Done (None, Some (aes_KeySizeError (s_len secret))) s).
Proof.
  intros block. unfold NewBase64Cipher, NewCFBCipher, NewGCMCipher.
  split; step aes_NewCipher_run;
    destruct (valid_key_length (s_len secret)); reflexivity.
Qed.

(** C10. [NewCFBCipher] and [NewGCMCipher] return an instance, and no
    error, exactly when the Secret is 16, 24 or 32 bytes long; for every
    other length they return no instance and the key size error. *)
Theorem constructors_check_key_length (secret : slice) (s : state) :
  let block := aes.mkBlock (aes.expandKey (bytes s secret)) in
  NewCFBCipher secret s
  = (if valid_key_length (s_len secret)
     then Done (Some (instance (Stream block)), None) s
     else Done (None, Some (aes_KeySizeError (s_len secret))) s)
  /\ NewGCMCipher secret s
     = (if valid_key_length (s_len secret)
        then Done (Some (instance (Authenticated block)), None) s
        else Done (None, Some (aes_KeySizeError (s_len secret))) s)
  /\ kind (aes_KeySizeError (s_len secret)) = KeySetupError.
Proof.
  intros block. unfold NewCFBCipher, NewGCMCipher.
  split; [|split; [|reflexivity]].
  - step aes_NewCipher_run. destruct (valid_key_length (s_len secret)); reflexivity.
  - step aes_NewCipher_run. destruct (valid_key_length (s_len secret)); reflexivity.
Qed.

(* ===================================================================== *)
(** * Further properties of the package *)
(* ===================================================================== *)

(** ** CFB encryption, block by block *)

(** CFB encryption as SP 800-38A states it: every 16-byte block of the
    plaintext is xored with the encryption of the ciphertext block before
    it, the IV standing before the first; a short last block takes the
    first bytes of its key stream block. *)
Fixpoint cfb_encrypt (fuel : nat) (b : aes.Block) (prev p : list byte) : list byte :=
  match fuel with
  | O => []
  | S fuel' =>
      match p with
      | [] => []
      | _ :: _ =>
          let c := xorBytes (firstn 16 p) (aes.Encrypt b prev) in
          c ++ cfb_encrypt fuel' b c (skipn 16 p)
      end
  end.

(** SP 800-38A, F.3.13 (CFB128-AES128.Encrypt), segments 1 and 2. *)
Example cfb_encrypt_sp800_38a :
  cfb_encrypt 32 (aes.mkBlock (aes.expandKey (hex "2b7e151628aed2a6abf7158809cf4f3c")))
    (hex "000102030405060708090a0b0c0d0e0f")
    (hex "6bc1bee22e409f96e93d7e117393172aae2d8a571e03ac9c9eb76fac45af8e51")
  = hex "3b3fd92eb72dad20333449f8e83cfb4ac8a64537a0b3a93fcde3cdad9f1ce58b".
Proof. vm_compute. reflexivity. Qed.

(** The length of the ciphertext an instance returns for a plaintext of
    [n] bytes. *)
Fixpoint ciphertext_len (i : Instance) (n : nat) : nat :=
  match i with
  | Null => n
  | Stream _ => 16 + n
  | Authenticated _ => 12 + n + 16
  | Encoded inner => (ciphertext_len inner n + 2) / 3 * 4
  end.

(** Whether the innermost cipher of an instance is the GCM one. *)
Fixpoint authenticated (i : Instance) : bool :=
  match i with
  | Null => false
  | Stream _ => false
  | Authenticated _ => true
  | Encoded inner => authenticated inner
  end.

(** Whether an instance decrypts inside the slice it is given. *)
Definition in_place (i : Instance) : bool :=
  match i with
  | Stream _ => true
  | _ => false
  end.

Lemma cfb_encrypt_nil (fuel : nat) (b : aes.Block) (prev : list byte) :
  cfb_encrypt fuel b prev [] = [].
Proof. destruct fuel; reflexivity. Qed.

Lemma xorKeyStream_cons (fuel : nat) (x : cipher.cfb) (c : byte) (src : list byte) :
  cipher.xorKeyStream (S fuel) x (c :: src)
  = (let (d, x2) := cipher.turn x (c :: src) in
     let (ds, x3) := cipher.xorKeyStream fuel x2 (skipn (length d) (c :: src)) in
     (d ++ ds, x3)).
Proof. reflexivity. Qed.

(** An encrypter at a block boundary computes [cfb_encrypt]. *)
Lemma xorKeyStream_cfb_encrypt (fuel : nat) :
  forall (x : cipher.cfb) (p : list byte),
    cipher.cfb_decrypt x = false ->
    cipher.cfb_outUsed x = 16 -> length (cipher.cfb_out x) = 16 ->
    length (cipher.cfb_next x) = 16 ->
    fst (cipher.xorKeyStream fuel x p)
    = cfb_encrypt fuel (cipher.cfb_b x) (cipher.cfb_next x) p.
Proof.
  induction fuel as [|fuel IH]; intros x p Hd Hu Ho Hn; [reflexivity|].
  destruct p as [|p0 p]; [reflexivity|].
  rewrite xorKeyStream_cons. cbn [cfb_encrypt]. unfold cipher.turn, cipher.refill.
  rewrite Hu, Ho, Nat.eqb_refl. cfb_fields. rewrite Hd, skipn_O. cbn [Nat.add].
  set (k := aes.Encrypt (cipher.cfb_b x) (cipher.cfb_next x)).
  assert (Lk : length k = 16) by apply length_aes_Encrypt.
  set (src := p0 :: p).
  assert (Ld : length (xorBytes src k) = Nat.min (length src) 16)
    by (rewrite length_xorBytes, Lk; reflexivity).
  set (x2 := cipher.mkCFB (cipher.cfb_b x) (copy_at (cipher.cfb_next x) 0 (xorBytes src k)) k
               (length (xorBytes src k)) false).
  assert (Ex : xorBytes (firstn 16 src) k = xorBytes src k)
    by (rewrite <- Lk; apply xorBytes_firstn).
  rewrite Ex.
  destruct (Nat.le_gt_cases 16 (length src)) as [Hge|Hlt].
  - specialize (IH x2 (skipn (length (xorBytes src k)) src) eq_refl).
    destruct (cipher.xorKeyStream fuel x2 (skipn (length (xorBytes src k)) src))
      as [ds x3]. cbn [fst] in *.
    rewrite IH; unfold x2; cfb_fields;
      [| lia | exact Lk | rewrite length_copy_at; exact Hn].
    rewrite Ld. replace (Nat.min (length src) 16) with 16 by lia.
    do 2 f_equal. unfold copy_at. rewrite Hn, Ld.
    replace (Nat.min (16 - 0) (Nat.min (length src) 16)) with 16 by lia.
    rewrite firstn_O, (skipn_all2 (cipher.cfb_next x)) by lia.
    cbn [app]. rewrite app_nil_r. apply firstn_all2. lia.
  - rewrite (skipn_all2 src) by lia.
    rewrite (skipn_all2 (n := 16) src) by lia.
    rewrite xorKeyStream_nil, cfb_encrypt_nil. reflexivity.
Qed.

Lemma newCFB_encrypt (b : aes.Block) (iv p : list byte) :
  length iv = 16 ->
  fst (cipher.xorKeyStream (length p) (cipher.newCFB b iv false) p)
  = cfb_encrypt (length p) b iv p.
Proof.
  intros H. apply (xorKeyStream_cfb_encrypt (length p) (cipher.newCFB b iv false));
    auto.
Qed.

Lemma firstn_xorBytes (k : nat) (a b : list byte) :
  firstn k (xorBytes a b) = xorBytes (firstn k a) b.
Proof.
  revert a b; induction k as [|k IH]; intros [|x a] [|y b]; cbn; auto.
  rewrite IH. reflexivity.
Qed.

Lemma cfb_decrypt_cons (fuel : nat) (b : aes.Block) (prev c : list byte) :
  c <> [] ->
  cfb_decrypt (S fuel) b prev c
  = xorBytes (firstn 16 c) (aes.Encrypt b prev)
      ++ cfb_decrypt fuel b (firstn 16 c) (skipn 16 c).
Proof. destruct c; [congruence | reflexivity]. Qed.

(** CFB decryption of the first [k] bytes of a ciphertext gives the first
    [k] bytes of its plaintext. *)
Lemma cfb_decrypt_firstn (b : aes.Block) (f1 : nat) :
  forall (f2 k : nat) (prev c : list byte),
    length c <= f2 -> Nat.min k (length c) <= f1 ->
    cfb_decrypt f1 b prev (firstn k c) = firstn k (cfb_decrypt f2 b prev c).
Proof.
  induction f1 as [|f1 IH]; intros f2 k prev c H2 H1.
  - cbn [cfb_decrypt]. destruct k as [|k]; [reflexivity|].
    destruct c as [|c0 c]; [|cbn [length] in H1; lia].
    rewrite cfb_decrypt_nil. reflexivity.
  - destruct k as [|k]; [reflexivity|].
    destruct c as [|c0 c]; [rewrite !cfb_decrypt_nil; reflexivity|].
    destruct f2 as [|f2]; [cbn [length] in H2; lia|].
    set (src := c0 :: c) in *. set (n := S k) in *.
    rewrite (cfb_decrypt_cons f1) by (unfold n, src; discriminate).
    rewrite (cfb_decrypt_cons f2) by (unfold src; discriminate).
    set (K := aes.Encrypt b prev).
    assert (LK : length K = 16) by apply length_aes_Encrypt.
    rewrite firstn_app, length_xorBytes, LK, length_firstn.
    rewrite firstn_xorBytes, !firstn_firstn.
    destruct (Nat.le_gt_cases n 16) as [Hk|Hk].
    + replace (Nat.min 16 n) with n by lia. replace (Nat.min n 16) with n by lia.
      rewrite (skipn_all2 (firstn n src)) by (rewrite length_firstn; lia).
      rewrite cfb_decrypt_nil.
      destruct (Nat.le_gt_cases n (length src)) as [Hl|Hl].
      * replace (n - Nat.min (Nat.min 16 (length src)) 16) with 0 by lia.
        reflexivity.
      * rewrite (skipn_all2 src) by lia. rewrite cfb_decrypt_nil, firstn_nil.
        reflexivity.
    + replace (Nat.min 16 n) with 16 by lia. replace (Nat.min n 16) with 16 by lia.
      rewrite skipn_firstn_comm.
      rewrite (IH f2 (n - 16) (firstn 16 src) (skipn 16 src))
        by (rewrite ?length_skipn; lia).
      destruct (Nat.le_gt_cases 16 (length src)) as [Hl|Hl].
      * replace (Nat.min (Nat.min 16 (length src)) 16) with 16 by lia. reflexivity.
      * rewrite (skipn_all2 src) by lia. rewrite !cfb_decrypt_nil, !firstn_nil.
        reflexivity.
Qed.

(** ** The random source running dry *)

(** The error [io.ReadFull] reports when the source holds fewer bytes than
    asked for: [io.EOF] when it holds none, [io.ErrUnexpectedEOF] otherwise. *)
Definition io_error (avail : list byte) : error :=
  match avail with
  | [] => io_EOF
  | _ :: _ => io_ErrUnexpectedEOF
  end.

Lemma ReadFull_rand_dry (buf : slice) (s : state) :
  length (entropy s) < s_len buf ->
  ReadFull_rand buf s
  = Done (Some (io_error (entropy s)))
         (drawn (written s buf (firstn (s_len buf) (entropy s))) (s_len buf)).
Proof.
  intros H. unfold ReadFull_rand.
  destruct (Nat.leb_spec (s_len buf) (length (entropy s))); [lia | reflexivity].
Qed.

Lemma kind_io_error (avail : list byte) : kind (io_error avail) = EntropyError.
Proof. destruct avail; reflexivity. Qed.

Lemma CFBCipher_Encrypt_dry (c : CFBCipher) (value : slice) (s : state) :
  length (entropy s) < 16 ->
  exists s',
    CFBCipher_Encrypt c value s
    = Done (nil_slice, Some (Errorf_iv (io_error (entropy s)))) s'
    /\ extends s s' /\ strings s' = strings s /\ entropy s' = [].
Proof.
  intros He. eexists. split; [|split; [|split]].
  - unfold CFBCipher_Encrypt, aes.BlockSize.
    step make_run. step slice_to_run. step ReadFull_rand_dry. reflexivity.
  - apply extends_drawn, extends_written; [apply extends_allocated | cbn; lia].
  - reflexivity.
  - cbn [entropy drawn written set_array allocated s_len]. apply skipn_all2. lia.
Qed.

Lemma GCMCipher_Encrypt_dry (c : GCMCipher) (value : slice) (s : state) :
  length (entropy s) < 12 ->
  exists s',
    GCMCipher_Encrypt c value s = Done (nil_slice, Some (io_error (entropy s))) s'
    /\ extends s s' /\ strings s' = strings s /\ entropy s' = [].
Proof.
  intros He. eexists. split; [|split; [|split]].
  - unfold GCMCipher_Encrypt. rewrite NewGCM_run. cbn [cipher.gcm_nonceSize gcm_of].
    step make_run. step ReadFull_rand_dry. reflexivity.
  - apply extends_drawn, extends_written; [apply extends_allocated | cbn; lia].
  - reflexivity.
  - cbn [entropy drawn written set_array allocated s_len]. apply skipn_all2. lia.
Qed.

Lemma Encrypt_dry (i : Instance) :
  forall (value : slice) (s : state),
    length (entropy s) < draws i ->
    exists e s',
      Encrypt (instance i) value s = Done (nil_slice, Some e) s'
      /\ kind e = EntropyError
      /\ extends s s' /\ strings s' = strings s /\ entropy s' = [].
Proof.
  induction i as [|b|b|inner IH]; intros value s He; cbn [draws] in He.
  - lia.
  - destruct (CFBCipher_Encrypt_dry (mkCFBCipher mkDefaultCipher b) value s He)
      as (s' & E & R).
    exists (Errorf_iv (io_error (entropy s))), s'.
    split; [exact E|]. split; [reflexivity | exact R].
  - destruct (GCMCipher_Encrypt_dry (mkGCMCipher mkDefaultCipher b) value s He)
      as (s' & E & R).
    exists (io_error (entropy s)), s'.
    split; [exact E|]. split; [apply kind_io_error | exact R].
  - destruct (IH value s He) as (e & s' & E & R).
    exists e, s'. split; [|exact R].
    cbn [instance Encrypt Base64Cipher_as_Cipher].
    rewrite (Base64Cipher_Encrypt_run _ (instance inner)) by reflexivity.
    rewrite E. reflexivity.
Qed.

(** ** Where the results live *)

Lemma CFBCipher_Encrypt_slice (c : CFBCipher) (value : slice) (s : state) :
  valid s value -> 16 <= length (entropy s) ->
  exists s',
    CFBCipher_Encrypt c value s
    = Done (mkSlice (length (arrays s)) 0 (16 + s_len value) (16 + s_len value), None) s'.
Proof.
  intros Hv He. eexists.
  unfold CFBCipher_Encrypt, aes.BlockSize.
  step make_run. step slice_to_run. step ReadFull_rand_run.
  unfold NewCFBEncrypter. step newCFB_run. step slice_from_run.
  erewrite bind_Done.
  2: { apply XORKeyStream_run; cbn [s_arr s_off s_len s_cap]; [lia|].
       apply (InexactOverlap_fresh s); [exact Hv | cbn [s_arr]; lia]. }
  reflexivity.
Qed.

Lemma Seal_fresh (b : aes.Block) (dst nonce plaintext data : slice) (s : state) :
  s_len nonce = 12 -> valid s plaintext ->
  s_cap dst < s_len dst + (s_len plaintext + 16) ->
  forall out s',
    Seal (gcm_of b) dst nonce plaintext data s = Done out s' ->
    s_arr out = length (arrays s).
Proof.
  intros Hn Hp Hcap out s'.
  unfold Seal, sliceForAppend. cbn [cipher.gcm_nonceSize cipher.gcm_tagSize gcm_of].
  rewrite Hn. cbn [Nat.eqb negb].
  step read_run. step read_run. step read_run.
  destruct (Nat.leb_spec (s_len dst + (s_len plaintext + 16)) (s_cap dst)); [lia|].
  step read_run. step make_run. step write_run. step slice_from_run.
  rewrite bind_ret. cbv beta iota.
  erewrite (InexactOverlap_fresh s _ plaintext Hp) by (cbn [s_arr]; lia).
  step write_run. intros E. injection E as <- _. reflexivity.
Qed.

Lemma GCMCipher_Encrypt_fresh (c : GCMCipher) (value : slice) (s : state) :
  valid s value -> 12 <= length (entropy s) ->
  forall ct s',
    GCMCipher_Encrypt c value s = Done (ct, None) s' ->
    length (arrays s) < s_arr ct.
Proof.
  intros Hv He ct s'.
  unfold GCMCipher_Encrypt. rewrite NewGCM_run. cbn [cipher.gcm_nonceSize gcm_of].
  step make_run. step ReadFull_rand_run.
  set (nonce := mkSlice (length (arrays s)) 0 12 12).
  set (s2 := drawn (written (allocated s (repeat x00 12)) nonce _) (s_len nonce)).
  assert (E12 : extends s s2).
  { apply extends_drawn, extends_written; [apply extends_allocated | cbn; lia]. }
  destruct (extends_valid s s2 value E12 Hv) as (Hv2 & _).
  unfold bind at 1.
  destruct (Seal (gcm_of (GCM_Block c)) nonce nonce value nil_slice s2) as [out s3|p s3] eqn:ES;
    [|discriminate].
  apply (Seal_fresh (GCM_Block c) nonce nonce value nil_slice s2 eq_refl Hv2) in ES;
    [|cbn; lia].
  intros E. injection E as <- _. rewrite ES. unfold s2.
  change (arrays (drawn ?x _)) with (arrays x).
  rewrite length_arrays_written, length_arrays_allocated. lia.
Qed.

(** ** What Decrypt touches *)

(** Whenever [Decrypt] returns, the string variables and the random
    source are as before, and so is every array there was, the one of the
    argument apart. *)
Lemma Decrypt_footprint (i : Instance) :
  forall (ct : slice) (s : state) (r : slice * option error) (s' : state),
    valid s ct -> Decrypt (instance i) ct s = Done r s' ->
    strings s' = strings s /\ entropy s' = entropy s
    /\ length (arrays s) <= length (arrays s')
    /\ (forall a, a < length (arrays s) -> a <> s_arr ct -> array s' a = array s a)
    /\ (in_place i = false -> extends s s').
Proof.
  induction i as [|b|b|inner IH]; intros ct s r s' Hv E;
    cbn [instance Decrypt DefaultCipher_as_Cipher CFBCipher_as_Cipher
         GCMCipher_as_Cipher Base64Cipher_as_Cipher in_place] in *.
  - injection E as _ <-. auto 6 using extends_refl.
  - destruct (Nat.lt_ge_cases (s_len ct) 16) as [H|H].
    + rewrite CFBCipher_Decrypt_short in E by exact H. injection E as _ <-.
      split; [reflexivity|]. split; [reflexivity|]. split; [lia|].
      split; [reflexivity | discriminate].
    + destruct (CFBCipher_Decrypt_run (mkCFBCipher mkDefaultCipher b) ct s Hv H)
        as (E' & _). rewrite E' in E. injection E as _ <-.
      split; [reflexivity|]. split; [reflexivity|].
      split; [rewrite length_arrays_written; lia|].
      split; [|discriminate].
      intros a Ha Hne. apply array_written_other. cbn [s_arr]. congruence.
  - destruct (Nat.lt_ge_cases (s_len ct) 12) as [H|H].
    + rewrite GCMCipher_Decrypt_short in E by exact H. discriminate.
    + destruct (Nat.lt_ge_cases (s_len ct) 28) as [H'|H'].
      * rewrite GCMCipher_Decrypt_truncated in E by (destruct Hv; lia).
        injection E as _ <-. auto 6 using extends_refl.
      * destruct (GCMCipher_Decrypt_run (mkGCMCipher mkDefaultCipher b) ct s Hv H')
          as (out & s1 & E' & _ & _ & X & S & R).
        rewrite E' in E. injection E as _ <-.
        split; [exact S|]. split; [exact R|].
        split; [apply X|]. split; [|intros _; exact X].
        intros a Ha _. apply X, Ha.
  - rewrite (Base64Cipher_Decrypt_run _ (instance inner)) in E by reflexivity.
    destruct (DecodeString_run (bytes s ct) s) as (_ & V & _).
    set (d := fst (base64.decodeString (bytes s ct))) in *.
    set (buf := d ++ repeat x00 (base64.DecodedLen (length (bytes s ct)) - length d)) in *.
    set (enc := mkSlice (length (arrays s)) 0 (length d) (length buf)) in *.
    assert (X : extends s s' /\ strings s' = strings s /\ entropy s' = entropy s).
    { destruct (snd (base64.decodeString (bytes s ct))) as [off|].
      - injection E as _ <-. split; [apply extends_allocated | auto].
      - destruct (IH enc (allocated s buf) r s' V E) as (S & R & L & A & _).
        rewrite length_arrays_allocated in L.
        split; [|auto]. split; [lia|].
        intros a Ha. rewrite A; [apply array_allocated_old; exact Ha | | ].
        + rewrite length_arrays_allocated. lia.
        + cbn [s_arr enc]. lia. }
    destruct X as (X & S & R).
    split; [exact S|]. split; [exact R|]. split; [apply X|].
    split; [|intros _; exact X]. intros a Ha _. apply X, Ha.
Qed.

(** ** The length of base64 text *)

Lemma length_encode (n : nat) :
  forall src : list byte,
    length src <= n -> length (base64.encode src) = (length src + 2) / 3 * 4.
Proof.
  induction n as [|n IH]; intros src H.
  - destruct src; [reflexivity | cbn in H; lia].
  - destruct src as [|a [|b [|c rest]]]; try reflexivity.
    assert (E : length (base64.encode (a :: b :: c :: rest))
                = 4 + length (base64.encode rest)) by reflexivity.
    rewrite E, IH by (cbn [length] in H; lia). cbn [length].
    replace (S (S (S (length rest))) + 2) with (1 * 3 + (length rest + 2)) by lia.
    rewrite Nat.div_add_l by lia. lia.
Qed.

Lemma length_EncodeToString (src : list byte) :
  length (base64.EncodeToString src) = (length src + 2) / 3 * 4.
Proof. apply (length_encode (length src)). lia. Qed.

(** ** String variables *)

(** The store after [*p = v]. *)
Definition stored (s : state) (p : nat) (v : gostring) : state :=
  mkState (arrays s) (set_nth (strings s) p v) (entropy s).

Lemma store_run (p : nat) (v v0 : gostring) (s : state) :
  nth_error (strings s) p = Some v0 -> store p v s = Done tt (stored s p v).
Proof. intros H. unfold store. rewrite H. reflexivity. Qed.

Lemma nth_error_set_nth_eq {A : Type} (l : list A) (i : nat) (v : A) :
  i < length l -> nth_error (set_nth l i v) i = Some v.
Proof.
  intros H. unfold set_nth. destruct (Nat.ltb_spec i (length l)); [|lia].
  rewrite nth_error_app2; rewrite length_firstn; [|lia].
  replace (i - Nat.min i (length l)) with 0 by lia. reflexivity.
Qed.

Lemma nth_error_set_nth_neq {A : Type} (l : list A) (i j : nat) (v : A) :
  i <> j -> nth_error (set_nth l i v) j = nth_error l j.
Proof.
  intros H. unfold set_nth. destruct (Nat.ltb_spec i (length l)); [|reflexivity].
  rewrite <- (firstn_skipn i l) at 3.
  destruct (Nat.lt_ge_cases j i) as [Hj|Hj].
  - rewrite !nth_error_app1 by (rewrite length_firstn; lia). reflexivity.
  - rewrite !nth_error_app2 by (rewrite length_firstn; lia).
    rewrite length_firstn. replace (Nat.min i (length l)) with i by lia.
    destruct (j - i) as [|k] eqn:E; [lia|].
    change (nth_error (v :: skipn (S i) l) (S k)) with (nth_error (skipn (S i) l) k).
    rewrite !nth_error_skipn. f_equal. lia.
Qed.

(** ** The in-place helper with a codec *)

(** [into] hands the codec a copy of the string, and stores the bytes the
    codec returns. *)
Lemma into_run (f : codecFunc) (a : nat) (v : gostring) (s : state)
      (d : slice) (s2 : state) :
  nth_error (strings s) a = Some v -> v <> [] ->
  f (mkSlice (length (arrays s)) 0 (length v) (length v)) (allocated s v)
  = Done (d, None) s2 ->
  strings s2 = strings s ->
  into f (Some a) s = Done None (stored s2 a (bytes s2 d)).
Proof.
  intros Hs Hv Hf Hstr. unfold into. step load_run.
  destruct v as [|x v]; [congruence|].
  unfold bytes_of_string, string_of_bytes. step alloc_run. step Hf. step read_run.
  erewrite bind_Done by (apply (store_run a _ (x :: v)); rewrite Hstr; exact Hs).
  reflexivity.
Qed.

(** When the codec fails, [into] returns its error and stores nothing. *)
Lemma into_fails (f : codecFunc) (a : nat) (v : gostring) (s : state)
      (d : slice) (e : error) (s2 : state) :
  nth_error (strings s) a = Some v -> v <> [] ->
  f (mkSlice (length (arrays s)) 0 (length v) (length v)) (allocated s v)
  = Done (d, Some e) s2 ->
  into f (Some a) s = Done (Some e) s2.
Proof.
  intros Hs Hv Hf. unfold into. step load_run.
  destruct v as [|x v]; [congruence|].
  unfold bytes_of_string. step alloc_run. step Hf. reflexivity.
Qed.

Lemma decodeString_nil : base64.decodeString [] = ([], None).
Proof. reflexivity. Qed.

Lemma plaintext_of_nil (i : Instance) (v : list byte) :
  plaintext_of i [] = Some v -> v = [].
Proof.
  induction i as [|b|b|inner IH]; cbn [plaintext_of]; intros H.
  - congruence.
  - discriminate.
  - discriminate.
  - rewrite decodeString_nil in H. auto.
Qed.

Lemma valid_copy (s : state) (v : list byte) :
  valid (allocated s v) (mkSlice (length (arrays s)) 0 (length v) (length v))
  /\ bytes (allocated s v) (mkSlice (length (arrays s)) 0 (length v) (length v)) = v.
Proof.
  assert (L : length (array (allocated s v) (length (arrays s))) = length v)
    by (rewrite array_allocated_new; reflexivity).
  split; [apply valid_whole, L|].
  rewrite bytes_whole by exact L. apply array_allocated_new.
Qed.

(** ** Cancelling *)

Lemma app_eq_length_inv {A : Type} (a1 a2 r1 r2 : list A) :
  length a1 = length a2 -> a1 ++ r1 = a2 ++ r2 -> a1 = a2 /\ r1 = r2.
Proof.
  revert a2; induction a1 as [|x a1 IH]; intros [|y a2] L H; try discriminate.
  - auto.
  - cbn [app] in H. injection H as -> H. injection L as L.
    destruct (IH a2 L H) as (-> & ->). auto.
Qed.

Lemma byte_xor_cancel (x x' y : byte) : byte.xor x y = byte.xor x' y -> x = x'.
Proof.
  intros H. rewrite <- (byte_xor_involutive x y), H. apply byte_xor_involutive.
Qed.

Lemma xorBytes_cancel (a a' k : list byte) :
  length a = length a' -> length a <= length k ->
  xorBytes a k = xorBytes a' k -> a = a'.
Proof.
  revert a' k; induction a as [|x a IH]; intros a' k L Lk H;
    destruct a' as [|x' a']; try discriminate; [reflexivity|].
  destruct k as [|y k]; [cbn [length] in Lk; lia|].
  cbn [length] in Lk. cbn [xorBytes] in H. injection H as Hx H. injection L as L.
  apply byte_xor_cancel in Hx. subst x'. f_equal. apply (IH a' k); [exact L | lia | exact H].
Qed.

(** CFB decryption under one IV gives different plaintexts for different
    ciphertexts of the same length. *)
Lemma cfb_decrypt_injective (b : aes.Block) (fuel : nat) :
  forall (prev c1 c2 : list byte),
    length c1 <= fuel -> length c1 = length c2 ->
    cfb_decrypt fuel b prev c1 = cfb_decrypt fuel b prev c2 -> c1 = c2.
Proof.
  induction fuel as [|fuel IH]; intros prev c1 c2 Hf Hl H.
  - destruct c1, c2; cbn [length] in *; try lia. reflexivity.
  - destruct c1 as [|x1 c1], c2 as [|x2 c2]; try discriminate; [reflexivity|].
    set (a1 := x1 :: c1) in *. set (a2 := x2 :: c2) in *.
    rewrite !cfb_decrypt_cons in H by (unfold a1, a2; discriminate).
    set (K := aes.Encrypt b prev) in *.
    assert (LK : length K = 16) by apply length_aes_Encrypt.
    apply app_eq_length_inv in H;
      [|rewrite !length_xorBytes, !length_firstn; lia].
    destruct H as (H1 & H2).
    apply xorBytes_cancel in H1; [|rewrite !length_firstn; lia | rewrite length_firstn; lia].
    rewrite H1 in H2. apply IH in H2; [| |rewrite !length_skipn; lia].
    + rewrite <- (firstn_skipn 16 a1), <- (firstn_skipn 16 a2), H1, H2. reflexivity.
    + rewrite length_skipn. unfold a1 in *. cbn [length] in *. lia.
Qed.

Lemma EncodeToString_injective (a b : list byte) :
  base64.EncodeToString a = base64.EncodeToString b -> a = b.
Proof.
  intros H. apply (f_equal base64.decodeString) in H.
  rewrite !decodeString_EncodeToString in H. congruence.
Qed.

(** The random bytes an instance drew can be read off its ciphertext. *)
Lemma ciphertext_of_shows_entropy (i : Instance) (p1 p2 e1 e2 : list byte) :
  draws i <= length e1 -> draws i <= length e2 ->
  ciphertext_of i p1 e1 = ciphertext_of i p2 e2 ->
  firstn (draws i) e1 = firstn (draws i) e2.
Proof.
  induction i as [|b|b|inner IH]; cbn [draws ciphertext_of]; intros H1 H2 H.
  - reflexivity.
  - apply app_eq_length_inv in H; [apply H|]. rewrite !length_firstn. lia.
  - apply app_eq_length_inv in H; [apply H|]. rewrite !length_firstn. lia.
  - apply EncodeToString_injective in H. auto.
Qed.

Lemma length_ciphertext_of (i : Instance) (p ent : list byte) :
  draws i <= length ent ->
  length (ciphertext_of i p ent) = ciphertext_len i (length p).
Proof.
  induction i as [|b|b|inner IH]; cbn [draws ciphertext_of ciphertext_len]; intros H.
  - reflexivity.
  - assert (Hiv : length (firstn 16 ent) = 16) by (rewrite length_firstn; lia).
    rewrite length_app, Hiv, length_xorKeyStream; auto using newCFB_ok.
  - rewrite length_app, length_firstn, length_seal. lia.
  - rewrite length_EncodeToString, IH by exact H. reflexivity.
Qed.

(** ** Encrypt *)

(** X1. [Encrypt] of every instance returns on every valid slice: it does
    not panic.  It returns an error exactly when the random source cannot
    deliver the bytes it draws for the IV or the nonce; the error is then an
    entropy error and the returned slice is nil.  In both cases the arrays
    and the string variables there were are unchanged, the plaintext
    included. *)
Theorem Encrypt_never_panics (i : Instance) (value : slice) (s : state) :
  valid s value ->
  exists r s',
    Encrypt (instance i) value s = Done r s'
    /\ (snd r = None <-> draws i <= length (entropy s))
    /\ (forall e, snd r = Some e -> fst r = nil_slice /\ kind e = EntropyError)
    /\ extends s s' /\ strings s' = strings s
    /\ bytes s' value = bytes s value.
Proof.
  intros Hv. destruct (Nat.le_gt_cases (draws i) (length (entropy s))) as [He|He].
  - destruct (Encrypt_run i value s Hv He) as (ct & s' & E & _ & _ & X & S & _).
    exists (ct, None), s'. cbn [fst snd].
    split; [exact E|]. split; [tauto|]. split; [discriminate|].
    split; [exact X|]. split; [exact S|]. apply (extends_valid s s' value X Hv).
  - destruct (Encrypt_dry i value s He) as (e & s' & E & K & X & S & _).
    exists (nil_slice, Some e), s'. cbn [fst snd].
    split; [exact E|]. split; [split; [discriminate | lia]|].
    split; [intros e0 [= <-]; auto|].
    split; [exact X|]. split; [exact S|]. apply (extends_valid s s' value X Hv).
Qed.

Lemma Encrypt_never_panics_witness :
  let i := Encoded (Stream (zero_key 16)) in
  let s := mkState [ascii "hello"] [] (repeat x00 7) in
  let value := mkSlice 0 0 5 5 in
  valid s value
  /\ exists r s',
       Encrypt (instance i) value s = Done r s'
       /\ (snd r = None <-> draws i <= length (entropy s))
       /\ (forall e, snd r = Some e -> fst r = nil_slice /\ kind e = EntropyError)
       /\ extends s s' /\ strings s' = strings s
       /\ bytes s' value = bytes s value.
Proof.
  intros i s value.
  assert (V : valid s value) by (unfold valid; cbn; lia).
  split; [exact V|]. exact (Encrypt_never_panics i value s V).
Defined.

(** X2. When the random source runs dry, [CFBCipher.Encrypt] returns its
    "failed to create initialization vector" error around the error of
    [io.ReadFull], and [GCMCipher.Encrypt] returns the error of [io.ReadFull]
    as it is: [io.EOF] when the source had nothing left,
    [io.ErrUnexpectedEOF] when it had some bytes, fewer than the 16 or 12
    asked for.  No slice is returned, and what the source had is used up. *)
Theorem Encrypt_without_entropy (b : aes.Block) (value : slice) (s : state) :
  (length (entropy s) < 16 ->
   exists s',
     Encrypt (instance (Stream b)) value s
     = Done (nil_slice, Some (Errorf_iv (io_error (entropy s)))) s'
     /\ entropy s' = [])
  /\ (length (entropy s) < 12 ->
      exists s',
        Encrypt (instance (Authenticated b)) value s
        = Done (nil_slice, Some (io_error (entropy s))) s'
        /\ entropy s' = [])
  /\ io_error [] = io_EOF
  /\ (entropy s <> [] -> io_error (entropy s) = io_ErrUnexpectedEOF).
Proof.
  split; [|split; [|split]].
  - intros He.
    destruct (CFBCipher_Encrypt_dry (mkCFBCipher mkDefaultCipher b) value s He)
      as (s' & E & _ & _ & R).
    exists s'. auto.
  - intros He.
    destruct (GCMCipher_Encrypt_dry (mkGCMCipher mkDefaultCipher b) value s He)
      as (s' & E & _ & _ & R).
    exists s'. auto.
  - reflexivity.
  - destruct (entropy s); [congruence | reflexivity].
Qed.

(** The two errors on a source that holds three bytes. *)
Example entropy_errors_example :
  let s := mkState [ascii "hello"] [] (hex "010203") in
  (exists s', Encrypt (instance (Stream (zero_key 16))) (mkSlice 0 0 5 5) s
              = Done (nil_slice, Some (Errorf_iv io_ErrUnexpectedEOF)) s')
  /\ (exists s', Encrypt (instance (Authenticated (zero_key 16))) (mkSlice 0 0 5 5) s
                 = Done (nil_slice, Some io_ErrUnexpectedEOF) s').
Proof. split; eexists; vm_compute; reflexivity. Qed.

(** X3. [CFBCipher.Encrypt], when the random source delivers 16 bytes,
    returns the whole of a new array of 16 + len(value) bytes: the 16 bytes
    drawn, as the IV, followed by the CFB encryption of the plaintext, in
    which every block is the plaintext block xored with the encryption of
    the ciphertext block before it.  It draws those 16 bytes and no more. *)
Theorem CFBCipher_Encrypt_layout (b : aes.Block) (value : slice) (s : state) :
  valid s value -> 16 <= length (entropy s) ->
  let iv := firstn 16 (entropy s) in
  let p := bytes s value in
  exists ct s',
    Encrypt (instance (Stream b)) value s = Done (ct, None) s'
    /\ bytes s' ct = iv ++ cfb_encrypt (length p) b iv p
    /\ ct = mkSlice (length (arrays s)) 0 (16 + s_len value) (16 + s_len value)
    /\ entropy s' = skipn 16 (entropy s).
Proof.
  intros Hv He iv p.
  destruct (CFBCipher_Encrypt_run (mkCFBCipher mkDefaultCipher b) value s Hv He)
    as (ct & s' & E & _ & B & _ & _ & R).
  destruct (CFBCipher_Encrypt_slice (mkCFBCipher mkDefaultCipher b) value s Hv He)
    as (s'' & E').
  exists ct, s'. split; [exact E|]. split; [|split; [congruence | exact R]].
  rewrite B. cbn [ciphertext_of CFB_Block]. fold iv p. f_equal.
  apply newCFB_encrypt. unfold iv. rewrite length_firstn. lia.
Qed.

Lemma CFBCipher_Encrypt_layout_witness :
  let b := zero_key 16 in
  let s := mkState [ascii "hello"] [] (repeat x00 16) in
  let value := mkSlice 0 0 5 5 in
  let iv := firstn 16 (entropy s) in
  let p := bytes s value in
  (valid s value /\ 16 <= length (entropy s))
  /\ exists ct s',
       Encrypt (instance (Stream b)) value s = Done (ct, None) s'
       /\ bytes s' ct = iv ++ cfb_encrypt (length p) b iv p
       /\ ct = mkSlice (length (arrays s)) 0 (16 + s_len value) (16 + s_len value)
       /\ entropy s' = skipn 16 (entropy s).
Proof.
  intros b s value iv p.
  assert (V : valid s value) by (unfold valid; cbn; lia).
  assert (E : 16 <= length (entropy s)) by (cbn; lia).
  split; [auto|]. exact (CFBCipher_Encrypt_layout b value s V E).
Defined.

(** X4. [GCMCipher.Encrypt], when the random source delivers 12 bytes,
    returns a slice of a new array holding len(value) + 28 bytes: the 12
    bytes drawn, as the nonce, a body as long as the plaintext, and the 16
    byte tag that [Open] computes for this nonce and body; the body
    unseals to the plaintext.  It draws those 12 bytes and no more. *)
Theorem GCMCipher_Encrypt_layout (b : aes.Block) (value : slice) (s : state) :
  valid s value -> 12 <= length (entropy s) ->
  let nonce := firstn 12 (entropy s) in
  exists ct s' body tag,
    Encrypt (instance (Authenticated b)) value s = Done (ct, None) s'
    /\ bytes s' ct = nonce ++ body ++ tag
    /\ length body = s_len value /\ length tag = 16
    /\ tag = cipher.expectedTag (gcm_of b) nonce body []
    /\ cipher.unseal (gcm_of b) nonce body = bytes s value
    /\ s_len ct = s_len value + 28
    /\ length (arrays s) < s_arr ct
    /\ entropy s' = skipn 12 (entropy s).
Proof.
  intros Hv He nonce.
  destruct (GCMCipher_Encrypt_run (mkGCMCipher mkDefaultCipher b) value s Hv He)
    as (ct & s' & E & V & B & _ & _ & R).
  pose proof (GCMCipher_Encrypt_fresh _ value s Hv He ct s' E) as F.
  cbn [ciphertext_of GCM_Block] in B. fold nonce in B. rewrite seal_layout in B.
  assert (Ln : length nonce = 12) by (unfold nonce; rewrite length_firstn; lia).
  pose proof (length_bytes s value Hv) as Lp.
  exists ct, s', (sealed_body (gcm_of b) nonce (bytes s value)),
    (sealed_tag (gcm_of b) nonce (bytes s value) []).
  split; [exact E|]. split; [exact B|].
  split; [rewrite length_sealed_body; exact Lp|].
  split; [apply length_sealed_tag|].
  split; [reflexivity|].
  split; [apply unseal_sealed_body|].
  split; [|split; [exact F | exact R]].
  rewrite <- (length_bytes s' ct V), B, !length_app, Ln, length_sealed_body,
    length_sealed_tag, Lp. lia.
Qed.

Lemma GCMCipher_Encrypt_layout_witness :
  let b := zero_key 32 in
  let s := mkState [ascii "hello world"] [] (hex "cafebabefacedbaddecaf888") in
  let value := mkSlice 0 0 11 11 in
  let nonce := firstn 12 (entropy s) in
  (valid s value /\ 12 <= length (entropy s))
  /\ exists ct s' body tag,
       Encrypt (instance (Authenticated b)) value s = Done (ct, None) s'
       /\ bytes s' ct = nonce ++ body ++ tag
       /\ length body = s_len value /\ length tag = 16
       /\ tag = cipher.expectedTag (gcm_of b) nonce body []
       /\ cipher.unseal (gcm_of b) nonce body = bytes s value
       /\ s_len ct = s_len value + 28
       /\ length (arrays s) < s_arr ct
       /\ entropy s' = skipn 12 (entropy s).
Proof.
  intros b s value nonce.
  assert (V : valid s value) by (unfold valid; cbn; lia).
  assert (E : 12 <= length (entropy s)) by (cbn; lia).
  split; [auto|]. exact (GCMCipher_Encrypt_layout b value s V E).
Defined.

(** X5. The length of the ciphertext depends on the length of the
    plaintext only: n bytes give n bytes with the base cipher, 16 + n with
    CFB, n + 28 with GCM, and base64 turns m bytes into 4 * ceil(m / 3).
    [Encrypt] takes from the random source the 16 bytes of an IV, the 12 of
    a nonce, or nothing, and no more, also under the Base64 wrapper. *)
Theorem Encrypt_length (i : Instance) (value : slice) (s : state) :
  valid s value -> draws i <= length (entropy s) ->
  exists ct s',
    Encrypt (instance i) value s = Done (ct, None) s'
    /\ s_len ct = ciphertext_len i (s_len value)
    /\ length (bytes s' ct) = ciphertext_len i (s_len value)
    /\ entropy s' = skipn (draws i) (entropy s).
Proof.
  intros Hv He.
  destruct (Encrypt_run i value s Hv He) as (ct & s' & E & V & B & _ & _ & R).
  exists ct, s'. split; [exact E|].
  rewrite <- (length_bytes s' ct V), B, length_ciphertext_of by exact He.
  rewrite (length_bytes s value Hv). auto.
Qed.

Lemma Encrypt_length_witness :
  let i := Encoded (Authenticated (zero_key 24)) in
  let s := mkState [ascii "hello"] [] (repeat x00 12) in
  let value := mkSlice 0 0 5 5 in
  (valid s value /\ draws i <= length (entropy s))
  /\ ciphertext_len i 5 = 44
  /\ exists ct s',
       Encrypt (instance i) value s = Done (ct, None) s'
       /\ s_len ct = ciphertext_len i (s_len value)
       /\ length (bytes s' ct) = ciphertext_len i (s_len value)
       /\ entropy s' = skipn (draws i) (entropy s).
Proof.
  intros i s value.
  assert (V : valid s value) by (unfold valid; cbn; lia).
  assert (E : draws i <= length (entropy s)) by (cbn; lia).
  split; [auto|]. split; [reflexivity|]. exact (Encrypt_length i value s V E).
Defined.



(** X7. Under the same random bytes, two plaintexts that differ are
    encrypted to ciphertexts that differ, for every instance. *)
Theorem Encrypt_injective (i : Instance) (v1 v2 : slice) (s : state) :
  valid s v1 -> valid s v2 -> draws i <= length (entropy s) ->
  exists c1 s1 c2 s2,
    Encrypt (instance i) v1 s = Done (c1, None) s1
    /\ Encrypt (instance i) v2 s = Done (c2, None) s2
    /\ (bytes s1 c1 = bytes s2 c2 -> bytes s v1 = bytes s v2).
Proof.
  intros V1 V2 He.
  destruct (Encrypt_run i v1 s V1 He) as (c1 & s1 & E1 & _ & B1 & _).
  destruct (Encrypt_run i v2 s V2 He) as (c2 & s2 & E2 & _ & B2 & _).
  exists c1, s1, c2, s2. split; [exact E1|]. split; [exact E2|].
  rewrite B1, B2. intros H.
  pose proof (plaintext_of_ciphertext_of i (bytes s v1) (entropy s) He) as P1.
  pose proof (plaintext_of_ciphertext_of i (bytes s v2) (entropy s) He) as P2.
  rewrite H in P1. congruence.
Qed.

Lemma Encrypt_injective_witness :
  let i := Authenticated (zero_key 16) in
  let s := mkState [ascii "hello"; ascii "world"] [] (repeat x00 12) in
  let v1 := mkSlice 0 0 5 5 in
  let v2 := mkSlice 1 0 5 5 in
  (valid s v1 /\ valid s v2 /\ draws i <= length (entropy s))
  /\ exists c1 s1 c2 s2,
       Encrypt (instance i) v1 s = Done (c1, None) s1
       /\ Encrypt (instance i) v2 s = Done (c2, None) s2
       /\ (bytes s1 c1 = bytes s2 c2 -> bytes s v1 = bytes s v2).
Proof.
  intros i s v1 v2.
  assert (V1 : valid s v1) by (unfold valid; cbn; lia).
  assert (V2 : valid s v2) by (unfold valid; cbn; lia).
  assert (E : draws i <= length (entropy s)) by (cbn; lia).
  split; [auto|]. exact (Encrypt_injective i v1 v2 s V1 V2 E).
Defined.

(** ** Decrypt *)

(** X8. [Decrypt] of the base cipher, of the CFB cipher and of the Base64
    wrapper around them returns on every valid slice: it does not panic.
    When it returns an error, the slice is nil and the error says that the
    ciphertext is malformed. *)
Theorem Decrypt_never_panics_without_GCM (i : Instance) (ct : slice) (s : state) :
  authenticated i = false -> valid s ct ->
  exists r s',
    Decrypt (instance i) ct s = Done r s'
    /\ (forall e, snd r = Some e ->
                  fst r = nil_slice /\ kind e = MalformedCiphertextError).
Proof.
  revert ct s.
  induction i as [|b|b|inner IH]; intros ct s Ha Hv; cbn [authenticated] in Ha;
    cbn [instance Decrypt DefaultCipher_as_Cipher CFBCipher_as_Cipher
         Base64Cipher_as_Cipher].
  - eexists _, _. split; [reflexivity|]. cbn. discriminate.
  - destruct (Nat.lt_ge_cases (s_len ct) 16) as [H|H].
    + eexists _, _. split; [apply CFBCipher_Decrypt_short, H|].
      cbn. intros e [= <-]. auto.
    + destruct (CFBCipher_Decrypt_run (mkCFBCipher mkDefaultCipher b) ct s Hv H)
        as (E & _).
      eexists _, _. split; [exact E|]. cbn. discriminate.
  - discriminate.
  - rewrite (Base64Cipher_Decrypt_run _ (instance inner)) by reflexivity.
    destruct (DecodeString_run (bytes s ct) s) as (_ & V & _).
    destruct (snd (base64.decodeString (bytes s ct))) as [off|].
    + eexists _, _. split; [reflexivity|]. cbn. intros e [= <-]. auto.
    + apply IH; assumption.
Qed.

Lemma Decrypt_never_panics_without_GCM_witness :
  let i := Encoded (Stream (zero_key 16)) in
  let s := mkState [ascii "aGVsbG8="] [] [] in
  let ct := mkSlice 0 0 8 8 in
  (authenticated i = false /\ valid s ct)
  /\ exists r s',
       Decrypt (instance i) ct s = Done r s'
       /\ (forall e, snd r = Some e ->
                     fst r = nil_slice /\ kind e = MalformedCiphertextError).
Proof.
  intros i s ct.
  assert (V : valid s ct) by (unfold valid; cbn; lia).
  split; [auto|]. exact (Decrypt_never_panics_without_GCM i ct s eq_refl V).
Defined.

(** X9. Whenever [Decrypt] returns, with or without an error, the string
    variables and the random source are as before, and so is every array
    there was, the array of the argument apart; and that one too unless the
    cipher is the CFB one: the GCM cipher, the base cipher and the Base64
    wrapper around any cipher write to new arrays only. *)
Theorem Decrypt_leaves_the_rest (i : Instance) (ct : slice) (s : state)
        (r : slice * option error) (s' : state) :
  valid s ct -> Decrypt (instance i) ct s = Done r s' ->
  strings s' = strings s /\ entropy s' = entropy s
  /\ (forall a, a < length (arrays s) -> a <> s_arr ct -> array s' a = array s a)
  /\ (in_place i = false -> extends s s' /\ bytes s' ct = bytes s ct).
Proof.
  intros Hv E.
  destruct (Decrypt_footprint i ct s r s' Hv E) as (S & R & _ & A & X).
  split; [exact S|]. split; [exact R|]. split; [exact A|].
  intros H. split; [exact (X H)|]. apply (extends_valid s s' ct (X H) Hv).
Qed.

Lemma Decrypt_leaves_the_rest_witness :
  let i := Encoded (Stream (zero_key 16)) in
  let text := ascii "AAAAAAAAAAAAAAAAAAAAAA6MJ7iA" in
  let s := mkState [text] [] [] in
  let ct := mkSlice 0 0 28 28 in
  let r := (mkSlice 1 16 5 5, @None error) in
  let s' := mkState [text; repeat x00 16 ++ ascii "hello"] [] [] in
  (valid s ct /\ Decrypt (instance i) ct s = Done r s')
  /\ strings s' = strings s /\ entropy s' = entropy s
  /\ (forall a, a < length (arrays s) -> a <> s_arr ct -> array s' a = array s a)
  /\ (in_place i = false -> extends s s' /\ bytes s' ct = bytes s ct).
Proof.
  intros i text s ct r s'.
  assert (V : valid s ct) by (unfold valid; cbn; lia).
  assert (E : Decrypt (instance i) ct s = Done r s') by (vm_compute; reflexivity).
  split; [auto|]. exact (Decrypt_leaves_the_rest i ct s r s' V E).
Defined.

(** X10. [CFBCipher.Decrypt] on 16 bytes or more returns the window
    [ciphertext[16:]] of the caller's array, and leaves in the caller's slice
    the IV followed by the plaintext. *)
Theorem CFBCipher_Decrypt_aliases_its_input (b : aes.Block) (ct : slice) (s : state) :
  valid s ct -> 16 <= s_len ct ->
  exists out s',
    Decrypt (instance (Stream b)) ct s = Done (out, None) s'
    /\ out = mkSlice (s_arr ct) (s_off ct + 16) (s_len ct - 16) (s_cap ct - 16)
    /\ bytes s' ct = firstn 16 (bytes s ct) ++ bytes s' out.
Proof.
  intros Hv Hl.
  destruct (CFBCipher_Decrypt_in_place b ct s Hv Hl) as (out & s' & E & _ & B).
  destruct (CFBCipher_Decrypt_run (mkCFBCipher mkDefaultCipher b) ct s Hv Hl)
    as (E' & _).
  exists out, s'. split; [exact E|]. split; [|exact B].
  cbn [instance Decrypt CFBCipher_as_Cipher] in E. congruence.
Qed.

Lemma CFBCipher_Decrypt_aliases_its_input_witness :
  let b := zero_key 16 in
  let s := mkState [repeat x00 16 ++ hex "0e8c27b880"] [] [] in
  let ct := mkSlice 0 0 21 21 in
  (valid s ct /\ 16 <= s_len ct)
  /\ exists out s',
       Decrypt (instance (Stream b)) ct s = Done (out, None) s'
       /\ out = mkSlice (s_arr ct) (s_off ct + 16) (s_len ct - 16) (s_cap ct - 16)
       /\ bytes s' ct = firstn 16 (bytes s ct) ++ bytes s' out.
Proof.
  intros b s ct.
  assert (V : valid s ct) by (unfold valid; cbn; lia).
  assert (L : 16 <= s_len ct) by (cbn; lia).
  split; [auto|]. exact (CFBCipher_Decrypt_aliases_its_input b ct s V L).
Defined.

(** X11. [CFBCipher.Decrypt] does not notice a ciphertext cut short: the
    first k bytes of a ciphertext, k at least 16, decrypt without error to
    the first k - 16 bytes of its plaintext. *)
Theorem CFBCipher_Decrypt_prefix (b : aes.Block) (ct ct' : slice) (s s0 : state) :
  valid s ct -> valid s0 ct' -> 16 <= s_len ct' <= s_len ct ->
  bytes s0 ct' = firstn (s_len ct') (bytes s ct) ->
  exists out s1 out' s2,
    Decrypt (instance (Stream b)) ct s = Done (out, None) s1
    /\ Decrypt (instance (Stream b)) ct' s0 = Done (out', None) s2
    /\ bytes s2 out' = firstn (s_len ct' - 16) (bytes s1 out).
Proof.
  intros Hv Hv' Hl Hb.
  destruct (CFBCipher_Decrypt_run (mkCFBCipher mkDefaultCipher b) ct s Hv)
    as (E & _ & B); [lia|].
  destruct (CFBCipher_Decrypt_run (mkCFBCipher mkDefaultCipher b) ct' s0 Hv')
    as (E' & _ & B'); [lia|].
  eexists _, _, _, _. split; [exact E|]. split; [exact E'|].
  rewrite B, B'. cbn [CFB_Block].
  pose proof (length_bytes s ct Hv) as Lc.
  pose proof (length_bytes s0 ct' Hv') as Lc'.
  assert (Liv : length (firstn 16 (bytes s ct)) = 16) by (rewrite length_firstn; lia).
  assert (Ls : length (skipn 16 (bytes s ct)) = s_len ct - 16)
    by (rewrite length_skipn; lia).
  assert (Hiv : firstn 16 (bytes s0 ct') = firstn 16 (bytes s ct)).
  { rewrite Hb, firstn_firstn. f_equal. lia. }
  assert (Hbody : skipn 16 (bytes s0 ct')
                  = firstn (s_len ct' - 16) (skipn 16 (bytes s ct))).
  { rewrite Hb. apply skipn_firstn_comm. }
  assert (Ls' : length (skipn 16 (bytes s0 ct')) = s_len ct' - 16)
    by (rewrite length_skipn; lia).
  rewrite Hiv. rewrite <- Ls at 1. rewrite <- Ls' at 1.
  rewrite !newCFB_decrypt by exact Liv.
  rewrite Hbody at 2. rewrite Ls'.
  apply cfb_decrypt_firstn; rewrite ?Ls; lia.
Qed.

Lemma CFBCipher_Decrypt_prefix_witness :
  let b := zero_key 16 in
  let s := mkState [repeat x00 16 ++ hex "0e8c27b880"] [] [] in
  let ct := mkSlice 0 0 21 21 in
  let ct' := mkSlice 0 0 18 21 in
  (valid s ct /\ valid s ct' /\ 16 <= s_len ct' <= s_len ct
   /\ bytes s ct' = firstn (s_len ct') (bytes s ct))
  /\ exists out s1 out' s2,
       Decrypt (instance (Stream b)) ct s = Done (out, None) s1
       /\ Decrypt (instance (Stream b)) ct' s = Done (out', None) s2
       /\ bytes s2 out' = firstn (s_len ct' - 16) (bytes s1 out).
Proof.
  intros b s ct ct'.
  assert (V : valid s ct) by (unfold valid; cbn; lia).
  assert (V' : valid s ct') by (unfold valid; cbn; lia).
  assert (L : 16 <= s_len ct' <= s_len ct) by (cbn; lia).
  assert (B : bytes s ct' = firstn (s_len ct') (bytes s ct)) by reflexivity.
  split; [auto|]. exact (CFBCipher_Decrypt_prefix b ct ct' s s V V' L B).
Defined.

(** X12. [GCMCipher.Decrypt] panics on every input shorter than the 12
    bytes of a nonce: out of range at [ciphertext[:12]] when the capacity is
    below 12, at [ciphertext[12:]] otherwise.  The Base64 wrapper around it
    panics in the same way on text that decodes to fewer than 12 bytes. *)
Theorem GCMCipher_Decrypt_short_input_panics (b : aes.Block) (ct : slice) (s : state) :
  (s_len ct < 12 ->
   Decrypt (instance (Authenticated b)) ct s
   = Panicked (if s_cap ct <? 12 then BoundsCap 12 (s_cap ct)
               else BoundsLen 12 (s_len ct)) s)
  /\ (snd (base64.decodeString (bytes s ct)) = None ->
      length (fst (base64.decodeString (bytes s ct))) < 12 ->
      exists p s',
        Decrypt (instance (Encoded (Authenticated b))) ct s = Panicked p s').
Proof.
  split.
  - apply (GCMCipher_Decrypt_short (mkGCMCipher mkDefaultCipher b)).
  - intros Hd Hl. cbn [instance Decrypt Base64Cipher_as_Cipher].
    rewrite (Base64Cipher_Decrypt_run _ (instance (Authenticated b))) by reflexivity.
    rewrite Hd. cbn [instance Decrypt GCMCipher_as_Cipher].
    rewrite GCMCipher_Decrypt_short by exact Hl. eauto.
Qed.

(** The text "aGVsbG8=" decodes to the five bytes of "hello". *)
Example Base64Cipher_Decrypt_short_example :
  let s := mkState [ascii "aGVsbG8="] [] [] in
  exists s',
    Decrypt (instance (Encoded (Authenticated (zero_key 16)))) (mkSlice 0 0 8 8) s
    = Panicked (BoundsCap 12 6) s'.
Proof. eexists. vm_compute. reflexivity. Qed.

(** X13. [GCMCipher.Decrypt] on an input that holds a nonce but is too
    short to hold a tag, 12 to 27 bytes, returns the authentication error
    of [Open] and touches nothing. *)
Theorem GCMCipher_Decrypt_without_tag (b : aes.Block) (ct : slice) (s : state) :
  s_len ct <= s_cap ct -> 12 <= s_len ct < 28 ->
  Decrypt (instance (Authenticated b)) ct s = Done (nil_slice, Some cipher_errOpen) s
  /\ kind cipher_errOpen = AuthenticationError.
Proof.
  intros Hc Hl. split; [|reflexivity].
  apply (GCMCipher_Decrypt_truncated (mkGCMCipher mkDefaultCipher b)); assumption.
Qed.

Lemma GCMCipher_Decrypt_without_tag_witness :
  let b := zero_key 16 in
  let s := mkState [repeat x00 27] [] [] in
  let ct := mkSlice 0 0 27 27 in
  (s_len ct <= s_cap ct /\ 12 <= s_len ct < 28)
  /\ Decrypt (instance (Authenticated b)) ct s = Done (nil_slice, Some cipher_errOpen) s
  /\ kind cipher_errOpen = AuthenticationError.
Proof.
  intros b s ct.
  assert (C : s_len ct <= s_cap ct) by (cbn; lia).
  assert (L : 12 <= s_len ct < 28) by (cbn; lia).
  split; [auto|]. exact (GCMCipher_Decrypt_without_tag b ct s C L).
Defined.

(** X14. [GCMCipher.Decrypt] refuses every message that differs from a
    message [Encrypt] returned in its last 16 bytes only: whatever is done
    to the tag, the result is the authentication error and no plaintext. *)
Theorem GCMCipher_Decrypt_rejects_other_tags (b : aes.Block) (value : slice)
        (s : state) :
  valid s value -> 12 <= length (entropy s) ->
  exists ct s1,
    Encrypt (instance (Authenticated b)) value s = Done (ct, None) s1
    /\ forall ct' s',
         valid s' ct' -> s_len ct' = s_len ct ->
         firstn (12 + s_len value) (bytes s' ct')
         = firstn (12 + s_len value) (bytes s1 ct) ->
         bytes s' ct' <> bytes s1 ct ->
         exists s2,
           Decrypt (instance (Authenticated b)) ct' s'
           = Done (nil_slice, Some cipher_errOpen) s2.
Proof.
  intros Hv He.
  destruct (GCMCipher_Encrypt_run (mkGCMCipher mkDefaultCipher b) value s Hv He)
    as (ct & s1 & E & V & B & _).
  exists ct, s1. split; [exact E|].
  intros ct' s' V' Hlen Hpre Hne.
  cbn [ciphertext_of GCM_Block] in B. rewrite seal_layout in B.
  set (nonce := firstn 12 (entropy s)) in *.
  set (body := sealed_body (gcm_of b) nonce (bytes s value)) in *.
  set (tag := sealed_tag (gcm_of b) nonce (bytes s value) []) in *.
  assert (Ln : length nonce = 12) by (unfold nonce; rewrite length_firstn; lia).
  assert (Lb : length body = s_len value).
  { unfold body. rewrite length_sealed_body. apply length_bytes, Hv. }
  assert (Lt : length tag = 16) by apply length_sealed_tag.
  assert (Lc : s_len ct = 12 + s_len value + 16).
  { rewrite <- (length_bytes s1 ct V), B, !length_app, Ln, Lb, Lt. lia. }
  pose proof (length_bytes s' ct' V') as Lc'.
  set (c' := bytes s' ct') in *.
  set (tag' := skipn (12 + s_len value) c').
  assert (Hc' : c' = nonce ++ body ++ tag').
  { rewrite <- (firstn_skipn (12 + s_len value) c'). fold tag'.
    rewrite Hpre, B, app_assoc, firstn_app, length_app, Ln, Lb, Nat.sub_diag.
    rewrite firstn_O, app_nil_r, firstn_all2 by (rewrite length_app; lia).
    rewrite app_assoc. reflexivity. }
  assert (Ht : tag' <> tag).
  { intros F. apply Hne. rewrite B, Hc', F. reflexivity. }
  destruct (GCMCipher_Decrypt_run (mkGCMCipher mkDefaultCipher b) ct' s' V')
    as (out & s2 & ED & _); [lia|].
  exists s2. cbn [instance Decrypt GCMCipher_as_Cipher]. rewrite ED. clear ED.
  cbn [GCM_Block]. fold c'. rewrite Hc'.
  assert (Lt' : length tag' = 16).
  { unfold tag'. rewrite length_skipn. lia. }
  rewrite firstn_app, Ln, Nat.sub_diag, firstn_O, app_nil_r, (firstn_all2 nonce) by lia.
  rewrite skipn_app, Ln, Nat.sub_diag, (skipn_all2 nonce) by lia. cbn [skipn app].
  rewrite length_app, Lt'.
  replace (length body + 16 - 16) with (length body) by lia.
  rewrite firstn_app, Nat.sub_diag, firstn_O, app_nil_r, firstn_all.
  rewrite skipn_app, Nat.sub_diag, skipn_all. cbn [skipn app].
  rewrite bytes_eqb_neq; [reflexivity|].
  intros F. apply Ht. symmetry. exact F.
Qed.

Lemma GCMCipher_Decrypt_rejects_other_tags_witness :
  let b := zero_key 16 in
  let s := mkState [ascii "hello"] [] (repeat x00 12) in
  let value := mkSlice 0 0 5 5 in
  (valid s value /\ 12 <= length (entropy s))
  /\ exists ct s1,
       Encrypt (instance (Authenticated b)) value s = Done (ct, None) s1
       /\ forall ct' s',
            valid s' ct' -> s_len ct' = s_len ct ->
            firstn (12 + s_len value) (bytes s' ct')
            = firstn (12 + s_len value) (bytes s1 ct) ->
            bytes s' ct' <> bytes s1 ct ->
            exists s2,
              Decrypt (instance (Authenticated b)) ct' s'
              = Done (nil_slice, Some cipher_errOpen) s2.
Proof.
  intros b s value.
  assert (V : valid s value) by (unfold valid; cbn; lia).
  assert (E : 12 <= length (entropy s)) by (cbn; lia).
  split; [auto|]. exact (GCMCipher_Decrypt_rejects_other_tags b value s V E).
Defined.

(** ** The in-place helper and the constructors *)

(** X15. [into] with the [Encrypt] of an instance as its codec, followed
    by [into] with the [Decrypt] of the same instance, restores the string:
    the first call stores the bytes [Encrypt] returns for a copy of the
    string (or nothing, when the string is empty), the second stores the
    plaintext back.  No other string variable changes, and no array there
    was: the codecs work on copies. *)
Theorem into_round_trip (i : Instance) (a : nat) (v : gostring) (s : state) :
  nth_error (strings s) a = Some v -> draws i <= length (entropy s) ->
  exists s1 s2,
    into (Encrypt (instance i)) (Some a) s = Done None s1
    /\ into (Decrypt (instance i)) (Some a) s1 = Done None s2
    /\ (v <> [] ->
        exists ct s',
          Encrypt (instance i) (mkSlice (length (arrays s)) 0 (length v) (length v))
                  (allocated s v) = Done (ct, None) s'
          /\ nth_error (strings s1) a = Some (bytes s' ct))
    /\ nth_error (strings s2) a = Some v
    /\ (forall a', a' <> a -> nth_error (strings s2) a' = nth_error (strings s) a')
    /\ extends s s2.
Proof.
  intros Hs He. destruct (list_eq_dec Strings.Byte.byte_eq_dec v []) as [Z|NZ].
  - subst v. exists s, s. rewrite !into_empty by exact Hs.
    split; [reflexivity|]. split; [reflexivity|]. split; [congruence|].
    split; [exact Hs|]. split; [reflexivity | apply extends_refl].
  - assert (La : a < length (strings s)) by (apply nth_error_Some; congruence).
    destruct (valid_copy s v) as (V0 & B0).
    set (b := mkSlice (length (arrays s)) 0 (length v) (length v)) in *.
    destruct (Encrypt_run i b (allocated s v) V0 He)
      as (ct & s' & EE & Vc & Bc & X1 & S1 & _).
    rewrite B0 in Bc. cbn [strings entropy allocated] in S1, Bc.
    set (c := bytes s' ct) in *.
    pose proof (into_run (Encrypt (instance i)) a v s ct s' Hs NZ EE S1) as I1.
    fold c in I1.
    assert (Hc : nth_error (strings (stored s' a c)) a = Some c).
    { cbn [strings stored]. apply nth_error_set_nth_eq. rewrite S1. exact La. }
    assert (Pc : plaintext_of i c = Some v).
    { rewrite Bc. apply plaintext_of_ciphertext_of, He. }
    assert (NZc : c <> []).
    { intros F. rewrite F in Pc. apply plaintext_of_nil in Pc. contradiction. }
    set (s1 := stored s' a c) in *.
    destruct (valid_copy s1 c) as (V1 & B1).
    set (b' := mkSlice (length (arrays s1)) 0 (length c) (length c)) in *.
    destruct (Decrypt_run i b' (allocated s1 c) v V1) as (out & s'' & ED & _ & Bo & S2 & _);
      [rewrite B1; exact Pc|].
    cbn [strings allocated] in S2.
    pose proof (into_run (Decrypt (instance i)) a c s1 out s'' Hc NZc ED S2) as I2.
    rewrite Bo in I2.
    destruct (Decrypt_footprint i b' (allocated s1 c) (out, None) s'' V1 ED)
      as (_ & _ & L2 & A2 & _).
    rewrite length_arrays_allocated in L2.
    exists s1, (stored s'' a v).
    split; [exact I1|]. split; [exact I2|].
    split; [intros _; exists ct, s'; auto|].
    assert (S3 : strings s'' = set_nth (strings s) a c).
    { rewrite S2. unfold s1. cbn [strings stored]. rewrite S1. reflexivity. }
    split; [|split].
    + cbn [strings stored]. apply nth_error_set_nth_eq.
      rewrite S3, length_set_nth. exact La.
    + intros a' Hne. cbn [strings stored].
      rewrite nth_error_set_nth_neq, S3, nth_error_set_nth_neq by congruence.
      reflexivity.
    + assert (X01 : extends s s').
      { apply (extends_trans s (allocated s v) s'); [apply extends_allocated | exact X1]. }
      destruct X01 as (L01 & A01).
      change (arrays s1) with (arrays s') in L2.
      split; [cbn [arrays stored]; lia|].
      intros x Hx. change (array (stored s'' a v) x) with (array s'' x).
      rewrite A2.
      * rewrite array_allocated_old by (change (arrays s1) with (arrays s'); lia).
        change (array s1 x) with (array s' x). apply A01, Hx.
      * rewrite length_arrays_allocated. change (arrays s1) with (arrays s'). lia.
      * cbn [s_arr b']. change (arrays s1) with (arrays s'). lia.
Qed.

Lemma into_round_trip_witness :
  let i := Encoded (Stream (zero_key 16)) in
  let s := mkState [] [ascii "hello"] (repeat x00 16) in
  (nth_error (strings s) 0 = Some (ascii "hello") /\ draws i <= length (entropy s))
  /\ exists s1 s2,
       into (Encrypt (instance i)) (Some 0) s = Done None s1
       /\ into (Decrypt (instance i)) (Some 0) s1 = Done None s2
       /\ (ascii "hello" <> [] ->
           exists ct s',
             Encrypt (instance i) (mkSlice (length (arrays s)) 0 5 5)
                     (allocated s (ascii "hello")) = Done (ct, None) s'
             /\ nth_error (strings s1) 0 = Some (bytes s' ct))
       /\ nth_error (strings s2) 0 = Some (ascii "hello")
       /\ (forall a', a' <> 0 -> nth_error (strings s2) a' = nth_error (strings s) a')
       /\ extends s s2.
Proof.
  intros i s.
  assert (H : nth_error (strings s) 0 = Some (ascii "hello")) by reflexivity.
  assert (E : draws i <= length (entropy s)) by (cbn; lia).
  split; [auto|]. exact (into_round_trip i 0 (ascii "hello") s H E).
Defined.

(** The string between the two calls of the witness. *)
Example into_Encrypt_hello :
  let i := Encoded (Stream (zero_key 16)) in
  let s := mkState [] [ascii "hello"] (repeat x00 16) in
  exists s1,
    into (Encrypt (instance i)) (Some 0) s = Done None s1
    /\ strings s1 = [ascii "AAAAAAAAAAAAAAAAAAAAAA6MJ7iA"].
Proof. eexists. split; vm_compute; reflexivity. Qed.

(** X16. When the codec is the [Encrypt] or the [Decrypt] of an instance
    and returns an error, [into] returns that error and leaves every string
    variable, and every array there was, as it found them. *)
Theorem into_keeps_the_string_on_error (i : Instance) (a : nat) (v : gostring)
        (s : state) (e : error) (s' : state) :
  nth_error (strings s) a = Some v ->
  into (Encrypt (instance i)) (Some a) s = Done (Some e) s'
  \/ into (Decrypt (instance i)) (Some a) s = Done (Some e) s' ->
  strings s' = strings s /\ extends s s'.
Proof.
  intros Hs H.
  destruct v as [|x v]; [rewrite !into_empty in H by exact Hs; destruct H; discriminate|].
  set (w := x :: v) in *.
  destruct (valid_copy s w) as (V0 & _).
  set (b := mkSlice (length (arrays s)) 0 (length w) (length w)) in *.
  destruct H as [H|H].
  - destruct (Nat.le_gt_cases (draws i) (length (entropy (allocated s w)))) as [He|He].
    + destruct (Encrypt_run i b (allocated s w) V0 He) as (d & s2 & E & _ & _ & _ & S & _).
      rewrite (into_run _ a w s d s2 Hs ltac:(discriminate) E S) in H. discriminate.
    + destruct (Encrypt_dry i b (allocated s w) He) as (e0 & s2 & E & _ & X & S & _).
      rewrite (into_fails _ a w s nil_slice e0 s2 Hs ltac:(discriminate) E) in H.
      injection H as _ <-. split; [exact S|].
      apply (extends_trans s (allocated s w) s2); [apply extends_allocated | exact X].
  - destruct (Decrypt (instance i) b (allocated s w)) as [[d err] s2|p s2] eqn:E.
    + destruct (Decrypt_footprint i b (allocated s w) (d, err) s2 V0 E)
        as (S & _ & L & A & _).
      cbn [strings allocated] in S. rewrite length_arrays_allocated in L.
      destruct err as [e0|].
      * rewrite (into_fails _ a w s d e0 s2 Hs ltac:(discriminate) E) in H.
        injection H as _ <-. split; [exact S|]. split; [lia|].
        intros y Hy. rewrite A.
        -- apply array_allocated_old, Hy.
        -- rewrite length_arrays_allocated. lia.
        -- cbn [s_arr b]. lia.
      * rewrite (into_run _ a w s d s2 Hs ltac:(discriminate) E S) in H. discriminate.
    + exfalso. revert H. unfold into. step load_run. unfold w at 1. cbv beta iota.
      unfold bytes_of_string. step alloc_run. fold w b.
      erewrite bind_Panicked by exact E. discriminate.
Qed.

Lemma into_keeps_the_string_on_error_witness :
  let i := Stream (zero_key 16) in
  let s := mkState [] [ascii "hello"] [] in
  let e := Errorf_short 16 5 in
  let s' := mkState [ascii "hello"] [ascii "hello"] [] in
  (nth_error (strings s) 0 = Some (ascii "hello")
   /\ (into (Encrypt (instance i)) (Some 0) s = Done (Some e) s'
       \/ into (Decrypt (instance i)) (Some 0) s = Done (Some e) s'))
  /\ strings s' = strings s /\ extends s s'.
Proof.
  intros i s e s'.
  assert (H : nth_error (strings s) 0 = Some (ascii "hello")) by reflexivity.
  assert (D : into (Encrypt (instance i)) (Some 0) s = Done (Some e) s'
              \/ into (Decrypt (instance i)) (Some 0) s = Done (Some e) s')
    by (right; vm_compute; reflexivity).
  split; [auto|]. exact (into_keeps_the_string_on_error i 0 (ascii "hello") s e s' H D).
Defined.

(** X17. [EncryptInto] and [DecryptInto] of every instance return nil and
    leave the string they are given, the other string variables, the arrays
    there were and the random source as they found them: the promoted
    methods run the pass-through codec of the embedded [DefaultCipher]. *)
Theorem into_helpers_change_nothing (i : Instance) (a : nat) (v : gostring) (s : state) :
  nth_error (strings s) a = Some v ->
  exists s',
    EncryptInto (instance i) (Some a) s = Done None s'
    /\ DecryptInto (instance i) (Some a) s = Done None s'
    /\ strings s' = strings s /\ entropy s' = entropy s /\ extends s s'.
Proof.
  intros Hs. destruct (list_eq_dec Strings.Byte.byte_eq_dec v []) as [Z|NZ].
  - subst v. exists s. destruct (EncryptInto_promoted i) as (-> & ->).
    unfold DefaultCipher_EncryptInto, DefaultCipher_DecryptInto.
    rewrite !into_empty by exact Hs. auto using extends_refl.
  - destruct (into_helpers_pass_through i a v s Hs NZ) as (E & D).
    exists (allocated s v). split; [exact E|]. split; [exact D|].
    split; [reflexivity|]. split; [reflexivity | apply extends_allocated].
Qed.

Lemma into_helpers_change_nothing_witness :
  let i := Authenticated (zero_key 32) in
  let s := mkState [] [ascii "hello"] (repeat x00 12) in
  nth_error (strings s) 0 = Some (ascii "hello")
  /\ exists s',
       EncryptInto (instance i) (Some 0) s = Done None s'
       /\ DecryptInto (instance i) (Some 0) s = Done None s'
       /\ strings s' = strings s /\ entropy s' = entropy s /\ extends s s'.
Proof.
  intros i s.
  assert (H : nth_error (strings s) 0 = Some (ascii "hello")) by reflexivity.
  split; [exact H|]. exact (into_helpers_change_nothing i 0 (ascii "hello") s H).
Defined.

(** X18. [NewBase64Cipher] over [NewCFBCipher] or [NewGCMCipher] returns
    the Base64 wrapper around the cipher they build when the Secret is 16,
    24 or 32 bytes long, and no cipher and their key size error otherwise;
    the store is not touched. *)
Theorem NewBase64Cipher_checks_key_length (secret : slice) (s : state) :
  let block := aes.mkBlock (aes.expandKey (bytes s secret)) in
  NewBase64Cipher NewCFBCipher secret s
  = (if valid_key_length (s_len secret)
     then Done (Some (instance (Encoded (Stream block))), None) s
     else Done (None, Some (aes_KeySizeError (s_len secret))) s)
  /\ NewBase64Cipher NewGCMCipher secret s
     = (if valid_key_length (s_len secret)
        then Done (Some (instance (Encoded (Authenticated block))), None) s
        else Done (None, Some (aes_KeySizeError (s_len secret))) s)
  /\ kind (aes_KeySizeError (s_len secret)) = KeySetupError.
Proof.
  intros block. unfold NewBase64Cipher, NewCFBCipher, NewGCMCipher.
  split; [|split; [|reflexivity]]; step aes_NewCipher_run;
    destruct (valid_key_length (s_len secret)); reflexivity.
Qed.

(** X19. [NewBase64Cipher] does not check the cipher its factory returns:
    when the factory returns a nil cipher and a nil error, it returns a
    wrapper and no error, and the wrapper's [Encrypt] panics on a nil
    dereference, as its [Decrypt] does on every text that decodes; on other
    text [Decrypt] returns the decode error. *)
Theorem NewBase64Cipher_nil_cipher
        (initCipher : slice -> M (option Cipher * option error))
        (secret : slice) (s s0 : state) :
  initCipher secret s = Done (None, None) s0 ->
  exists c,
    NewBase64Cipher initCipher secret s = Done (Some c, None) s0
    /\ (forall value s1, Encrypt c value s1 = Panicked BadPointer s1)
    /\ (forall ct s1,
          exists s2,
            Decrypt c ct s1
            = match snd (base64.decodeString (bytes s1 ct)) with
              | Some off =>
                  Done (nil_slice, Some (Errorf_decode (base64_CorruptInputError off))) s2
              | None => Panicked BadPointer s2
              end).
Proof.
  intros H. eexists. split; [|split].
  - unfold NewBase64Cipher. step H. reflexivity.
  - intros value s1. reflexivity.
  - intros ct s1. eexists.
    cbn [Decrypt Base64Cipher_as_Cipher]. unfold Base64Cipher_Decrypt.
    unfold string_of_bytes. step read_run.
    destruct (DecodeString_run (bytes s1 ct) s1) as (E & _). step E.
    cbn [Base64_Cipher call].
    destruct (snd (base64.decodeString (bytes s1 ct))); reflexivity.
Qed.

Lemma NewBase64Cipher_nil_cipher_witness :
  let initCipher : slice -> M (option Cipher * option error) :=
    fun _ => ret (None, None) in
  let s := mkState [] [] [] in
  initCipher nil_slice s = Done (None, None) s
  /\ exists c,
       NewBase64Cipher initCipher nil_slice s = Done (Some c, None) s
       /\ (forall value s1, Encrypt c value s1 = Panicked BadPointer s1)
       /\ (forall ct s1,
             exists s2,
               Decrypt c ct s1
               = match snd (base64.decodeString (bytes s1 ct)) with
                 | Some off =>
                     Done (nil_slice,
                           Some (Errorf_decode (base64_CorruptInputError off))) s2
                 | None => Panicked BadPointer s2
                 end).
Proof.
  intros initCipher s.
  assert (H : initCipher nil_slice s = Done (None, None) s) by reflexivity.
  split; [exact H|]. exact (NewBase64Cipher_nil_cipher initCipher nil_slice s s H).
Defined.

(** ** Tampering, and the random bytes *)

(** X20. [CFBCipher.Decrypt] accepts a ciphertext whose body was changed,
    and returns other plaintext for it: of two inputs of the same length,
    16 bytes or more, with the same IV and bodies that differ, both decrypt
    without error, to plaintexts that differ. *)
Theorem CFBCipher_Decrypt_accepts_tampered (b : aes.Block) (ct ct' : slice)
        (s s0 : state) :
  valid s ct -> valid s0 ct' -> 16 <= s_len ct -> s_len ct' = s_len ct ->
  firstn 16 (bytes s0 ct') = firstn 16 (bytes s ct) ->
  bytes s0 ct' <> bytes s ct ->
  exists out s1 out' s2,
    Decrypt (instance (Stream b)) ct s = Done (out, None) s1
    /\ Decrypt (instance (Stream b)) ct' s0 = Done (out', None) s2
    /\ bytes s2 out' <> bytes s1 out.
Proof.
  intros Hv Hv' Hl Hlen Hiv Hne.
  destruct (CFBCipher_Decrypt_run (mkCFBCipher mkDefaultCipher b) ct s Hv Hl)
    as (E & _ & B).
  destruct (CFBCipher_Decrypt_run (mkCFBCipher mkDefaultCipher b) ct' s0 Hv')
    as (E' & _ & B'); [lia|].
  eexists _, _, _, _. split; [exact E|]. split; [exact E'|].
  rewrite B, B'. cbn [CFB_Block].
  pose proof (length_bytes s ct Hv) as Lc.
  pose proof (length_bytes s0 ct' Hv') as Lc'.
  assert (Liv : length (firstn 16 (bytes s ct)) = 16) by (rewrite length_firstn; lia).
  assert (Ls : length (skipn 16 (bytes s ct)) = s_len ct - 16)
    by (rewrite length_skipn; lia).
  assert (Ls' : length (skipn 16 (bytes s0 ct')) = s_len ct - 16)
    by (rewrite length_skipn; lia).
  pose proof (newCFB_decrypt b _ (skipn 16 (bytes s ct)) Liv) as D.
  pose proof (newCFB_decrypt b _ (skipn 16 (bytes s0 ct')) Liv) as D'.
  rewrite Ls in D. rewrite Ls' in D'.
  rewrite Hiv, Hlen, D, D'.
  intros F. apply Hne.
  rewrite <- (firstn_skipn 16 (bytes s0 ct')), <- (firstn_skipn 16 (bytes s ct)), Hiv.
  f_equal.
  apply (cfb_decrypt_injective b (s_len ct - 16) (firstn 16 (bytes s ct)));
    [lia | lia | exact F].
Qed.

Lemma CFBCipher_Decrypt_accepts_tampered_witness :
  let b := zero_key 16 in
  let s := mkState [repeat x00 16 ++ hex "0e8c27b880";
                    repeat x00 16 ++ hex "0e8c27b881"] [] [] in
  let ct := mkSlice 0 0 21 21 in
  let ct' := mkSlice 1 0 21 21 in
  (valid s ct /\ valid s ct' /\ 16 <= s_len ct /\ s_len ct' = s_len ct
   /\ firstn 16 (bytes s ct') = firstn 16 (bytes s ct)
   /\ bytes s ct' <> bytes s ct)
  /\ exists out s1 out' s2,
       Decrypt (instance (Stream b)) ct s = Done (out, None) s1
       /\ Decrypt (instance (Stream b)) ct' s = Done (out', None) s2
       /\ bytes s2 out' <> bytes s1 out.
Proof.
  intros b s ct ct'.
  assert (V : valid s ct) by (unfold valid; cbn; lia).
  assert (V' : valid s ct') by (unfold valid; cbn; lia).
  assert (L : 16 <= s_len ct) by (cbn; lia).
  assert (L' : s_len ct' = s_len ct) by reflexivity.
  assert (I : firstn 16 (bytes s ct') = firstn 16 (bytes s ct)) by reflexivity.
  assert (N : bytes s ct' <> bytes s ct) by (vm_compute; discriminate).
  split; [auto 7|].
  exact (CFBCipher_Decrypt_accepts_tampered b ct ct' s s V V' L L' I N).
Defined.

(** X21. The ciphertext shows the random bytes [Encrypt] drew: when two
    calls draw different bytes for the IV or the nonce, the ciphertexts
    they return differ, whatever the plaintexts, for every instance. *)
Theorem Encrypt_depends_on_the_random_bytes (i : Instance) (v1 v2 : slice)
        (s1 s2 : state) :
  valid s1 v1 -> valid s2 v2 ->
  draws i <= length (entropy s1) -> draws i <= length (entropy s2) ->
  firstn (draws i) (entropy s1) <> firstn (draws i) (entropy s2) ->
  exists c1 t1 c2 t2,
    Encrypt (instance i) v1 s1 = Done (c1, None) t1
    /\ Encrypt (instance i) v2 s2 = Done (c2, None) t2
    /\ bytes t1 c1 <> bytes t2 c2.
Proof.
  intros V1 V2 E1 E2 Hne.
  destruct (Encrypt_run i v1 s1 V1 E1) as (c1 & t1 & R1 & _ & B1 & _).
  destruct (Encrypt_run i v2 s2 V2 E2) as (c2 & t2 & R2 & _ & B2 & _).
  exists c1, t1, c2, t2. split; [exact R1|]. split; [exact R2|].
  rewrite B1, B2. intros F. apply Hne.
  exact (ciphertext_of_shows_entropy i _ _ _ _ E1 E2 F).
Qed.

Lemma Encrypt_depends_on_the_random_bytes_witness :
  let i := Encoded (Authenticated (zero_key 16)) in
  let s1 := mkState [ascii "hello"] [] (repeat x00 12) in
  let s2 := mkState [ascii "hello"] [] (hex "cafebabefacedbaddecaf888") in
  let v := mkSlice 0 0 5 5 in
  (valid s1 v /\ valid s2 v
   /\ draws i <= length (entropy s1) /\ draws i <= length (entropy s2)
   /\ firstn (draws i) (entropy s1) <> firstn (draws i) (entropy s2))
  /\ exists c1 t1 c2 t2,
       Encrypt (instance i) v s1 = Done (c1, None) t1
       /\ Encrypt (instance i) v s2 = Done (c2, None) t2
       /\ bytes t1 c1 <> bytes t2 c2.
Proof.
  intros i s1 s2 v.
  assert (V1 : valid s1 v) by (unfold valid; cbn; lia).
  assert (V2 : valid s2 v) by (unfold valid; cbn; lia).
  assert (E1 : draws i <= length (entropy s1)) by (cbn; lia).
  assert (E2 : draws i <= length (entropy s2)) by (cbn; lia).
  assert (N : firstn (draws i) (entropy s1) <> firstn (draws i) (entropy s2))
    by (vm_compute; discriminate).
  split; [auto 6|].
  exact (Encrypt_depends_on_the_random_bytes i v v s1 s2 V1 V2 E1 E2 N).
Defined.
